(** * ID3 decision trees with randomized post-pruning

    A shallow embedding of the Python package [id3_algorithm]
    ([tree.py], [entropy.py], [variance.py]) and the properties of its
    specification.

    Conventions of the embedding.
    - A Python [int] is a [Z]; a Python [float] is an IEEE-754 binary64
      value, represented by [spec_float] with the standard library's
      executable operations at precision 53 and maximal exponent 1024.
    - A raised exception is the [Raise] alternative of [result]; the
      exception classes the program can raise are the constructors of
      [exn].
    - A reference to a [Node] object of a tree is its access path from the
      root; a reference to a [BTree] object is an address in a store
      (module [Pruning]).  *)

From Stdlib Require Import ZArith List String Ascii Bool Lia Permutation.
From Stdlib Require Import SpecFloat DecimalString.
Import ListNotations.
Local Open Scope Z_scope.

(* ===================================================================== *)
(** ** Exceptions and fallible results *)
(* ===================================================================== *)

Inductive exn : Type :=
| ValueError (msg : string)        (* raise ValueError(msg) *)
| KeyError (key : option string)   (* a failed [mapping[key]] lookup *)
| IndexError                       (* a list index out of range *)
| ZeroDivisionError.               (* [a / 0] *)

Inductive result (A : Type) : Type :=
| Ok (a : A)
| Raise (e : exn).
Arguments Ok {A} a.
Arguments Raise {A} e.

Definition bind {A B : Type} (r : result A) (k : A -> result B) : result B :=
  match r with
  | Ok a => k a
  | Raise e => Raise e
  end.

Notation "x <- r ;; k" := (bind r (fun x => k))
  (at level 61, r at next level, right associativity).

Definition succeeds {A : Type} (r : result A) : Prop := exists a, r = Ok a.

(* ===================================================================== *)
(** ** Python numbers *)
(* ===================================================================== *)

Module Float.

Definition float : Type := spec_float.
Definition prec : Z := 53.
Definition emax : Z := 1024.

(** [0.0] *)
Definition zero : float := S754_zero false.

(** [float(z)], the conversion applied to an [int] operand of a mixed
    [float]/[int] operation. *)
Definition of_int (z : Z) : float := binary_normalize prec emax z 0 false.

(** An integer as an exact, unrounded binary number [z * 2^0]. *)
Definition exact (z : Z) : float :=
  match z with
  | Z0 => S754_zero false
  | Zpos p => S754_finite false p 0
  | Zneg p => S754_finite true p 0
  end.

Definition add : float -> float -> float := SFadd prec emax.
Definition sub : float -> float -> float := SFsub prec emax.
Definition mul : float -> float -> float := SFmul prec emax.
Definition neg : float -> float := SFopp.

(** [x > y], [x >= y], [x == y] *)
Definition gt (x y : float) : bool := SFltb y x.
Definition ge (x y : float) : bool := SFleb y x.
Definition eq (x y : float) : bool := SFeqb x y.

Definition is_nan (x : float) : bool :=
  match x with S754_nan => true | _ => false end.

(** [a / b] on two [int]s: the quotient of the exact integers, rounded
    once to the nearest binary64 value.  Every quotient the program
    forms divides a count by a count that is at least as large, so the
    [OverflowError] of a quotient beyond the binary64 range is left out. *)
Definition int_truediv (a b : Z) : result float :=
  if b =? 0 then Raise ZeroDivisionError
  else Ok (SFdiv prec emax (exact a) (exact b)).

End Float.
Import Float.

(** [str(z)] *)
Definition str_of_int (z : Z) : string := NilZero.string_of_int (Z.to_int z).

(** [int(s)] on a string, base 10, for ASCII input: surrounding
    whitespace is stripped, one sign is allowed, and digits may be
    separated by single underscores. *)
Module IntLiteral.

Definition is_space (c : ascii) : bool :=
  let n := nat_of_ascii c in
  ((9 <=? n) && (n <=? 13) || (28 <=? n) && (n <=? 32))%nat.

Definition digit (c : ascii) : option Z :=
  let n := nat_of_ascii c in
  if ((48 <=? n) && (n <=? 57))%nat then Some (Z.of_nat n - 48) else None.

Fixpoint lstrip (s : string) : string :=
  match s with
  | String c r => if is_space c then lstrip r else s
  | EmptyString => s
  end.

(** [after_digit] records that the previous character was a digit, the
    only place where an underscore or the end of the literal may come;
    trailing whitespace ends the literal. *)
Fixpoint digits (acc : Z) (after_digit : bool) (s : string) : option Z :=
  match s with
  | EmptyString => if after_digit then Some acc else None
  | String c r =>
      match digit c with
      | Some d => digits (10 * acc + d) true r
      | None =>
          if after_digit then
            if Ascii.eqb c "_" then
              match r with
              | String c' _ =>
                  match digit c' with
                  | Some _ => digits acc false r
                  | None => None
                  end
              | EmptyString => None
              end
            else if is_space c then
              match lstrip r with EmptyString => Some acc | _ => None end
            else None
          else None
      end
  end.

Definition parse (s : string) : option Z :=
  match lstrip s with
  | String "+" r => digits 0 false r
  | String "-" r => option_map Z.opp (digits 0 false r)
  | body => digits 0 false body
  end.

End IntLiteral.

Definition py_int (s : string) : result Z :=
  match IntLiteral.parse s with
  | Some z => Ok z
  | None =>
      Raise (ValueError ("invalid literal for int() with base 10: '" ++ s ++ "'"))
  end.

(* ===================================================================== *)
(** ** tree.py: the binary tree *)
(* ===================================================================== *)

Module Tree.

(** The dataclass [Node]. *)
#[warnings="-register-all"]
Inductive Node : Type := mkNode {
  value : option string;
  idx : Z;
  zeroes : Z;
  ones : Z;
  left : option Node;
  right : option Node
}.

(** The class [BTree]: its two attributes. *)
Record BTree : Type := mkBTree {
  root : option Node;
  _counter : Z
}.

(** [BTree()] *)
Definition new : BTree := mkBTree None 0.

(** [node.left is None and node.right is None] *)
Definition is_leaf (n : Node) : bool :=
  match left n, right n with
  | None, None => true
  | _, _ => false
  end.

(** *** References to nodes

    A [Node] object reachable from a root is named by the branches
    that lead to it: [false] for [.left], [true] for [.right]. *)
Definition ref : Type := list bool.

Definition child (b : bool) (n : Node) : option Node :=
  if b then right n else left n.

Definition set_child (b : bool) (c : option Node) (n : Node) : Node :=
  if b then mkNode (value n) (idx n) (zeroes n) (ones n) (left n) c
  else mkNode (value n) (idx n) (zeroes n) (ones n) c (right n).

Fixpoint deref (n : Node) (p : ref) {struct p} : option Node :=
  match p with
  | [] => Some n
  | b :: p' =>
      match child b n with
      | Some c => deref c p'
      | None => None
      end
  end.

(** In-place update of the object behind a reference. *)
Fixpoint update (n : Node) (p : ref) (f : Node -> Node) {struct p} : Node :=
  match p with
  | [] => f n
  | b :: p' =>
      match child b n with
      | Some c => set_child b (Some (update c p' f)) n
      | None => n
      end
  end.

Definition update_root (t : BTree) (p : ref) (f : Node -> Node) : option Node :=
  match root t with
  | Some r => Some (update r p f)
  | None => None
  end.

(** *** Methods of [BTree] *)

Fixpoint find_from (n : Node) (node_idx : Z) : option ref :=
  if idx n =? node_idx then Some []
  else
    match
      match left n with
      | Some l => find_from l node_idx
      | None => None
      end
    with
    | Some p => Some (false :: p)
    | None =>
        match right n with
        | Some r => option_map (cons true) (find_from r node_idx)
        | None => None
        end
    end.

Definition _find_node_recursive (node : option Node) (node_idx : Z) : option ref :=
  match node with
  | None => None
  | Some n => find_from n node_idx
  end.

Definition _find_node (t : BTree) (node_idx : Z) : result ref :=
  match _find_node_recursive (root t) node_idx with
  | None =>
      Raise (ValueError ("Node with index " ++ str_of_int node_idx ++ " not found"))
  | Some p => Ok p
  end.

Definition add_root (t : BTree) (v : option string) (z o : Z) : result (Z * BTree) :=
  match root t with
  | Some _ => Raise (ValueError "Root node already exists")
  | None =>
      Ok (_counter t, mkBTree (Some (mkNode v (_counter t) z o None None)) (_counter t))
  end.

Definition add_child (b : bool) (t : BTree) (parent_idx : Z)
    (v : option string) (z o : Z) : result (Z * BTree) :=
  parent <- _find_node t parent_idx ;;
  let c := _counter t + 1 in
  Ok (c, mkBTree
           (update_root t parent (set_child b (Some (mkNode v c z o None None))))
           c).

Definition add_left_child : BTree -> Z -> option string -> Z -> Z -> result (Z * BTree) :=
  add_child false.

Definition add_right_child : BTree -> Z -> option string -> Z -> Z -> result (Z * BTree) :=
  add_child true.

Definition get_root (t : BTree) : option Node := root t.

(** [_collect_non_leaves(node, nodes)]: [here] is the reference of
    [node], [nodes] the list being appended to. *)
Fixpoint collect_from (n : Node) (here : ref) (nodes : list ref) : list ref :=
  let nodes := if is_leaf n then nodes else nodes ++ [here] in
  let nodes :=
    match left n with
    | Some l => collect_from l (here ++ [false]) nodes
    | None => nodes
    end in
  match right n with
  | Some r => collect_from r (here ++ [true]) nodes
  | None => nodes
  end.

Definition _collect_non_leaves (node : option Node) (here : ref)
    (nodes : list ref) : list ref :=
  match node with
  | None => nodes
  | Some n => collect_from n here nodes
  end.

Definition get_non_leaves (t : BTree) : list ref :=
  _collect_non_leaves (root t) [] [].

(** *** Classification *)

(** A sample is any mapping from attribute names to values;
    [sample[key]] raises [KeyError] on a missing key. *)
Definition Sample : Type := string -> option Z.

Definition getitem (sample : Sample) (key : option string) : result Z :=
  match key with
  | Some a =>
      match sample a with
      | Some v => Ok v
      | None => Raise (KeyError key)
      end
  | None => Raise (KeyError None)
  end.

Definition InvalidLeaf : exn :=
  ValueError "Leaf nodes must carry a classification label".
Definition MissingLeft : exn :=
  ValueError "Tree is missing a left branch for value 0".
Definition MissingRight : exn :=
  ValueError "Tree is missing a right branch for value 1".

Fixpoint traverse (node : Node) (sample : Sample) : result Z :=
  if is_leaf node then
    match value node with
    | None => Raise InvalidLeaf
    | Some label => py_int label
    end
  else
    branch <- getitem sample (value node) ;;
    if branch =? 0 then
      match left node with
      | None => Raise MissingLeft
      | Some l => traverse l sample
      end
    else
      match right node with
      | None => Raise MissingRight
      | Some r => traverse r sample
      end.

(** *** The other methods of [BTree] *)

(** [set_node_value]: the node keeps its index and its children. *)
Definition set_node_value (t : BTree) (node_idx : Z) (v : string) (z o : Z)
    : result BTree :=
  node <- _find_node t node_idx ;;
  Ok (mkBTree
        (update_root t node
           (fun n => mkNode (Some v) (idx n) z o (left n) (right n)))
        (_counter t)).

Fixpoint non_leaves_from (n : Node) : Z :=
  if is_leaf n then 0
  else 1
       + match left n with Some l => non_leaves_from l | None => 0 end
       + match right n with Some r => non_leaves_from r | None => 0 end.

Definition num_of_non_leaves (node : option Node) : Z :=
  match node with
  | None => 0
  | Some n => non_leaves_from n
  end.

(** *** Printing: the lines written to the standard output *)

(** [str(node.value)], as [print] and an f-string format it. *)
Definition str_of_value (v : option string) : string :=
  match v with
  | Some s => s
  | None => "None"
  end.

(** [s * n] *)
Fixpoint times (s : string) (n : nat) : string :=
  match n with
  | O => EmptyString
  | S n' => (s ++ times s n')%string
  end.

Fixpoint _print_subtree (node : Node) (depth : nat) : list string :=
  let indent := times "| " depth in
  (match left node with
   | None => []
   | Some l =>
       if is_leaf l then
         [(indent ++ str_of_value (value node) ++ " = 0 : "
             ++ str_of_value (value l))%string]
       else
         (indent ++ str_of_value (value node) ++ " = 0 :")%string
           :: _print_subtree l (S depth)
   end
   ++
   match right node with
   | None => []
   | Some r =>
       if is_leaf r then
         [(indent ++ str_of_value (value node) ++ " = 1 : "
             ++ str_of_value (value r))%string]
       else
         (indent ++ str_of_value (value node) ++ " = 1 :")%string
           :: _print_subtree r (S depth)
   end)%list.

Definition print_btree (t : BTree) : list string :=
  match root t with
  | None => ["<empty tree>"%string]
  | Some r => if is_leaf r then [str_of_value (value r)] else _print_subtree r 0
  end.

End Tree.
Import Tree.

(* ===================================================================== *)
(** ** The tabular data the package reads with pandas *)
(* ===================================================================== *)

Module Frame.

(** A row gives every column its integer cell. *)
Definition Row : Type := string -> Z.

(** A [DataFrame] with the default positional index: its column labels
    and its rows in order. *)
Record DataFrame : Type := mkFrame {
  columns : list string;
  rows : list Row
}.

Definition has_column (d : DataFrame) (a : string) : bool :=
  existsb (String.eqb a) (columns d).

(** [dataset.loc[dataset[a] == v]] *)
Definition where_eq (d : DataFrame) (a : string) (v : Z) : result DataFrame :=
  if has_column d a
  then Ok (mkFrame (columns d) (filter (fun r => r a =? v) (rows d)))
  else Raise (KeyError (Some a)).

(** [len(dataset)] *)
Definition len (d : DataFrame) : Z := Z.of_nat (List.length (rows d)).

(** [dataset.empty]: some axis has length 0. *)
Definition empty (d : DataFrame) : bool :=
  match rows d, columns d with
  | _ :: _, _ :: _ => false
  | _, _ => true
  end.

(** [dataset.drop(columns=[a])] *)
Definition drop_column (d : DataFrame) (a : string) : result DataFrame :=
  if has_column d a
  then Ok (mkFrame (filter (fun c => negb (String.eqb c a)) (columns d)) (rows d))
  else Raise (KeyError (Some a)).

(** One row of [dataset.iterrows()]: a series indexed by the column
    labels of [d]. *)
Definition series (d : DataFrame) (r : Row) : Sample :=
  fun a => if has_column d a then Some (r a) else None.

End Frame.
Import Frame.

Definition TARGET_COLUMN : string := "Class".

(* ===================================================================== *)
(** ** entropy.py and variance.py: what the two modules share *)
(* ===================================================================== *)

Module ID3.

(** [max(gains)]: the scan keeps the first item and replaces it by each
    later item that compares greater.  The result is an element of the
    list, named here by its position together with its value.  (The
    message for an empty list is that of CPython up to 3.11.) *)
Fixpoint max_scan (rest : list float) (i : nat) (maxpos : nat) (maxitem : float)
    : nat * float :=
  match rest with
  | [] => (maxpos, maxitem)
  | item :: rest' =>
      if gt item maxitem then max_scan rest' (S i) i item
      else max_scan rest' (S i) maxpos maxitem
  end.

Definition py_max (gains : list float) : result (nat * float) :=
  match gains with
  | [] => Raise (ValueError "max() arg is an empty sequence")
  | g :: rest => Ok (max_scan rest 1 0 g)
  end.

(** [gains.index(x)]: the first position whose item is the object [x]
    itself or compares equal to it.  The gains are distinct objects, one
    per [append], so an item is [x] itself exactly at the position of
    [x]. *)
Fixpoint index_scan (gains : list float) (i : nat) (x : nat * float) : result nat :=
  match gains with
  | [] => Raise (ValueError "x is not in list")
  | g :: rest =>
      if (i =? fst x)%nat || eq g (snd x) then Ok i
      else index_scan rest (S i) x
  end.

Definition py_index (gains : list float) (x : nat * float) : result nat :=
  index_scan gains 0 x.

(** [attributes[i]] *)
Definition item (attributes : list string) (i : nat) : result string :=
  match nth_error attributes i with
  | Some a => Ok a
  | None => Raise IndexError
  end.

(** ["1" if ones >= zeroes else "0"] *)
Definition majority (zeroes ones : Z) : string :=
  if ones >=? zeroes then "1"%string else "0"%string.

Definition _create_node (decision_tree : BTree) (parent_idx branch_value : option Z)
    (v : string) (z o : Z) : result (Z * BTree) :=
  match parent_idx with
  | None =>
      match get_root decision_tree with
      | None => add_root decision_tree (Some v) z o
      | Some _ => Raise (ValueError "Root already exists")
      end
  | Some parent =>
      match branch_value with
      | Some 0 => add_left_child decision_tree parent (Some v) z o
      | Some 1 => add_right_child decision_tree parent (Some v) z o
      | _ => Raise (ValueError "Branch value must be 0 or 1 for non-root nodes")
      end
  end.

(** [len(dataset.loc[dataset[TARGET_COLUMN] == v])] *)
Definition class_count (dataset : DataFrame) (v : Z) : result Z :=
  d <- where_eq dataset TARGET_COLUMN v ;; Ok (len d).

Section Strategy.

(** The impurity measure: [entropy] or [variance_impurity]. *)
Variable impurity : Z -> Z -> result float.

(** One round of the loop [for value in (0, 1)] inside [_gain]. *)
Definition partition_term (dataset : DataFrame) (attribute : string)
    (subtotal : float) (v : Z) : result float :=
  subset <- where_eq dataset attribute v ;;
  negative <- class_count subset 0 ;;
  positive <- class_count subset 1 ;;
  subset_impurity <- impurity positive negative ;;
  weight <- int_truediv (negative + positive) (len dataset) ;;
  Ok (add subtotal (mul weight subset_impurity)).

(** The body of the loop [for attribute in attributes]. *)
Definition gain_of (total : float) (dataset : DataFrame) (attribute : string)
    : result float :=
  subtotal <- partition_term dataset attribute zero 0 ;;
  subtotal <- partition_term dataset attribute subtotal 1 ;;
  Ok (sub total subtotal).

Fixpoint gains_of (total : float) (dataset : DataFrame) (attributes : list string)
    : result (list float) :=
  match attributes with
  | [] => Ok []
  | attribute :: rest =>
      g <- gain_of total dataset attribute ;;
      gs <- gains_of total dataset rest ;;
      Ok (g :: gs)
  end.

(** [_information_gain] and [_variance_gain]. *)
Definition _gain (total : float) (dataset : DataFrame) (attributes : list string)
    : result string :=
  gains <- gains_of total dataset attributes ;;
  m <- py_max gains ;;
  max_index <- py_index gains m ;;
  item attributes max_index.

Definition remaining (attributes : list string) (best_attribute : string) : list string :=
  filter (fun attribute => negb (String.eqb attribute best_attribute)) attributes.

(** The body of the loop [for value in (0, 1)] of [_build_tree];
    [recur] stands for the recursive call. *)
Definition grow_branch
    (recur : DataFrame -> list string -> BTree -> option Z -> option Z ->
             option (result BTree))
    (dataset : DataFrame) (best_attribute : string)
    (remaining_attributes : list string) (zeroes ones current_idx : Z)
    (decision_tree : BTree) (v : Z) : option (result BTree) :=
  match where_eq dataset best_attribute v with
  | Raise e => Some (Raise e)
  | Ok subset =>
      if empty subset then
        Some (r <- _create_node decision_tree (Some current_idx) (Some v)
                     (majority zeroes ones) zeroes ones ;;
              Ok (snd r))
      else
        recur subset remaining_attributes decision_tree (Some current_idx) (Some v)
  end.

(** The body of [_build_tree]. *)
Definition build_body
    (recur : DataFrame -> list string -> BTree -> option Z -> option Z ->
             option (result BTree))
    (dataset : DataFrame) (attributes : list string)
    (decision_tree : BTree) (parent_idx branch_value : option Z)
    : option (result BTree) :=
  let leaf (label : string) (zeroes ones : Z) :=
    Some (r <- _create_node decision_tree parent_idx branch_value
                 label zeroes ones ;; Ok (snd r)) in
  match (ones <- class_count dataset 1 ;;
         zeroes <- class_count dataset 0 ;; Ok (ones, zeroes)) with
  | Raise e => Some (Raise e)
  | Ok (ones, zeroes) =>
      if ones =? 0 then leaf "0"%string zeroes ones
      else if zeroes =? 0 then leaf "1"%string zeroes ones
      else
        match attributes with
        | [] => leaf (majority zeroes ones) zeroes ones
        | _ :: _ =>
            match (total <- impurity ones zeroes ;;
                   best_attribute <- _gain total dataset attributes ;;
                   r <- _create_node decision_tree parent_idx branch_value
                          best_attribute zeroes ones ;;
                   Ok (best_attribute, r)) with
            | Raise e => Some (Raise e)
            | Ok (best_attribute, (current_idx, decision_tree)) =>
                let remaining_attributes := remaining attributes best_attribute in
                match grow_branch recur dataset best_attribute remaining_attributes
                        zeroes ones current_idx decision_tree 0 with
                | Some (Ok decision_tree) =>
                    grow_branch recur dataset best_attribute remaining_attributes
                      zeroes ones current_idx decision_tree 1
                | stop => stop
                end
            end
        end
  end.

(** [_build_tree]; [fuel] bounds the depth of the recursion and [None]
    reports that the bound was hit. *)
Fixpoint _build_tree (fuel : nat) (dataset : DataFrame) (attributes : list string)
    (decision_tree : BTree) (parent_idx branch_value : option Z)
    : option (result BTree) :=
  match fuel with
  | O => None
  | S fuel' =>
      build_body (_build_tree fuel') dataset attributes decision_tree
        parent_idx branch_value
  end.

(** [construct_tree]: the recursion is given one level per attribute
    and one more. *)
Definition construct_tree (dataset : DataFrame) : option (result BTree) :=
  match drop_column dataset TARGET_COLUMN with
  | Raise e => Some (Raise e)
  | Ok predictors =>
      let attributes := columns predictors in
      _build_tree (S (List.length attributes)) dataset attributes Tree.new None None
  end.

End Strategy.

(** The loop of [calculate_accuracy]: [matches] after the rows seen.  With
    the positional index, [dataset[TARGET_COLUMN].iloc[index]] is the
    target cell of the row at hand. *)
Fixpoint count_matches (root : Node) (predictors : DataFrame) (rs : list Row)
    (matches : Z) : result Z :=
  match rs with
  | [] => Ok matches
  | row :: rest =>
      prediction <- traverse root (series predictors row) ;;
      count_matches root predictors rest
        (if prediction =? row TARGET_COLUMN then matches + 1 else matches)
  end.

Definition EmptyTree : exn := ValueError "Decision tree has no root node".

Definition calculate_accuracy (dataset : DataFrame) (decision_tree : BTree)
    : result float :=
  predictors <- drop_column dataset TARGET_COLUMN ;;
  match get_root decision_tree with
  | None => Raise EmptyTree
  | Some root =>
      matches <- count_matches root predictors (rows dataset) 0 ;;
      q <- int_truediv matches (len dataset) ;;
      Ok (mul q (of_int 100))
  end.

End ID3.

(* ===================================================================== *)
(** ** entropy.py *)
(* ===================================================================== *)

Module Entropy.
Section Log.

(** [math.log(x, base)] of the C library, a function of two floats.
    The program applies it to the quotient of a positive count by a
    larger count; its error on a non-positive argument is not part of
    the model. *)
Variable math_log : float -> float -> float.

Definition entropy (positive_count negative_count : Z) : result float :=
  let total := positive_count + negative_count in
  if total =? 0 then Ok zero
  else
    p_pos <- int_truediv positive_count total ;;
    p_neg <- int_truediv negative_count total ;;
    if (positive_count =? 0) || (negative_count =? 0) then Ok zero
    else Ok (sub (mul (neg p_pos) (math_log p_pos (of_int 2)))
                 (mul p_neg (math_log p_neg (of_int 2)))).

Definition _information_gain : float -> DataFrame -> list string -> result string :=
  ID3._gain entropy.

Definition _build_tree :
    nat -> DataFrame -> list string -> BTree -> option Z -> option Z ->
    option (result BTree) :=
  ID3._build_tree entropy.

Definition construct_tree : DataFrame -> option (result BTree) :=
  ID3.construct_tree entropy.

End Log.
End Entropy.

(* ===================================================================== *)
(** ** variance.py *)
(* ===================================================================== *)

Module Variance.

Definition variance_impurity (positive_count negative_count : Z) : result float :=
  let total := positive_count + negative_count in
  if total =? 0 then Ok zero
  else if (positive_count =? 0) || (negative_count =? 0) then Ok zero
  else
    probability_pos <- int_truediv positive_count total ;;
    probability_neg <- int_truediv negative_count total ;;
    Ok (mul probability_pos probability_neg).

Definition _variance_gain : float -> DataFrame -> list string -> result string :=
  ID3._gain variance_impurity.

Definition _build_tree :
    nat -> DataFrame -> list string -> BTree -> option Z -> option Z ->
    option (result BTree) :=
  ID3._build_tree variance_impurity.

Definition construct_tree : DataFrame -> option (result BTree) :=
  ID3.construct_tree variance_impurity.

End Variance.

(* ===================================================================== *)
(** ** post_pruning: trees as objects in a store *)
(* ===================================================================== *)

Module Pruning.

(** A [BTree] object is an address of the store; the nodes of a tree
    belong to that tree alone, as [add_root] and [add_*_child] build
    them.  The random module is a tape of numbers, read one draw at a
    time (an exhausted tape reads 0). *)
Definition loc : Type := nat.

Record world : Type := mkWorld {
  heap : list BTree;
  tape : list nat
}.

(** A computation reads and writes the world, and the world survives
    an exception. *)
Definition M (A : Type) : Type := world -> result A * world.

Definition ret {A : Type} (a : A) : M A := fun w => (Ok a, w).

Definition mbind {A B : Type} (m : M A) (k : A -> M B) : M B :=
  fun w =>
    match m w with
    | (Ok a, w') => k a w'
    | (Raise e, w') => (Raise e, w')
    end.

Notation "x <~ m ;; k" := (mbind m (fun x => k))
  (at level 61, m at next level, right associativity).

Definition lift {A : Type} (r : result A) : M A := fun w => (r, w).

(** The object behind a live reference. *)
Definition load (l : loc) : M BTree :=
  fun w => (Ok (nth l (heap w) Tree.new), w).

Fixpoint write (h : list BTree) (l : loc) (t : BTree) : list BTree :=
  match h, l with
  | [], _ => []
  | _ :: h', O => t :: h'
  | x :: h', S l' => x :: write h' l' t
  end.

Definition store (l : loc) (t : BTree) : M unit :=
  fun w => (Ok tt, mkWorld (write (heap w) l t) (tape w)).

(** [copy.deepcopy(tree)]: a new object with nodes of its own. *)
Definition deepcopy (l : loc) : M loc :=
  fun w =>
    (Ok (List.length (heap w)),
     mkWorld (heap w ++ [nth l (heap w) Tree.new]) (tape w)).

Definition draw : M nat :=
  fun w =>
    match tape w with
    | [] => (Ok O, w)
    | x :: rest => (Ok x, mkWorld (heap w) rest)
    end.

(** [random.randint(a, b)] for [a <= b] *)
Definition randint (a b : Z) : M Z :=
  x <~ draw ;; ret (a + Z.of_nat x mod (b - a + 1)).

(** [random.choice(refs)] for a non-empty list *)
Definition choice (refs : list ref) : M ref :=
  x <~ draw ;; ret (nth (x mod List.length refs) refs []).

(** The three assignments to [node_to_prune]. *)
Definition collapse (n : Node) : Node :=
  mkNode (Some (ID3.majority (zeroes n) (ones n))) (idx n) (zeroes n) (ones n)
    None None.

(** The inner loop, [n] rounds left. *)
Fixpoint prune_rounds (n : nat) (candidate : loc) : M unit :=
  match n with
  | O => ret tt
  | S n' =>
      t <~ load candidate ;;
      match get_non_leaves t with
      | [] => ret tt
      | non_leaves =>
          node_to_prune <~ choice non_leaves ;;
          _ <~ store candidate
                 (mkBTree (update_root t node_to_prune collapse) (_counter t)) ;;
          prune_rounds n' candidate
      end
  end.

(** The outer loop, [n] trials left. *)
Fixpoint trials (n : nat) (k : Z) (validation : DataFrame) (base_tree : loc)
    (best_tree : loc) (current_best : float) : M loc :=
  match n with
  | O => ret best_tree
  | S n' =>
      candidate <~ deepcopy base_tree ;;
      rounds <~ randint 1 (Z.max k 1) ;;
      _ <~ prune_rounds (Z.to_nat (Z.max rounds 1)) candidate ;;
      c <~ load candidate ;;
      candidate_accuracy <~ lift (ID3.calculate_accuracy validation c) ;;
      if gt candidate_accuracy current_best
      then trials n' k validation base_tree candidate candidate_accuracy
      else trials n' k validation base_tree best_tree current_best
  end.

(** [post_pruning(l, k, validation, base_tree)]; printing is outside the
    model. *)
Definition post_pruning (l k : Z) (validation : DataFrame) (base_tree : loc)
    : M loc :=
  best_tree <~ deepcopy base_tree ;;
  b <~ load best_tree ;;
  current_best <~ lift (ID3.calculate_accuracy validation b) ;;
  trials (Z.to_nat (Z.max l 1)) k validation base_tree best_tree current_best.

End Pruning.

(* ===================================================================== *)
(** ** run_entropy and run_variance *)
(* ===================================================================== *)

Module Run.

Import Pruning.

(** The dataclasses [EntropyRunResult] and [VarianceRunResult]. *)
Record RunResult : Type := mkRunResult {
  tree : loc;
  pruned_tree : loc;
  accuracy_before_pruning : float;
  accuracy_after_pruning : float
}.

(** A tree that a call has built becomes an object of the store. *)
Definition alloc (t : BTree) : M loc :=
  fun w => (Ok (List.length (heap w)), mkWorld (heap w ++ [t]) (tape w)).

(** The body the two functions share, after the three files are read:
    [construct] is the module's [construct_tree].  Printing is outside
    the model, and [None] reports that the builder hit its depth bound. *)
Definition run (construct : DataFrame -> option (result BTree))
    (training validation test : DataFrame) (l k : Z)
    : world -> option (result RunResult * world) :=
  fun w =>
    match construct training with
    | None => None
    | Some built =>
        Some ((t <~ lift built ;;
               decision_tree <~ alloc t ;;
               d <~ load decision_tree ;;
               accuracy_before <~ lift (ID3.calculate_accuracy test d) ;;
               pruned <~ post_pruning l k validation decision_tree ;;
               p <~ load pruned ;;
               accuracy_after <~ lift (ID3.calculate_accuracy test p) ;;
               ret (mkRunResult decision_tree pruned accuracy_before accuracy_after))
                w)
    end.

Definition run_entropy (math_log : float -> float -> float) :
    DataFrame -> DataFrame -> DataFrame -> Z -> Z ->
    world -> option (result RunResult * world) :=
  run (Entropy.construct_tree math_log).

Definition run_variance :
    DataFrame -> DataFrame -> DataFrame -> Z -> Z ->
    world -> option (result RunResult * world) :=
  run Variance.construct_tree.

End Run.

(* ===================================================================== *)
(** * Vocabulary of the properties *)
(* ===================================================================== *)

(** ** The order of binary64 values *)

(** Every value that is not a NaN has a place in the lexicographic
    order of [Z * Z * Z]; comparisons read that place. *)
Definition rank (x : float) : Z * Z * Z :=
  match x with
  | S754_nan => (0, 0, 0)
  | S754_zero _ => (0, 0, 0)
  | S754_infinity s => (if s then -2 else 2, 0, 0)
  | S754_finite false m e => (1, e, Zpos m)
  | S754_finite true m e => (-1, - e, Zneg m)
  end.

Definition lex_lt (a b : Z * Z * Z) : Prop :=
  let '(a1, a2, a3) := a in
  let '(b1, b2, b3) := b in
  a1 < b1 \/ (a1 = b1 /\ (a2 < b2 \/ (a2 = b2 /\ a3 < b3))).

Definition number (x : float) : Prop := is_nan x = false.


(** ** Trees *)

Definition on_child (P : Node -> Prop) (c : option Node) : Prop :=
  match c with
  | Some n => P n
  | None => True
  end.

(** Structural induction on a node and its optional children. *)
Fixpoint Node_induction (P : Node -> Prop)
    (step : forall n, on_child P (left n) -> on_child P (right n) -> P n)
    (n : Node) : P n :=
  match n as n0 return P n0 with
  | mkNode v i z o l r =>
      step (mkNode v i z o l r)
        (match l as c return on_child P c with
         | Some l' => Node_induction P step l'
         | None => I
         end)
        (match r as c return on_child P c with
         | Some r' => Node_induction P step r'
         | None => I
         end)
  end.

(** The indices of the nodes under [n], in the order [_find_node]
    visits them. *)
Fixpoint indices (n : Node) : list Z :=
  idx n
    :: match left n with Some l => indices l | None => [] end
    ++ match right n with Some r => indices r | None => [] end.

Definition tree_indices (t : BTree) : list Z :=
  match root t with
  | Some r => indices r
  | None => []
  end.


(** ** The error kinds of the specification, as the code raises them *)

(** Raised by [_create_node] for a second root. *)
Definition InvalidState : exn := ValueError "Root already exists".

(** Raised by [_create_node] for a branch value that is neither 0 nor 1. *)
Definition InvalidArgument : exn :=
  ValueError "Branch value must be 0 or 1 for non-root nodes".

(** Raised by [_find_node] when no node carries the index. *)
Definition NodeNotFound (node_idx : Z) : exn :=
  ValueError ("Node with index " ++ str_of_int node_idx ++ " not found").

(** Raised by [traverse] when the child to follow is absent. *)
Definition MissingBranch (e : exn) : Prop := e = MissingLeft \/ e = MissingRight.

(** ** Classification as a walk through the tree *)

(** [route sample n m]: the walk that starts at [n] and at every inner
    node follows the sample's value for the node's attribute ([left] for
    0, [right] otherwise) comes to [m]. *)
Inductive route (sample : Sample) : Node -> Node -> Prop :=
| route_here (n : Node) : route sample n n
| route_left (n l m : Node) (a : string) :
    is_leaf n = false -> value n = Some a -> sample a = Some 0 ->
    left n = Some l -> route sample l m -> route sample n m
| route_right (n r m : Node) (a : string) (v : Z) :
    is_leaf n = false -> value n = Some a -> sample a = Some v -> v <> 0 ->
    right n = Some r -> route sample r m -> route sample n m.

(** [halt sample m r]: the walk cannot go on from [m], and [r] is how
    it ends there. *)
Inductive halt (sample : Sample) (m : Node) : result Z -> Prop :=
| halt_unlabelled :
    is_leaf m = true -> value m = None -> halt sample m (Raise InvalidLeaf)
| halt_label (label : string) :
    is_leaf m = true -> value m = Some label -> halt sample m (py_int label)
| halt_no_attribute :
    is_leaf m = false ->
    match value m with Some a => sample a = None | None => True end ->
    halt sample m (Raise (KeyError (value m)))
| halt_no_left (a : string) :
    is_leaf m = false -> value m = Some a -> sample a = Some 0 ->
    left m = None -> halt sample m (Raise MissingLeft)
| halt_no_right (a : string) (v : Z) :
    is_leaf m = false -> value m = Some a -> sample a = Some v -> v <> 0 ->
    right m = None -> halt sample m (Raise MissingRight).

(** The error kinds that the specification names. *)
Definition named_errors : list exn :=
  [InvalidState; InvalidArgument; ID3.EmptyTree; MissingLeft; MissingRight; InvalidLeaf].

(** ** Small trees and samples for the examples *)

Definition leaf_node (label : string) (i z o : Z) : Node :=
  mkNode (Some label) i z o None None.

Definition inner_node (a : string) (i z o : Z) (l r : Node) : Node :=
  mkNode (Some a) i z o (Some l) (Some r).

(** A split on ["A"] with a 0-leaf to the left and a 1-leaf to the right. *)
Definition stump : Node :=
  inner_node "A" 0 1 1 (leaf_node "0" 1 1 0) (leaf_node "1" 2 0 1).

(** The stump as a tree object. *)
Definition stump_tree : BTree := mkBTree (Some stump) 2.

(** The sample that maps each listed attribute to its value. *)
Fixpoint sample_of (cells : list (string * Z)) : Sample :=
  fun a =>
    match cells with
    | [] => None
    | (c, v) :: rest => if String.eqb a c then Some v else sample_of rest a
    end.

(** ** Selection of the attribute to split on *)

(** [selects_first_max gain attributes chosen]: [chosen] is a candidate
    whose gain no candidate's gain exceeds (and, among gains that are
    numbers, is at least every gain), and no candidate before it in the
    list has an equal gain. *)
Definition selects_first_max (gain : string -> result float)
    (attributes : list string) (chosen : result string) : Prop :=
  exists (i : nat) (a : string) (g : float),
    nth_error attributes i = Some a /\ chosen = Ok a /\ gain a = Ok g /\
    (forall b h, In b attributes -> gain b = Ok h ->
       gt h g = false /\ (number g -> number h -> ge g h = true)) /\
    (forall j b h, (j < i)%nat -> nth_error attributes j = Some b ->
       gain b = Ok h -> eq h g = false).

(** The training set of the specification's example: attributes [A], [B]
    and the target [Class] = [A or B]. *)
Definition row_of (a b c : Z) : Row :=
  fun column =>
    if String.eqb column "A" then a
    else if String.eqb column "B" then b
    else if String.eqb column "Class" then c
    else 0.

Definition example_rows : list Row :=
  [row_of 0 0 0; row_of 0 1 1; row_of 1 0 1; row_of 1 1 1].

Definition example_frame : DataFrame :=
  mkFrame ["A"; "B"; "Class"]%string example_rows.

(** Two frames with the same columns whose rows are the same up to
    their order. *)
Definition reordered (d d' : DataFrame) : Prop :=
  columns d' = columns d /\ Permutation (rows d) (rows d').

(** ** The builder *)

(** The type of [_build_tree] once its recursion depth is fixed. *)
Definition recursion : Type :=
  DataFrame -> list string -> BTree -> option Z -> option Z ->
  option (result BTree).

(** The indices below the [b]-child of [n]. *)
Definition child_indices (b : bool) (n : Node) : list Z :=
  match child b n with
  | Some c => indices c
  | None => []
  end.

(** [all_nodes P n]: [P] holds of [n] and of every node below it. *)
Fixpoint all_nodes (P : Node -> Prop) (n : Node) : Prop :=
  P n
  /\ match left n with Some l => all_nodes P l | None => True end
  /\ match right n with Some r => all_nodes P r | None => True end.

(** A node that is not a leaf has both children. *)
Definition two_children (n : Node) : Prop :=
  is_leaf n = false -> left n <> None /\ right n <> None.

(** A leaf has a label. *)
Definition labelled_leaf (n : Node) : Prop :=
  is_leaf n = true -> value n <> None.

(** What the builder makes of a node: a leaf labelled ["0"] or ["1"], or
    a split on one of the attributes with both children. *)
Definition grown (attributes : list string) (n : Node) : Prop :=
  if is_leaf n then value n = Some "0"%string \/ value n = Some "1"%string
  else (exists a, value n = Some a /\ In a attributes)
       /\ left n <> None /\ right n <> None.

(** The branch value of a child slot. *)
Definition branch_of (b : bool) : Z := if b then 1 else 0.


(** The attribute columns: all but the target. *)
Definition attributes_of (d : DataFrame) : list string :=
  filter (fun c => negb (String.eqb c TARGET_COLUMN)) (columns d).

(** [slot t parent_idx branch_value plug here first]: what creating a
    node at [(parent_idx, branch_value)] in the tree object [t] does.  The
    new node gets the index [first], which is also the new counter; the
    root becomes [plug n] for the new node [n], which is then found at the
    reference [here]; indices from [first] on are new to the tree. *)
Record slot (t : BTree) (parent_idx branch_value : option Z)
    (plug : Node -> Node) (here : ref) (first : Z) : Prop := mkSlot {
  slot_create : forall label z o,
    ID3._create_node t parent_idx branch_value label z o
    = Ok (first, mkBTree (Some (plug (mkNode (Some label) first z o None None))) first);
  slot_update : forall n g, update (plug n) here g = plug (g n);
  slot_deref : forall n, deref (plug n) here = Some n;
  slot_nodup : forall n,
    NoDup (indices n) -> (forall x, In x (indices n) -> first <= x) ->
    NoDup (indices (plug n));
  slot_bound : forall n c,
    first <= c -> (forall x, In x (indices n) -> x <= c) ->
    forall x, In x (indices (plug n)) -> x <= c
}.

(** [built attributes first last sub]: a subtree as the builder leaves
    it, with distinct indices from [first], the index of its top node, up
    to [last]. *)
Definition built (attributes : list string) (first last : Z) (sub : Node) : Prop :=
  idx sub = first /\ NoDup (indices sub) /\
  (forall x, In x (indices sub) -> first <= x <= last) /\
  all_nodes (grown attributes) sub.

(** [builds recur attributes]: on every frame that has the target and the
    attributes as columns, and in every slot, the call [recur] puts a
    built subtree into the slot. *)
Definition builds (recur : recursion) (attributes : list string) : Prop :=
  forall d t p b plug here first,
    has_column d TARGET_COLUMN = true ->
    (forall a, In a attributes -> has_column d a = true) ->
    slot t p b plug here first ->
    exists sub last,
      recur d attributes t p b = Some (Ok (mkBTree (Some (plug sub)) last)) /\
      built attributes first last sub.

(** [strict_classifier d outcome]: the construction ended with a tree
    that has a root; every node that is not a leaf has both children, no
    two nodes share an index, every leaf has a label, and every sample
    that gives a value to each attribute column of [d] is classified. *)
Definition strict_classifier (d : DataFrame) (outcome : option (result BTree)) : Prop :=
  exists (t : BTree) (rt : Node),
    outcome = Some (Ok t) /\ root t = Some rt /\
    all_nodes two_children rt /\
    NoDup (indices rt) /\
    all_nodes labelled_leaf rt /\
    forall sample : Sample,
      (forall a, In a (attributes_of d) -> exists v, sample a = Some v) ->
      succeeds (traverse rt sample).

(** ** Pruning *)

(** The tree object at an address. *)
Definition tree_at (w : Pruning.world) (l : Pruning.loc) : option BTree :=
  nth_error (Pruning.heap w) l.

(** [untouched w w']: every object of [w] is the same in [w']. *)
Definition untouched (w w' : Pruning.world) : Prop :=
  forall l t, tree_at w l = Some t -> tree_at w' l = Some t.

(** [classifies d rt]: [traverse] from [rt] succeeds on every row of [d],
    read without the target column. *)
Definition classifies (d : DataFrame) (rt : Node) : Prop :=
  forall predictors r,
    drop_column d TARGET_COLUMN = Ok predictors -> In r (rows d) ->
    succeeds (traverse rt (series predictors r)).

(** A store with one tree, the stump, and a tape of draws. *)
Definition example_world : Pruning.world :=
  Pruning.mkWorld [stump_tree] [0; 1; 5; 0; 3]%nat.

(** 75.0, the accuracy of the stump on the example rows. *)
Definition seventy_five : float := mul (SFdiv prec emax (exact 3) (exact 4)) (of_int 100).

(** The tree that the builder grows from the example rows. *)
Definition example_tree : BTree :=
  mkBTree
    (Some (inner_node "A" 0 1 3
             (inner_node "B" 1 1 1 (leaf_node "0" 2 1 0) (leaf_node "1" 3 0 1))
             (leaf_node "1" 4 0 2)))
    4.

(** 0.1875 = 3/4 * 1/4, the variance impurity of the example rows. *)
Definition three_sixteenths : float := S754_finite false 6755399441055744 (-55).

(* ===================================================================== *)
(** * Vocabulary of the further properties *)
(* ===================================================================== *)

(** The number of nodes under [n], [n] included. *)
Fixpoint size (n : Node) : nat :=
  S (match left n with Some l => size l | None => 0 end
     + match right n with Some r => size r | None => 0 end).

(** [well_indexed t]: no two nodes of [t] share an index, and no index
    is above the counter. *)
Definition well_indexed (t : BTree) : Prop :=
  NoDup (tree_indices t) /\ forall x, In x (tree_indices t) -> x <= _counter t.

(** [node_at t p m]: the reference [p] leads from the root of [t] to the
    node [m]. *)
Definition node_at (t : BTree) (p : ref) (m : Node) : Prop :=
  exists rt, root t = Some rt /\ deref rt p = Some m.

(** Some binary64 values. *)
Definition one : float := S754_finite false 4503599627370496 (-52).
Definition one_half : float := S754_finite false 4503599627370496 (-53).
Definition one_quarter : float := S754_finite false 4503599627370496 (-54).
Definition minus_one : float := S754_finite true 4503599627370496 (-52).
Definition hundred : float := of_int 100.

(** ** The builder, read as a function of the data *)

(** The subtree that [_build_tree] attaches, computed without a tree
    object: [first] is the index of its top node, and the result comes
    with the last index used.  [None] stands for an exception or for the
    depth bound. *)
Definition grow_side (recur : DataFrame -> list string -> Z -> option (Node * Z))
    (d : DataFrame) (best : string) (rest : list string) (zeroes ones : Z)
    (v : Z) (start : Z) : option (Node * Z) :=
  match where_eq d best v with
  | Raise _ => None
  | Ok subset =>
      if empty subset
      then Some (leaf_node (ID3.majority zeroes ones) start zeroes ones, start)
      else recur subset rest start
  end.

Definition grow_body (impurity : Z -> Z -> result float)
    (recur : DataFrame -> list string -> Z -> option (Node * Z))
    (d : DataFrame) (attributes : list string) (first : Z) : option (Node * Z) :=
  match ID3.class_count d 1, ID3.class_count d 0 with
  | Ok ones, Ok zeroes =>
      if ones =? 0 then Some (leaf_node "0" first zeroes ones, first)
      else if zeroes =? 0 then Some (leaf_node "1" first zeroes ones, first)
      else
        match attributes with
        | [] => Some (leaf_node (ID3.majority zeroes ones) first zeroes ones, first)
        | _ :: _ =>
            match (total <- impurity ones zeroes ;;
                   ID3._gain impurity total d attributes) with
            | Raise _ => None
            | Ok best =>
                let rest := ID3.remaining attributes best in
                match grow_side recur d best rest zeroes ones 0 (first + 1) with
                | None => None
                | Some (l, last0) =>
                    match grow_side recur d best rest zeroes ones 1 (last0 + 1) with
                    | None => None
                    | Some (r, last1) =>
                        Some (mkNode (Some best) first zeroes ones (Some l) (Some r),
                              last1)
                    end
                end
            end
        end
  | _, _ => None
  end.

Fixpoint grow (impurity : Z -> Z -> result float) (fuel : nat)
    (d : DataFrame) (attributes : list string) (first : Z) : option (Node * Z) :=
  match fuel with
  | O => None
  | S fuel' => grow_body impurity (grow impurity fuel') d attributes first
  end.

(** [count_up first n]: the [n] integers from [first] on. *)
Fixpoint count_up (first : Z) (n : nat) : list Z :=
  match n with
  | O => []
  | S n' => first :: count_up (first + 1) n'
  end.

(** The number of splits on the longest way from [n] down to a leaf. *)
Fixpoint height (n : Node) : nat :=
  if is_leaf n then O
  else S (Nat.max (match left n with Some l => height l | None => O end)
                  (match right n with Some r => height r | None => O end)).


(** [numbered first last sub]: the nodes of [sub] carry, in the order of
    [indices], the consecutive integers from [first] to [last]. *)
Definition numbered (first last : Z) (sub : Node) : Prop :=
  idx sub = first /\
  indices sub = count_up first (size sub) /\
  last = first + Z.of_nat (size sub) - 1.

(** The type of [grow] once its depth is fixed. *)
Definition growth : Type := DataFrame -> list string -> Z -> option (Node * Z).

(** [refines recur pure]: wherever [pure] gives a subtree, the call
    [recur] puts that subtree into the slot. *)
Definition refines (recur : recursion) (pure : growth) : Prop :=
  forall d attributes t p b plug here first sub last,
    slot t p b plug here first ->
    pure d attributes first = Some (sub, last) ->
    recur d attributes t p b = Some (Ok (mkBTree (Some (plug sub)) last)).

Definition numbers (pure : growth) : Prop :=
  forall d attributes first sub last,
    pure d attributes first = Some (sub, last) -> numbered first last sub.

(** [constructed outcome P]: the construction ended with a tree whose
    root and counter satisfy [P]. *)
Definition constructed (outcome : option (result BTree))
    (P : Node -> Z -> Prop) : Prop :=
  exists rt last, outcome = Some (Ok (mkBTree (Some rt) last)) /\ P rt last.

(** ** Accuracy *)

(** The rows of the dataset as [calculate_accuracy] hands them to
    [traverse]: without the target column. *)
Definition predictors_of (d : DataFrame) : DataFrame :=
  mkFrame (attributes_of d) (rows d).

(** [hit rt d r]: the prediction for the row [r] is its target. *)
Definition hit (rt : Node) (d : DataFrame) (r : Row) : bool :=
  match traverse rt (series (predictors_of d) r) with
  | Ok v => v =? r TARGET_COLUMN
  | Raise _ => false
  end.

(** The number of rows of [d] that the tree classifies as their target. *)
Definition hits (rt : Node) (d : DataFrame) : Z :=
  Z.of_nat (List.length (filter (hit rt d) (rows d))).

(** A value that is zero, positive or plus infinity. *)
Definition not_negative (x : float) : Prop :=
  match x with
  | S754_zero false | S754_finite false _ _ | S754_infinity false => True
  | _ => False
  end.


(** ** Pruned trees *)

(** [pruned_from base n]: [n] is [base] after zero or more collapses,
    each of a node that had a child. *)
Inductive pruned_from (base : Node) : Node -> Prop :=
| pruned_none : pruned_from base base
| pruned_step (n : Node) (p : ref) (m : Node) :
    pruned_from base n -> deref n p = Some m -> is_leaf m = false ->
    pruned_from base (update n p Pruning.collapse).

(** The same for tree objects: the counter is kept, and a tree without a
    root stays as it is. *)
Definition pruning_of (base t : BTree) : Prop :=
  _counter t = _counter base /\
  match root base, root t with
  | Some b, Some n => pruned_from b n
  | None, None => True
  | _, _ => False
  end.

(** [scorable training d]: [d] has the target column, at least one row,
    and every attribute column of [training]. *)
Definition scorable (training d : DataFrame) : Prop :=
  has_column d TARGET_COLUMN = true /\ rows d <> [] /\
  forall a, In a (attributes_of training) -> has_column d a = true.

(** A store with the tree of the example rows. *)
Definition example_store : Pruning.world :=
  Pruning.mkWorld [example_tree] [1; 0; 2; 1; 0; 0; 3]%nat.

(** [good_run construct training validation test w outcome]: the run
    returned; its two trees are two objects of the store, the one that
    [construct] built and that tree with nodes collapsed; its two
    accuracies are those of the two trees on the test set; on the
    validation set the second tree is at least as accurate as the first;
    and the objects of the store before the run are as they were. *)
Definition good_run (construct : DataFrame -> option (result BTree))
    (training validation test : DataFrame) (w : Pruning.world)
    (outcome : option (result Run.RunResult * Pruning.world)) : Prop :=
  exists base res w' pruned,
    construct training = Some (Ok base) /\
    outcome = Some (Ok res, w') /\
    tree_at w (Run.tree res) = None /\
    tree_at w (Run.pruned_tree res) = None /\
    Run.pruned_tree res <> Run.tree res /\
    tree_at w' (Run.tree res) = Some base /\
    tree_at w' (Run.pruned_tree res) = Some pruned /\
    pruning_of base pruned /\
    ID3.calculate_accuracy test base = Ok (Run.accuracy_before_pruning res) /\
    ID3.calculate_accuracy test pruned = Ok (Run.accuracy_after_pruning res) /\
    (exists before after,
       ID3.calculate_accuracy validation base = Ok before /\
       ID3.calculate_accuracy validation pruned = Ok after /\
       ge after before = true) /\
    untouched w w'.

(* ===================================================================== *)
(** * Properties *)
(* ===================================================================== *)

(** ** The order of binary64 values *)

Ltac cmp_cases :=
  repeat match goal with
    | |- context [Z.compare ?a ?b] => destruct (Z.compare_spec a b)
    | |- context [Pos.compare_cont Eq ?a ?b] =>
        change (Pos.compare_cont Eq a b) with (Pos.compare a b);
        destruct (Pos.compare_spec a b)
    end.

Lemma compare_rank (x y : float) :
  number x -> number y ->
  match SFcompare x y with
  | Some Lt => lex_lt (rank x) (rank y)
  | Some Eq => rank x = rank y
  | Some Gt => lex_lt (rank y) (rank x)
  | None => False
  end.
Proof.
  unfold number.
  destruct x as [[|]|[|]| |[|] m1 e1], y as [[|]|[|]| |[|] m2 e2];
    simpl; intros Hx Hy; try discriminate; try reflexivity; try lia;
    cmp_cases; simpl; subst; try reflexivity; try lia.
Qed.

Lemma compare_nan (x y : float) :
  is_nan x = true \/ is_nan y = true -> SFcompare x y = None.
Proof.
  destruct x as [?|?| |? ? ?], y as [?|?| |? ? ?]; simpl;
    intros [H|H]; try discriminate; reflexivity.
Qed.

Lemma nan_or_number (x : float) : {is_nan x = true} + {number x}.
Proof. unfold number. destruct (is_nan x); [left|right]; reflexivity. Qed.

Lemma lex_lt_irrefl a : ~ lex_lt a a.
Proof. destruct a as [[a1 a2] a3]. simpl. lia. Qed.

Lemma lex_lt_trans a b c : lex_lt a b -> lex_lt b c -> lex_lt a c.
Proof.
  destruct a as [[a1 a2] a3], b as [[b1 b2] b3], c as [[c1 c2] c3].
  simpl. lia.
Qed.

Lemma lex_lt_asym a b : lex_lt a b -> ~ lex_lt b a.
Proof. intros H H'. exact (lex_lt_irrefl a (lex_lt_trans _ _ _ H H')). Qed.

Lemma gt_spec (x y : float) :
  gt x y = true <-> number x /\ number y /\ lex_lt (rank y) (rank x).
Proof.
  unfold gt, SFltb.
  destruct (nan_or_number x) as [Hx|Hx].
  { rewrite (compare_nan y x) by auto. unfold number. rewrite Hx.
    split; [discriminate | intros [? _]; discriminate]. }
  destruct (nan_or_number y) as [Hy|Hy].
  { rewrite (compare_nan y x) by auto. unfold number. rewrite Hy.
    split; [discriminate | intros (_ & ? & _); discriminate]. }
  pose proof (compare_rank y x Hy Hx) as H.
  destruct (SFcompare y x) as [[| |]|]; try contradiction.
  - split; [discriminate|]. intros (_ & _ & L). rewrite H in L.
    destruct (lex_lt_irrefl _ L).
  - tauto.
  - split; [discriminate|]. intros (_ & _ & L).
    destruct (lex_lt_asym _ _ H L).
Qed.

Lemma eq_spec (x y : float) :
  eq x y = true <-> number x /\ number y /\ rank x = rank y.
Proof.
  unfold eq, SFeqb.
  destruct (nan_or_number x) as [Hx|Hx].
  { rewrite (compare_nan x y) by auto. unfold number. rewrite Hx.
    split; [discriminate | intros [? _]; discriminate]. }
  destruct (nan_or_number y) as [Hy|Hy].
  { rewrite (compare_nan x y) by auto. unfold number. rewrite Hy.
    split; [discriminate | intros (_ & ? & _); discriminate]. }
  pose proof (compare_rank x y Hx Hy) as H.
  destruct (SFcompare x y) as [[| |]|]; try contradiction.
  - tauto.
  - split; [discriminate|]. intros (_ & _ & E). rewrite E in H.
    destruct (lex_lt_irrefl _ H).
  - split; [discriminate|]. intros (_ & _ & E). rewrite E in H.
    destruct (lex_lt_irrefl _ H).
Qed.

Lemma ge_spec (x y : float) :
  ge x y = true <->
  number x /\ number y /\ (lex_lt (rank y) (rank x) \/ rank y = rank x).
Proof.
  unfold ge, SFleb.
  destruct (nan_or_number x) as [Hx|Hx].
  { rewrite (compare_nan y x) by auto. unfold number. rewrite Hx.
    split; [discriminate | intros [? _]; discriminate]. }
  destruct (nan_or_number y) as [Hy|Hy].
  { rewrite (compare_nan y x) by auto. unfold number. rewrite Hy.
    split; [discriminate | intros (_ & ? & _); discriminate]. }
  pose proof (compare_rank y x Hy Hx) as H.
  destruct (SFcompare y x) as [[| |]|]; try contradiction.
  - tauto.
  - tauto.
  - split; [discriminate|]. intros (_ & _ & [L|E]).
    + destruct (lex_lt_asym _ _ H L).
    + rewrite E in H. destruct (lex_lt_irrefl _ H).
Qed.

Lemma gt_irrefl x : gt x x = false.
Proof.
  destruct (gt x x) eqn:E; [|reflexivity].
  apply gt_spec in E. destruct E as (_ & _ & L).
  destruct (lex_lt_irrefl _ L).
Qed.

Lemma gt_trans x y z : gt x y = true -> gt y z = true -> gt x z = true.
Proof.
  rewrite !gt_spec. intros (Hx & Hy & L1) (_ & Hz & L2).
  repeat split; auto. eapply lex_lt_trans; eauto.
Qed.

Lemma eq_sym x y : eq x y = true -> eq y x = true.
Proof. rewrite !eq_spec. intros (? & ? & ?). auto. Qed.

Lemma eq_trans x y z : eq x y = true -> eq y z = true -> eq x z = true.
Proof.
  rewrite !eq_spec. intros (? & ? & E1) (? & ? & E2).
  repeat split; auto. congruence.
Qed.

(** Equal values are greater than the same values. *)
Lemma gt_eq_r x y z : eq y z = true -> gt x y = true -> gt x z = true.
Proof.
  rewrite eq_spec, !gt_spec. intros (? & ? & E) (? & ? & L).
  repeat split; auto. rewrite <- E. exact L.
Qed.

Lemma ge_refl x : number x -> ge x x = true.
Proof. intros H. apply ge_spec. auto. Qed.

Lemma gt_ge_trans x y z : gt x y = true -> ge y z = true -> ge x z = true.
Proof.
  rewrite gt_spec, !ge_spec. intros (Hx & Hy & L1) (_ & Hz & [L2|E]).
  - repeat split; auto. left. eapply lex_lt_trans; eauto.
  - repeat split; auto. left. rewrite E. exact L1.
Qed.

Lemma lex_total a b : lex_lt a b \/ a = b \/ lex_lt b a.
Proof.
  destruct a as [[a1 a2] a3], b as [[b1 b2] b3]. simpl.
  destruct (Z.lt_total a1 b1) as [?|[?|?]];
    destruct (Z.lt_total a2 b2) as [?|[?|?]];
    destruct (Z.lt_total a3 b3) as [?|[?|?]]; subst; auto; lia.
Qed.

(** Among numbers, what is not greater is at most equal. *)
Lemma not_gt_ge x y : number x -> number y -> gt x y = false -> ge y x = true.
Proof.
  intros Hx Hy H. apply ge_spec. repeat split; auto.
  destruct (lex_total (rank x) (rank y)) as [L|[E|L]]; auto.
  assert (gt x y = true) by (apply gt_spec; auto). congruence.
Qed.

(** *** Rounding never produces a NaN *)

Lemma shr_1_nonneg mrs : 0 <= shr_m mrs -> 0 <= shr_m (shr_1 mrs).
Proof.
  destruct mrs as [m r s]. simpl.
  destruct m as [|[p|p|]|[p|p|]]; simpl; lia.
Qed.

Lemma iter_shr_1_nonneg p mrs :
  0 <= shr_m mrs -> 0 <= shr_m (iter_pos shr_1 p mrs).
Proof.
  revert mrs. induction p as [p IH|p IH|]; simpl; intros mrs H.
  - apply IH, IH, shr_1_nonneg, H.
  - apply IH, IH, H.
  - apply shr_1_nonneg, H.
Qed.

Lemma shr_fexp_nonneg m e l :
  0 <= m -> 0 <= shr_m (fst (shr_fexp prec emax m e l)).
Proof.
  intros H. unfold shr_fexp, shr.
  assert (H0 : 0 <= shr_m (shr_record_of_loc m l))
    by (destruct l as [|[| |]]; simpl; exact H).
  destruct (fexp prec emax (Zdigits2 m + e) - e); simpl; auto.
  apply iter_shr_1_nonneg, H0.
Qed.

Lemma round_nearest_even_nonneg m l : 0 <= m -> 0 <= round_nearest_even m l.
Proof.
  intros H. destruct l as [|[| |]]; simpl; try lia.
  destruct (Z.even m); lia.
Qed.

Lemma binary_round_aux_number s m e l :
  0 <= m -> number (binary_round_aux prec emax s m e l).
Proof.
  intros H. unfold binary_round_aux.
  pose proof (shr_fexp_nonneg m e l H) as H1.
  destruct (shr_fexp prec emax m e l) as [mrs' e']. simpl in H1.
  pose proof (shr_fexp_nonneg _ e' loc_Exact
                (round_nearest_even_nonneg _ (loc_of_shr_record mrs') H1)) as H2.
  destruct (shr_fexp prec emax _ e' loc_Exact) as [mrs'' e'']. simpl in H2.
  destruct (shr_m mrs'') as [|p|p]; try reflexivity.
  - destruct (e'' <=? emax - prec); reflexivity.
  - lia.
Qed.

Lemma div_core_nonneg m1 m2 :
  0 <= fst (fst (SFdiv_core_binary prec emax (Zpos m1) 0 (Zpos m2) 0)).
Proof.
  unfold SFdiv_core_binary.
  set (e' := Z.min _ _). set (s := 0 - 0 - e').
  assert (Hm : 0 <= match s with
                    | 0 => Zpos m1 | Zpos _ => Z.shiftl (Zpos m1) s | Zneg _ => 0
                    end).
  { destruct s; try lia. apply Z.shiftl_nonneg. lia. }
  destruct (Z.div_eucl _ (Zpos m2)) as [q r] eqn:E. simpl.
  pose proof (Z.div_eucl_eq
                (match s with
                 | 0 => Zpos m1 | Zpos _ => Z.shiftl (Zpos m1) s | Zneg _ => 0
                 end) (Zpos m2) ltac:(lia)) as Hd.
  rewrite E in Hd.
  assert (Hr : 0 <= r < Zpos m2).
  { pose proof (Z.mod_pos_bound
                  (match s with
                   | 0 => Zpos m1 | Zpos _ => Z.shiftl (Zpos m1) s | Zneg _ => 0
                   end) (Zpos m2) ltac:(lia)) as B.
    unfold Z.modulo in B. rewrite E in B. exact B. }
  nia.
Qed.

(** A quotient of a natural number by a positive one is a number. *)
Lemma int_truediv_number a b q :
  0 <= a -> 0 < b -> int_truediv a b = Ok q -> number q.
Proof.
  intros Ha Hb. unfold int_truediv.
  destruct (b =? 0) eqn:E; [discriminate|]. intros [= <-].
  destruct b as [|pb|pb]; try lia.
  destruct a as [|pa|pa]; try lia; simpl; [reflexivity|].
  pose proof (div_core_nonneg pa pb) as H.
  destruct (SFdiv_core_binary prec emax (Zpos pa) 0 (Zpos pb) 0) as [[mz ez] lz].
  simpl in H. apply binary_round_aux_number, H.
Qed.

Lemma mul_100_number q : number q -> number (mul q (of_int 100)).
Proof.
  intros H.
  change (of_int 100) with (S754_finite false 7036874417766400 (-46)).
  destruct q as [s|s| |s m e]; try reflexivity; try discriminate.
  unfold mul, SFmul. apply binary_round_aux_number. lia.
Qed.


(* ===================================================================== *)
(** ** Trees: indices and lookup by index *)
(* ===================================================================== *)

Lemma indices_eq n :
  indices n =
  idx n
    :: match left n with Some l => indices l | None => [] end
    ++ match right n with Some r => indices r | None => [] end.
Proof. destruct n; reflexivity. Qed.

Lemma find_from_eq n i :
  find_from n i =
  if idx n =? i then Some []
  else
    match
      match left n with
      | Some l => find_from l i
      | None => None
      end
    with
    | Some p => Some (false :: p)
    | None =>
        match right n with
        | Some r => option_map (cons true) (find_from r i)
        | None => None
        end
    end.
Proof. destruct n; reflexivity. Qed.

Lemma find_from_none n i : find_from n i = None <-> ~ In i (indices n).
Proof.
  induction n as [n IHl IHr] using Node_induction.
  rewrite find_from_eq, indices_eq. simpl.
  destruct (Z.eqb_spec (idx n) i) as [E|E].
  { split; [discriminate | intros H; destruct H; auto]. }
  rewrite in_app_iff.
  destruct (left n) as [l|]; simpl in IHl;
    destruct (right n) as [r|]; simpl in IHr;
    try destruct (find_from l i) eqn:El;
    try destruct (find_from r i) eqn:Er; simpl;
    split; try discriminate; try tauto; intros H; try reflexivity;
    exfalso; apply H; right;
    try (left; apply Decidable.not_not; [|intro N; apply IHl in N; discriminate];
         unfold Decidable.decidable; destruct (in_dec Z.eq_dec i (indices l)); tauto);
    try (right; apply Decidable.not_not; [|intro N; apply IHr in N; discriminate];
         unfold Decidable.decidable; destruct (in_dec Z.eq_dec i (indices r)); tauto).
Qed.

Lemma find_node_recursive_none t i :
  _find_node_recursive (root t) i = None <-> ~ In i (tree_indices t).
Proof.
  unfold _find_node_recursive, tree_indices.
  destruct (root t) as [r|]; [apply find_from_none|].
  simpl. tauto.
Qed.

(** The reference that [_find_node] returns leads to a node that
    carries the index. *)
Lemma find_from_deref n i p :
  find_from n i = Some p -> exists m, deref n p = Some m /\ idx m = i.
Proof.
  revert p. induction n as [n IHl IHr] using Node_induction. intros p.
  rewrite find_from_eq.
  destruct (Z.eqb_spec (idx n) i) as [E|E].
  { intros [= <-]. exists n. split; [reflexivity | exact E]. }
  destruct (left n) as [l|] eqn:Hl; simpl in IHl.
  - destruct (find_from l i) as [q|] eqn:El.
    + intros [= <-]. destruct (IHl q eq_refl) as (m & D & I).
      exists m. simpl. unfold child. rewrite Hl. split; assumption.
    + destruct (right n) as [r|] eqn:Hr; simpl in IHr; [|discriminate].
      destruct (find_from r i) as [q|] eqn:Er; [|discriminate].
      intros [= <-]. destruct (IHr q eq_refl) as (m & D & I).
      exists m. simpl. unfold child. rewrite Hr. split; assumption.
  - destruct (right n) as [r|] eqn:Hr; simpl in IHr; [|discriminate].
    destruct (find_from r i) as [q|] eqn:Er; [|discriminate].
    intros [= <-]. destruct (IHr q eq_refl) as (m & D & I).
    exists m. simpl. unfold child. rewrite Hr. split; assumption.
Qed.


(* ===================================================================== *)
(** ** Impurity of a pure class distribution *)
(* ===================================================================== *)

(** C6. For non-negative class counts [p], [n] of which one is 0 (both
    may be), the entropy and the variance impurity are [0.0], whatever
    the logarithm. *)
Theorem impurity_of_pure_counts_is_zero
    (math_log : float -> float -> float) (p n : Z) :
  0 <= p -> 0 <= n -> p = 0 \/ n = 0 ->
  Entropy.entropy math_log p n = Ok zero /\
  Variance.variance_impurity p n = Ok zero.
Proof.
  intros Hp Hn H0.
  unfold Entropy.entropy, Variance.variance_impurity, int_truediv.
  destruct (Z.eqb_spec (p + n) 0) as [E|E]; [split; reflexivity|].
  assert (Hz : (p =? 0) || (n =? 0) = true).
  { destruct H0 as [-> | ->]; [reflexivity | apply orb_true_r]. }
  rewrite Hz. split; reflexivity.
Qed.

Lemma impurity_of_pure_counts_is_zero_witness :
  Entropy.entropy (fun x _ => x) 0 5 = Ok zero /\
  Variance.variance_impurity 0 5 = Ok zero.
Proof.
  apply (impurity_of_pure_counts_is_zero (fun x _ => x) 0 5);
    [lia | lia | left; reflexivity].
Defined.

(* ===================================================================== *)
(** ** Node creation *)
(* ===================================================================== *)

Lemma find_node_outcome t i :
  (In i (tree_indices t) -> succeeds (_find_node t i)) /\
  (~ In i (tree_indices t) -> _find_node t i = Raise (NodeNotFound i)).
Proof.
  unfold _find_node, NodeNotFound. split; intros H.
  - destruct (_find_node_recursive (root t) i) as [p|] eqn:E.
    + exists p. reflexivity.
    + apply find_node_recursive_none in E. contradiction.
  - apply find_node_recursive_none in H. rewrite H. reflexivity.
Qed.

Lemma add_child_outcome b t i v z o :
  (In i (tree_indices t) -> succeeds (add_child b t i v z o)) /\
  (~ In i (tree_indices t) -> add_child b t i v z o = Raise (NodeNotFound i)).
Proof.
  unfold add_child. destruct (find_node_outcome t i) as [Hin Hout]. split; intros H.
  - destruct (Hin H) as [p ->]. simpl. eexists. reflexivity.
  - rewrite (Hout H). reflexivity.
Qed.

Lemma create_node_cases (t : BTree) (parent_idx branch_value : option Z)
    (v : string) (z o : Z) :
  let r := ID3._create_node t parent_idx branch_value v z o in
  let branch_ok := branch_value = Some 0 \/ branch_value = Some 1 in
  (parent_idx = None /\ root t <> None -> r = Raise InvalidState) /\
  (parent_idx <> None /\ ~ branch_ok -> r = Raise InvalidArgument) /\
  (forall p, parent_idx = Some p /\ branch_ok /\ ~ In p (tree_indices t) ->
             r = Raise (NodeNotFound p)) /\
  (succeeds r <->
     (parent_idx = None /\ root t = None) \/
     (exists p, parent_idx = Some p /\ branch_ok /\ In p (tree_indices t))).
Proof.
  intros r branch_ok. subst r branch_ok.
  unfold ID3._create_node, get_root, add_left_child, add_right_child.
  destruct parent_idx as [p|].
  - (* a child *)
    assert (Hcase : branch_value = Some 0 \/ branch_value = Some 1 \/
                    (branch_value <> Some 0 /\ branch_value <> Some 1)).
    { destruct branch_value as [[|[q|q|]|q]|]; auto; right; right; split; discriminate. }
    split; [intros [[=] _]|].
    split.
    { intros [_ Hbad].
      destruct branch_value as [[|[q|q|]|q]|]; try reflexivity;
        exfalso; apply Hbad; auto. }
    split.
    { intros q ([= <-] & Hok & Hnot).
      destruct Hok as [-> | ->]; apply add_child_outcome, Hnot. }
    split.
    + intros Hs. right. exists p. split; [reflexivity|].
      destruct Hcase as [-> | [-> | [H0 H1]]].
      * split; [auto|].
        destruct (in_dec Z.eq_dec p (tree_indices t)) as [Hin|Hout]; [exact Hin|].
        apply (proj2 (add_child_outcome false t p (Some v) z o)) in Hout.
        destruct Hs as [a Ha]. rewrite Ha in Hout. discriminate.
      * split; [auto|].
        destruct (in_dec Z.eq_dec p (tree_indices t)) as [Hin|Hout]; [exact Hin|].
        apply (proj2 (add_child_outcome true t p (Some v) z o)) in Hout.
        destruct Hs as [a Ha]. rewrite Ha in Hout. discriminate.
      * destruct Hs as [a Ha].
        destruct branch_value as [[|[q|q|]|q]|]; try discriminate;
          congruence.
    + intros [[[=] _] | (q & [= <-] & Hok & Hin)].
      destruct Hok as [-> | ->]; apply add_child_outcome, Hin.
  - (* the root *)
    unfold add_root.
    split.
    { intros [_ Hr]. destruct (root t); [reflexivity | congruence]. }
    split; [intros [H _]; congruence|].
    split; [intros q ([=] & _)|].
    split.
    + intros [a Ha]. left. split; [reflexivity|].
      destruct (root t); [discriminate | reflexivity].
    + intros [[_ Hr] | (q & [=] & _)]. rewrite Hr. eexists. reflexivity.
Qed.

Lemma add_root_outcome t v z o : succeeds (add_root t v z o) <-> root t = None.
Proof.
  unfold add_root. destruct (root t).
  - split; [intros [a Ha]; discriminate | discriminate].
  - split; [reflexivity | intros _; eexists; reflexivity].
Qed.

(** C7, as the code has it. [_create_node] fails in three cases and in
    no other: a root is asked for and the tree has one ([InvalidState]);
    a child is asked for with a branch value other than 0 and 1
    ([InvalidArgument]); a child is asked for with branch value 0 or 1
    under a parent index that no node of the tree carries (the error of
    [_find_node]).  [add_root] itself fails exactly when the tree has a
    root. *)
Theorem create_node_outcome (t : BTree) (parent_idx branch_value : option Z)
    (v : string) (z o : Z) :
  let r := ID3._create_node t parent_idx branch_value v z o in
  let branch_ok := branch_value = Some 0 \/ branch_value = Some 1 in
  (parent_idx = None /\ root t <> None -> r = Raise InvalidState) /\
  (parent_idx <> None /\ ~ branch_ok -> r = Raise InvalidArgument) /\
  (forall p, parent_idx = Some p /\ branch_ok /\ ~ In p (tree_indices t) ->
             r = Raise (NodeNotFound p)) /\
  (succeeds r <->
     (parent_idx = None /\ root t = None) \/
     (exists p, parent_idx = Some p /\ branch_ok /\ In p (tree_indices t))) /\
  (succeeds (add_root t (Some v) z o) <-> root t = None).
Proof.
  intros r branch_ok.
  destruct (create_node_cases t parent_idx branch_value v z o) as (H1 & H2 & H3 & H4).
  repeat split; try assumption; try apply H4; apply add_root_outcome.
Qed.

(** C7 as stated does not hold: asking for a left child (branch value 0)
    under the index 7 in a tree whose nodes have the indices 0, 1 and 2 is
    neither of the two named cases, and fails. *)
Lemma create_node_fails_without_parent :
  let r := ID3._create_node stump_tree (Some 7) (Some 0) "0" 0 0 in
  r = Raise (ValueError "Node with index 7 not found") /\ ~ succeeds r.
Proof.
  split; [reflexivity|]. intros [a Ha]. discriminate.
Qed.

(* ===================================================================== *)
(** ** Classification of a sample *)
(* ===================================================================== *)

Lemma traverse_eq node sample :
  traverse node sample =
  if is_leaf node then
    match value node with
    | None => Raise InvalidLeaf
    | Some label => py_int label
    end
  else
    branch <- getitem sample (value node) ;;
    if branch =? 0 then
      match left node with
      | None => Raise MissingLeft
      | Some l => traverse l sample
      end
    else
      match right node with
      | None => Raise MissingRight
      | Some r => traverse r sample
      end.
Proof. destruct node; reflexivity. Qed.

Lemma traverse_halt sample m r : halt sample m r -> traverse m sample = r.
Proof.
  intros H. rewrite traverse_eq.
  destruct H as [L V | label L V | L V | a L V S Hl | a v L V S Hv Hr]; rewrite L.
  - rewrite V. reflexivity.
  - rewrite V. reflexivity.
  - unfold getitem. destruct (value m) as [a|]; [rewrite V|]; reflexivity.
  - rewrite V. simpl. rewrite S. simpl. rewrite Hl. reflexivity.
  - rewrite V. simpl. rewrite S. simpl.
    destruct (Z.eqb_spec v 0); [contradiction|]. rewrite Hr. reflexivity.
Qed.

Lemma traverse_route sample n m :
  route sample n m -> traverse n sample = traverse m sample.
Proof.
  induction 1 as [n | n l m a L V S Hl _ IH | n r m a v L V S Hv Hr _ IH].
  - reflexivity.
  - rewrite (traverse_eq n), L, V. simpl. rewrite S. simpl. rewrite Hl. exact IH.
  - rewrite (traverse_eq n), L, V. simpl. rewrite S. simpl.
    destruct (Z.eqb_spec v 0); [contradiction|]. rewrite Hr. exact IH.
Qed.

(** The walk always comes to a node where it halts. *)
Lemma route_halts sample n : exists m r, route sample n m /\ halt sample m r.
Proof.
  induction n as [n IHl IHr] using Node_induction.
  destruct (is_leaf n) eqn:L.
  { exists n. destruct (value n) as [label|] eqn:V.
    - exists (py_int label). split; [constructor | eapply halt_label; eauto].
    - exists (Raise InvalidLeaf). split; [constructor | apply halt_unlabelled; auto]. }
  destruct (value n) as [a|] eqn:V.
  2:{ exists n, (Raise (KeyError (value n))). split; [constructor|].
      apply halt_no_attribute; [exact L | rewrite V; exact I]. }
  destruct (sample a) as [v|] eqn:S.
  2:{ exists n, (Raise (KeyError (value n))). split; [constructor|].
      apply halt_no_attribute; [exact L | rewrite V; exact S]. }
  destruct (Z.eq_dec v 0) as [->|Hv].
  - destruct (left n) as [l|] eqn:Hl.
    + simpl in IHl. destruct IHl as (m & r & R & H).
      exists m, r. split; [eapply route_left; eauto | exact H].
    + exists n, (Raise MissingLeft). split; [constructor|].
      eapply halt_no_left; eauto.
  - destruct (right n) as [c|] eqn:Hr.
    + simpl in IHr. destruct IHr as (m & r & R & H).
      exists m, r. split; [eapply route_right; eauto | exact H].
    + exists n, (Raise MissingRight). split; [constructor|].
      eapply halt_no_right; eauto.
Qed.

(** C8, as the code has it. When the walk from the root comes to a node
    [m] where it halts, [traverse] ends as that node says: at an inner
    node without the child to follow, with the missing-branch
    [ValueError]; at an inner node whose attribute the sample lacks, with
    the [KeyError] of the sample's own lookup; at a leaf without a label,
    with [InvalidLeaf]; at a labelled leaf, with [int(label)]. *)
Theorem traverse_outcome (root : Node) (sample : Sample) (m : Node) (r : result Z) :
  route sample root m -> halt sample m r -> traverse root sample = r.
Proof.
  intros R H. rewrite (traverse_route sample root m R). apply traverse_halt, H.
Qed.

Lemma traverse_outcome_witness :
  traverse stump (sample_of [("A"%string, 1)]) = py_int "1".
Proof.
  apply (traverse_outcome stump (sample_of [("A"%string, 1)]) (leaf_node "1" 2 0 1)).
  - apply (route_right _ stump (leaf_node "1" 2 0 1) (leaf_node "1" 2 0 1) "A" 1);
      [reflexivity | reflexivity | reflexivity | lia | reflexivity | apply route_here].
  - apply (halt_label _ _ "1"); reflexivity.
Defined.

(** C8 as stated does not hold: for a sample without the attribute of an
    inner node that has both children, the failure is the [KeyError] of
    the lookup, which is not a missing-branch error. *)
Lemma traverse_missing_attribute_raises_key_error :
  traverse stump (sample_of []) = Raise (KeyError (Some "A"%string)) /\
  ~ MissingBranch (KeyError (Some "A"%string)).
Proof.
  split; [reflexivity|]. intros [H|H]; discriminate.
Qed.

(* ===================================================================== *)
(** ** Accuracy on a dataset without rows *)
(* ===================================================================== *)

(** C10. For a tree with a root and a dataset that has the target column
    and no rows, [calculate_accuracy] fails with [ZeroDivisionError], which
    is none of the error kinds the specification names. *)
Theorem accuracy_of_empty_dataset_divides_by_zero (dataset : DataFrame) (t : BTree) :
  has_column dataset TARGET_COLUMN = true -> rows dataset = [] -> root t <> None ->
  ID3.calculate_accuracy dataset t = Raise ZeroDivisionError /\
  ~ In ZeroDivisionError named_errors.
Proof.
  intros Hc Hr Ht. split.
  - unfold ID3.calculate_accuracy, drop_column, get_root. rewrite Hc. simpl.
    destruct (root t) as [r|]; [|congruence].
    rewrite Hr. simpl. unfold len. rewrite Hr. reflexivity.
  - simpl. intros H. repeat destruct H as [H|H]; try discriminate; exact H.
Qed.

Lemma accuracy_of_empty_dataset_divides_by_zero_witness :
  ID3.calculate_accuracy (mkFrame ["A"; "Class"]%string []) (mkBTree (Some stump) 2)
    = Raise ZeroDivisionError /\
  ~ In ZeroDivisionError named_errors.
Proof.
  apply (accuracy_of_empty_dataset_divides_by_zero
           (mkFrame ["A"; "Class"]%string []) (mkBTree (Some stump) 2));
    [reflexivity | reflexivity | discriminate].
Defined.

(* ===================================================================== *)
(** ** The attribute with the greatest gain *)
(* ===================================================================== *)

(** [max_scan] keeps an item of the list that no item exceeds. *)
Lemma max_scan_spec (rest : list float) :
  forall (pre : list float) (i maxpos : nat) (maxitem : float),
    i = List.length pre ->
    nth_error (pre ++ rest) maxpos = Some maxitem ->
    (forall g, In g pre -> gt g maxitem = false) ->
    forall p m, ID3.max_scan rest i maxpos maxitem = (p, m) ->
      nth_error (pre ++ rest) p = Some m /\
      (forall g, In g (pre ++ rest) -> gt g m = false).
Proof.
  induction rest as [|item rest IH]; intros pre i maxpos maxitem Hi Hnth Hpre p m; simpl.
  - intros [= <- <-]. split; [exact Hnth|]. rewrite app_nil_r. exact Hpre.
  - assert (Happ : pre ++ item :: rest = (pre ++ [item]) ++ rest)
      by (rewrite <- app_assoc; reflexivity).
    assert (Hlen : S i = List.length (pre ++ [item]))
      by (rewrite length_app; simpl; lia).
    rewrite Happ in *.
    destruct (gt item maxitem) eqn:G; intros Hs.
    + apply (IH (pre ++ [item]) (S i) i item Hlen); [| |exact Hs].
      * rewrite nth_error_app1 by (rewrite length_app; simpl; lia).
        rewrite nth_error_app2 by lia.
        replace (i - List.length pre)%nat with O by lia. reflexivity.
      * intros g Hg. apply in_app_iff in Hg. destruct Hg as [Hg|[<-|[]]].
        -- destruct (gt g item) eqn:G'; [|reflexivity].
           pose proof (gt_trans _ _ _ G' G) as T. rewrite (Hpre g Hg) in T.
           discriminate.
        -- apply gt_irrefl.
    + apply (IH (pre ++ [item]) (S i) maxpos maxitem Hlen); [exact Hnth| |exact Hs].
      intros g Hg. apply in_app_iff in Hg. destruct Hg as [Hg|[<-|[]]]; auto.
Qed.

Lemma py_max_spec (gains : list float) (p : nat) (m : float) :
  ID3.py_max gains = Ok (p, m) ->
  nth_error gains p = Some m /\ (forall g, In g gains -> gt g m = false).
Proof.
  destruct gains as [|g rest]; [discriminate|]. simpl. intros [= H].
  apply (max_scan_spec rest [g] 1%nat O g eq_refl); [reflexivity| |exact H].
  intros h [<-|[]]. apply gt_irrefl.
Qed.

Lemma py_max_succeeds (gains : list float) :
  gains <> [] -> exists x, ID3.py_max gains = Ok x.
Proof. destruct gains; [congruence|]. intros _. simpl. eexists. reflexivity. Qed.

(** [index_scan] stops at the first place that holds the object or an
    equal value. *)
Lemma index_scan_spec (rest : list float) :
  forall (pre : list float) (i p : nat) (m : float),
    i = List.length pre ->
    nth_error (pre ++ rest) p = Some m ->
    (i <= p)%nat ->
    exists k g,
      ID3.index_scan rest i (p, m) = Ok k /\ (i <= k <= p)%nat /\
      nth_error (pre ++ rest) k = Some g /\
      (k = p \/ eq g m = true) /\
      (forall j h, (i <= j < k)%nat -> nth_error (pre ++ rest) j = Some h ->
                   eq h m = false).
Proof.
  induction rest as [|item rest IH]; intros pre i p m Hi Hnth Hle; simpl.
  - rewrite app_nil_r in Hnth.
    assert (p < List.length pre)%nat by (apply nth_error_Some; congruence). lia.
  - assert (Happ : pre ++ item :: rest = (pre ++ [item]) ++ rest)
      by (rewrite <- app_assoc; reflexivity).
    assert (Hlen : S i = List.length (pre ++ [item]))
      by (rewrite length_app; simpl; lia).
    assert (Hitem : nth_error (pre ++ item :: rest) i = Some item).
    { rewrite nth_error_app2 by lia.
      replace (i - List.length pre)%nat with O by lia. reflexivity. }
    destruct ((i =? p)%nat || eq item m) eqn:T.
    + exists i, item. split; [reflexivity|]. split; [lia|]. split; [exact Hitem|].
      split.
      * apply orb_true_iff in T. destruct T as [T|T]; [left; apply Nat.eqb_eq, T | right; exact T].
      * intros j h Hj. lia.
    + apply orb_false_iff in T. destruct T as [Tp Te]. apply Nat.eqb_neq in Tp.
      rewrite Happ in *.
      destruct (IH (pre ++ [item]) (S i) p m Hlen Hnth ltac:(lia))
        as (k & g & Hk & Hr & Hg & Hor & Hbefore).
      exists k, g. repeat split; auto; try lia.
      intros j h Hj Hh.
      destruct (Nat.eq_dec j i) as [->|Hne].
      * rewrite Hitem in Hh. injection Hh as <-. exact Te.
      * apply (Hbefore j h); [lia | exact Hh].
Qed.

Lemma py_index_spec (gains : list float) (p : nat) (m : float) :
  nth_error gains p = Some m ->
  exists k g,
    ID3.py_index gains (p, m) = Ok k /\ (k <= p)%nat /\
    nth_error gains k = Some g /\ (k = p \/ eq g m = true) /\
    (forall j h, (j < k)%nat -> nth_error gains j = Some h -> eq h m = false).
Proof.
  intros H.
  destruct (index_scan_spec gains [] O p m eq_refl H ltac:(lia))
    as (k & g & Hk & Hr & Hg & Hor & Hb).
  exists k, g. repeat split; auto; try lia.
  intros j h Hj. apply Hb. lia.
Qed.

Lemma where_eq_columns d a v s :
  where_eq d a v = Ok s -> columns s = columns d /\ has_column d a = true.
Proof.
  unfold where_eq. destruct (has_column d a); [|discriminate].
  intros [= <-]. auto.
Qed.

Lemma has_column_where d a v s b :
  where_eq d a v = Ok s -> has_column s b = has_column d b.
Proof.
  intros H. apply where_eq_columns in H. destruct H as [H _].
  unfold has_column. rewrite H. reflexivity.
Qed.

Lemma class_count_succeeds d v :
  has_column d TARGET_COLUMN = true -> succeeds (ID3.class_count d v).
Proof.
  intros H. unfold ID3.class_count, where_eq. rewrite H. eexists. reflexivity.
Qed.

Lemma len_zero d : len d = 0 <-> rows d = [].
Proof.
  unfold len. destruct (rows d); simpl; split; intros H; try reflexivity;
    try discriminate; lia.
Qed.

Section Gain.

Variable impurity : Z -> Z -> result float.
Hypothesis impurity_total : forall p n, succeeds (impurity p n).

Lemma partition_term_succeeds d a subtotal v :
  rows d <> [] -> has_column d TARGET_COLUMN = true -> has_column d a = true ->
  succeeds (ID3.partition_term impurity d a subtotal v).
Proof using impurity_total.
  intros Hr Ht Ha. unfold ID3.partition_term.
  destruct (where_eq d a v) as [s|e] eqn:Hs.
  2:{ unfold where_eq in Hs. rewrite Ha in Hs. discriminate. }
  simpl.
  assert (Hst : has_column s TARGET_COLUMN = true)
    by (rewrite (has_column_where d a v s _ Hs); exact Ht).
  destruct (class_count_succeeds s 0 Hst) as [negative ->].
  destruct (class_count_succeeds s 1 Hst) as [positive ->]. simpl.
  destruct (impurity_total positive negative) as [i ->]. simpl.
  unfold int_truediv.
  destruct (Z.eqb_spec (len d) 0) as [E|E]; [apply len_zero in E; contradiction|].
  simpl. eexists. reflexivity.
Qed.

Lemma gain_of_succeeds total d a :
  rows d <> [] -> has_column d TARGET_COLUMN = true -> has_column d a = true ->
  succeeds (ID3.gain_of impurity total d a).
Proof using impurity_total.
  intros Hr Ht Ha. unfold ID3.gain_of.
  destruct (partition_term_succeeds d a zero 0 Hr Ht Ha) as [s0 ->]. simpl.
  destruct (partition_term_succeeds d a s0 1 Hr Ht Ha) as [s1 ->]. simpl.
  eexists. reflexivity.
Qed.

(** The list of gains pairs every candidate with its gain. *)
Lemma gains_of_spec total d attributes gains :
  ID3.gains_of impurity total d attributes = Ok gains <->
  Forall2 (fun a g => ID3.gain_of impurity total d a = Ok g) attributes gains.
Proof.
  revert gains. induction attributes as [|a rest IH]; intros gains; simpl.
  - split.
    + intros [= <-]. constructor.
    + intros H. inversion H. reflexivity.
  - split.
    + destruct (ID3.gain_of impurity total d a) as [g|e] eqn:G; [|discriminate].
      simpl. destruct (ID3.gains_of impurity total d rest) as [gs|e] eqn:Gs;
        [|discriminate].
      simpl. intros [= <-]. constructor; [exact G|]. apply IH. reflexivity.
    + intros H. inversion H as [|a' g rest' gs Hg Hgs]; subst.
      rewrite Hg. simpl. apply IH in Hgs. rewrite Hgs. reflexivity.
Qed.

Lemma gains_of_succeeds total d attributes :
  rows d <> [] -> has_column d TARGET_COLUMN = true ->
  (forall a, In a attributes -> has_column d a = true) ->
  succeeds (ID3.gains_of impurity total d attributes).
Proof using impurity_total.
  intros Hr Ht. induction attributes as [|a rest IH]; intros Ha; simpl.
  - eexists. reflexivity.
  - destruct (gain_of_succeeds total d a Hr Ht (Ha a (or_introl eq_refl))) as [g ->].
    destruct IH as [gs ->]; [intros b Hb; apply Ha; right; exact Hb|].
    simpl. eexists. reflexivity.
Qed.

Lemma Forall2_nth {A B : Type} (R : A -> B -> Prop) (l : list A) (l' : list B) :
  Forall2 R l l' ->
  forall i, match nth_error l i, nth_error l' i with
            | Some a, Some b => R a b
            | None, None => True
            | _, _ => False
            end.
Proof.
  induction 1 as [|a b l l' Hab _ IH]; intros [|i]; simpl; auto. apply IH.
Qed.

(** [_gain] returns the first candidate of greatest gain. *)
Lemma gain_selects_first_max total d attributes :
  rows d <> [] -> attributes <> [] ->
  has_column d TARGET_COLUMN = true ->
  (forall a, In a attributes -> has_column d a = true) ->
  selects_first_max (ID3.gain_of impurity total d) attributes
    (ID3._gain impurity total d attributes).
Proof using impurity_total.
  intros Hr Hne Ht Ha. unfold ID3._gain.
  destruct (gains_of_succeeds total d attributes Hr Ht Ha) as [gains Hg].
  rewrite Hg. simpl.
  apply gains_of_spec in Hg.
  pose proof (Forall2_nth _ _ _ Hg) as Hnth.
  assert (Hlen : List.length attributes = List.length gains)
    by (eapply Forall2_length; eauto).
  assert (Hgne : gains <> []).
  { destruct gains; [|discriminate]. destruct attributes; [congruence|discriminate]. }
  destruct (py_max_succeeds gains Hgne) as [[p m] Hm]. rewrite Hm. simpl.
  apply py_max_spec in Hm. destruct Hm as [Hp Hmax].
  destruct (py_index_spec gains p m Hp) as (k & g & Hk & Hkp & Hgk & Hor & Hbefore).
  rewrite Hk. simpl.
  assert (Hk' : exists a, nth_error attributes k = Some a).
  { destruct (nth_error attributes k) as [a|] eqn:E; [eauto|].
    apply nth_error_None in E.
    assert (k < List.length gains)%nat by (apply nth_error_Some; congruence). lia. }
  destruct Hk' as [a Hak].
  exists k, a, g. unfold ID3.item. rewrite Hak.
  split; [reflexivity|]. split; [reflexivity|].
  assert (Hga : ID3.gain_of impurity total d a = Ok g).
  { specialize (Hnth k). rewrite Hak, Hgk in Hnth. exact Hnth. }
  split; [exact Hga|].
  (* the gain at [k] is the kept item or equals it *)
  assert (Hsame : forall h, gt h m = false -> gt h g = false).
  { intros h Hh. destruct Hor as [->|E].
    - rewrite Hp in Hgk. injection Hgk as <-. exact Hh.
    - destruct (gt h g) eqn:G; [|reflexivity].
      rewrite (gt_eq_r h g m E G) in Hh. discriminate. }
  split.
  - intros b h Hb Hh.
    destruct (In_nth_error _ _ Hb) as [j Hj].
    specialize (Hnth j). rewrite Hj in Hnth.
    destruct (nth_error gains j) as [h'|] eqn:Ej; [|contradiction].
    assert (h' = h) by congruence. subst h'.
    assert (G : gt h g = false) by (apply Hsame, Hmax; eapply nth_error_In; eauto).
    split; [exact G|]. intros Ng Nh. apply not_gt_ge; assumption.
  - intros j b h Hj Hb Hh.
    specialize (Hnth j). rewrite Hb in Hnth.
    destruct (nth_error gains j) as [h'|] eqn:Ej; [|contradiction].
    assert (h' = h) by congruence. subst h'.
    pose proof (Hbefore j h Hj Ej) as Hne'.
    destruct Hor as [->|E].
    + rewrite Hp in Hgk. injection Hgk as <-. exact Hne'.
    + destruct (eq h g) eqn:E'; [|reflexivity].
      rewrite (eq_trans h g m E' E) in Hne'. discriminate.
Qed.

End Gain.

Lemma entropy_total math_log p n : succeeds (Entropy.entropy math_log p n).
Proof.
  unfold Entropy.entropy, int_truediv.
  destruct (p + n =? 0); [eexists; reflexivity|]. simpl.
  destruct ((p =? 0) || (n =? 0)); eexists; reflexivity.
Qed.

Lemma variance_impurity_total p n : succeeds (Variance.variance_impurity p n).
Proof.
  unfold Variance.variance_impurity, int_truediv.
  destruct (p + n =? 0); [eexists; reflexivity|].
  destruct ((p =? 0) || (n =? 0)); eexists; reflexivity.
Qed.



(** The result is a member of the candidate list. *)
Lemma selects_first_max_member gain attributes chosen :
  selects_first_max gain attributes chosen ->
  exists a, chosen = Ok a /\ In a attributes.
Proof.
  intros (i & a & g & Hi & Hc & _). exists a. split; [exact Hc|].
  eapply nth_error_In; eauto.
Qed.

(* ===================================================================== *)
(** ** Row order *)
(* ===================================================================== *)

Lemma filter_permutation {A : Type} (f : A -> bool) (l l' : list A) :
  Permutation l l' -> Permutation (filter f l) (filter f l').
Proof.
  induction 1 as [|x l l' _ IH|x y l|l l' l'' _ IH1 _ IH2]; simpl.
  - constructor.
  - destruct (f x); [constructor|]; exact IH.
  - destruct (f x), (f y); try apply Permutation_refl. constructor.
  - eapply Permutation_trans; eauto.
Qed.

Lemma reordered_has_column d d' a : reordered d d' -> has_column d' a = has_column d a.
Proof. intros [H _]. unfold has_column. rewrite H. reflexivity. Qed.

Lemma reordered_len d d' : reordered d d' -> len d' = len d.
Proof.
  intros [_ H]. unfold len. rewrite (Permutation_length H). reflexivity.
Qed.

Lemma reordered_where_eq d d' a v :
  reordered d d' ->
  match where_eq d a v, where_eq d' a v with
  | Ok s, Ok s' => reordered s s'
  | Raise e, Raise e' => e = e'
  | _, _ => False
  end.
Proof.
  intros R. unfold where_eq. rewrite (reordered_has_column d d' a R).
  destruct (has_column d a); [|reflexivity].
  destruct R as [Hc Hp]. split; simpl; [exact Hc|].
  apply filter_permutation, Hp.
Qed.

Lemma reordered_class_count d d' v :
  reordered d d' -> ID3.class_count d' v = ID3.class_count d v.
Proof.
  intros R. unfold ID3.class_count.
  pose proof (reordered_where_eq d d' TARGET_COLUMN v R) as H.
  destruct (where_eq d TARGET_COLUMN v), (where_eq d' TARGET_COLUMN v);
    try contradiction; simpl.
  - rewrite (reordered_len _ _ H). reflexivity.
  - congruence.
Qed.

Section RowOrder.

Variable impurity : Z -> Z -> result float.

Lemma reordered_partition_term d d' a subtotal v :
  reordered d d' ->
  ID3.partition_term impurity d' a subtotal v
  = ID3.partition_term impurity d a subtotal v.
Proof.
  intros R. unfold ID3.partition_term.
  pose proof (reordered_where_eq d d' a v R) as H.
  destruct (where_eq d a v) as [s|e], (where_eq d' a v) as [s'|e'];
    try contradiction; simpl; [|congruence].
  rewrite !(reordered_class_count s s' _ H), (reordered_len d d' R).
  reflexivity.
Qed.

Lemma reordered_gain_of total d d' a :
  reordered d d' ->
  ID3.gain_of impurity total d' a = ID3.gain_of impurity total d a.
Proof.
  intros R. unfold ID3.gain_of.
  rewrite (reordered_partition_term d d' a zero 0 R).
  destruct (ID3.partition_term impurity d a zero 0); simpl; [|reflexivity].
  rewrite (reordered_partition_term d d' a _ 1 R). reflexivity.
Qed.

Lemma reordered_gain total d d' attributes :
  reordered d d' ->
  ID3._gain impurity total d' attributes = ID3._gain impurity total d attributes.
Proof.
  intros R. unfold ID3._gain.
  replace (ID3.gains_of impurity total d' attributes)
    with (ID3.gains_of impurity total d attributes); [reflexivity|].
  induction attributes as [|a rest IH]; simpl; [reflexivity|].
  rewrite (reordered_gain_of total d d' a R), IH. reflexivity.
Qed.

End RowOrder.

(** C5. Reordering the rows of the dataset does not change the result of
    [_information_gain] or of [_variance_gain], for any candidate list. *)
Theorem best_attribute_ignores_row_order
    (math_log : float -> float -> float) (total : float)
    (dataset permuted : DataFrame) (attributes : list string) :
  columns permuted = columns dataset ->
  Permutation (rows dataset) (rows permuted) ->
  Entropy._information_gain math_log total permuted attributes
  = Entropy._information_gain math_log total dataset attributes /\
  Variance._variance_gain total permuted attributes
  = Variance._variance_gain total dataset attributes.
Proof.
  intros Hc Hp. split; apply reordered_gain; split; assumption.
Qed.

Lemma best_attribute_ignores_row_order_witness :
  Entropy._information_gain (fun x _ => x) zero
    (mkFrame ["A"; "B"; "Class"]%string (rev example_rows)) ["A"; "B"]%string
  = Entropy._information_gain (fun x _ => x) zero example_frame ["A"; "B"]%string /\
  Variance._variance_gain zero
    (mkFrame ["A"; "B"; "Class"]%string (rev example_rows)) ["A"; "B"]%string
  = Variance._variance_gain zero example_frame ["A"; "B"]%string.
Proof.
  apply (best_attribute_ignores_row_order (fun x _ => x) zero example_frame
           (mkFrame ["A"; "B"; "Class"]%string (rev example_rows)) ["A"; "B"]%string).
  - reflexivity.
  - apply Permutation_rev.
Defined.

(* ===================================================================== *)
(** ** Termination of the builder *)
(* ===================================================================== *)

Lemma gain_member impurity total d attributes a :
  ID3._gain impurity total d attributes = Ok a -> In a attributes.
Proof.
  unfold ID3._gain.
  destruct (ID3.gains_of impurity total d attributes) as [gains|]; [|discriminate].
  simpl. destruct (ID3.py_max gains) as [m|]; [|discriminate].
  simpl. destruct (ID3.py_index gains m) as [k|]; [|discriminate].
  simpl. unfold ID3.item.
  destruct (nth_error attributes k) as [a'|] eqn:E; [|discriminate].
  intros [= <-]. eapply nth_error_In; eauto.
Qed.

Lemma remaining_subset attributes best a :
  In a (ID3.remaining attributes best) -> In a attributes.
Proof. unfold ID3.remaining. intros H. apply filter_In in H. tauto. Qed.

Lemma remaining_shorter attributes best :
  In best attributes ->
  (List.length (ID3.remaining attributes best) < List.length attributes)%nat.
Proof.
  unfold ID3.remaining. induction attributes as [|a rest IH]; simpl; [tauto|].
  intros [->|H].
  - rewrite String.eqb_refl. simpl.
    pose proof (filter_length_le (fun x => negb (String.eqb x best)) rest). lia.
  - specialize (IH H). destruct (negb (String.eqb a best)); simpl; lia.
Qed.

Section Termination.

Variable impurity : Z -> Z -> result float.

Lemma grow_branch_defined (recur : recursion) d best rest z o cur t v :
  (forall d' t' p' b', exists r, recur d' rest t' p' b' = Some r) ->
  exists r, ID3.grow_branch recur d best rest z o cur t v = Some r.
Proof.
  intros H. unfold ID3.grow_branch.
  destruct (where_eq d best v) as [s|e]; [|eauto].
  destruct (empty s); [eauto | apply H].
Qed.

(** The body ends whenever the recursive calls on shorter lists do. *)
Lemma build_body_defined (recur : recursion) d attributes t p b :
  (forall rest, (List.length rest < List.length attributes)%nat ->
     forall d' t' p' b', exists r, recur d' rest t' p' b' = Some r) ->
  exists r, ID3.build_body impurity recur d attributes t p b = Some r.
Proof.
  intros H. unfold ID3.build_body.
  destruct (ones <- ID3.class_count d 1 ;; zeroes <- ID3.class_count d 0 ;;
            Ok (ones, zeroes)) as [[ones zeroes]|e]; [|eauto].
  destruct (ones =? 0); [eauto|].
  destruct (zeroes =? 0); [eauto|].
  destruct attributes as [|a0 rest0] eqn:Ha; [eauto|]. rewrite <- Ha in *.
  destruct (impurity ones zeroes) as [total|e]; simpl; [|eauto].
  destruct (ID3._gain impurity total d attributes) as [best|e] eqn:G;
    simpl; [|eauto].
  destruct (ID3._create_node t p b best zeroes ones) as [[cur t1]|e];
    simpl; [|eauto].
  assert (Hshort : forall d' t' p' b', exists r,
             recur d' (ID3.remaining attributes best) t' p' b' = Some r).
  { apply H, remaining_shorter. eapply gain_member; eauto. }
  destruct (grow_branch_defined recur d best _ zeroes ones cur t1 0 Hshort)
    as [r0 ->].
  destruct r0 as [t2|e]; [|eauto].
  apply grow_branch_defined, Hshort.
Qed.

Lemma build_tree_defined fuel :
  forall d attributes t p b,
    (List.length attributes < fuel)%nat ->
    exists r, ID3._build_tree impurity fuel d attributes t p b = Some r.
Proof.
  induction fuel as [|fuel IH]; intros d attributes t p b Hlen; [lia|].
  simpl. apply build_body_defined.
  intros rest Hrest d' t' p' b'. apply IH. lia.
Qed.

Lemma grow_branch_mono (recur recur' : recursion) d best rest z o cur t v r :
  (forall d' a' t' p' b' r', recur d' a' t' p' b' = Some r' ->
                             recur' d' a' t' p' b' = Some r') ->
  ID3.grow_branch recur d best rest z o cur t v = Some r ->
  ID3.grow_branch recur' d best rest z o cur t v = Some r.
Proof.
  intros H. unfold ID3.grow_branch.
  destruct (where_eq d best v) as [s|e]; [|auto].
  destruct (empty s); [auto | apply H].
Qed.

Lemma build_body_mono (recur recur' : recursion) d attributes t p b r :
  (forall d' a' t' p' b' r', recur d' a' t' p' b' = Some r' ->
                             recur' d' a' t' p' b' = Some r') ->
  ID3.build_body impurity recur d attributes t p b = Some r ->
  ID3.build_body impurity recur' d attributes t p b = Some r.
Proof.
  intros H. unfold ID3.build_body.
  destruct (ones <- ID3.class_count d 1 ;; zeroes <- ID3.class_count d 0 ;;
            Ok (ones, zeroes)) as [[ones zeroes]|e]; [|auto].
  destruct (ones =? 0); [auto|].
  destruct (zeroes =? 0); [auto|].
  destruct attributes as [|a0 rest0] eqn:Ha; [auto|]. rewrite <- Ha in *.
  destruct (total <- impurity ones zeroes ;;
            best_attribute <- ID3._gain impurity total d attributes ;;
            r <- ID3._create_node t p b best_attribute zeroes ones ;;
            Ok (best_attribute, r)) as [[best [cur t1]]|e]; [|auto].
  destruct (ID3.grow_branch recur d best _ zeroes ones cur t1 0) as [r0|] eqn:G0;
    [|discriminate].
  rewrite (grow_branch_mono recur recur' _ _ _ _ _ _ _ _ _ H G0).
  destruct r0 as [t2|e]; [|auto].
  apply grow_branch_mono, H.
Qed.

(** More fuel does not change a result. *)
Lemma build_tree_mono fuel :
  forall fuel' d attributes t p b r,
    (fuel <= fuel')%nat ->
    ID3._build_tree impurity fuel d attributes t p b = Some r ->
    ID3._build_tree impurity fuel' d attributes t p b = Some r.
Proof.
  induction fuel as [|fuel IH]; intros fuel' d attributes t p b r Hle;
    [discriminate|].
  destruct fuel' as [|fuel']; [lia|]. simpl.
  apply build_body_mono. intros d' a' t' p' b' r'. apply IH. lia.
Qed.

Lemma build_tree_result d attributes t p b :
  exists r, forall fuel, (List.length attributes < fuel)%nat ->
    ID3._build_tree impurity fuel d attributes t p b = Some r.
Proof.
  destruct (build_tree_defined (S (List.length attributes)) d attributes t p b
              ltac:(lia)) as [r Hr].
  exists r. intros fuel Hf. eapply build_tree_mono; [|exact Hr]. lia.
Qed.

End Termination.

(** C3. For every dataset, attribute list, tree and attachment point, the
    builder ends: with any recursion depth above the number of attributes
    it returns one and the same result (a tree or an exception), never the
    report that the depth was used up.  Each recursive call is on the list
    without the chosen attribute, which is strictly shorter. *)
Theorem build_tree_terminates
    (math_log : float -> float -> float)
    (dataset : DataFrame) (attributes : list string) (decision_tree : BTree)
    (parent_idx branch_value : option Z) :
  (exists r, forall fuel, (List.length attributes < fuel)%nat ->
     Entropy._build_tree math_log fuel dataset attributes decision_tree
       parent_idx branch_value = Some r) /\
  (exists r, forall fuel, (List.length attributes < fuel)%nat ->
     Variance._build_tree fuel dataset attributes decision_tree
       parent_idx branch_value = Some r) /\
  (forall total best,
     Entropy._information_gain math_log total dataset attributes = Ok best \/
     Variance._variance_gain total dataset attributes = Ok best ->
     (List.length (ID3.remaining attributes best) < List.length attributes)%nat).
Proof.
  split; [apply build_tree_result|]. split; [apply build_tree_result|].
  intros total best [H|H]; apply remaining_shorter; eapply gain_member; exact H.
Qed.

(* ===================================================================== *)
(** ** Updating a tree in place *)
(* ===================================================================== *)

Lemma nodup_app_iff {A : Type} (l1 l2 : list A) :
  NoDup (l1 ++ l2) <->
  NoDup l1 /\ NoDup l2 /\ (forall a, In a l1 -> ~ In a l2).
Proof.
  split.
  - intros H. split; [eapply NoDup_app_remove_r; eauto|].
    split; [eapply NoDup_app_remove_l; eauto|].
    induction l1 as [|x l1 IH]; simpl in *; [tauto|].
    apply NoDup_cons_iff in H. destruct H as [Hx H].
    intros a [->|Ha]; [|apply IH; assumption].
    intros Hin. apply Hx, in_app_iff. auto.
  - intros (H1 & H2 & H). apply NoDup_app; assumption.
Qed.

Lemma indices_children n :
  indices n = idx n :: child_indices false n ++ child_indices true n.
Proof. destruct n; reflexivity. Qed.

Lemma child_set_same b c n : child b (set_child b c n) = c.
Proof. destruct b; reflexivity. Qed.

Lemma child_set_other b c n : child (negb b) (set_child b c n) = child (negb b) n.
Proof. destruct b; reflexivity. Qed.

Lemma idx_set_child b c n : idx (set_child b c n) = idx n.
Proof. destruct b; reflexivity. Qed.

Lemma set_child_twice b c c' n : set_child b c' (set_child b c n) = set_child b c' n.
Proof. destruct b; reflexivity. Qed.

Lemma child_indices_in b n c x :
  child b n = Some c -> In x (indices c) -> In x (indices n).
Proof.
  intros Hc Hx. rewrite indices_children. right. apply in_app_iff.
  destruct b; [right|left]; unfold child_indices; rewrite Hc; exact Hx.
Qed.

Lemma deref_indices n q m : deref n q = Some m -> In (idx m) (indices n).
Proof.
  revert n. induction q as [|b q IH]; intros n; simpl.
  - intros [= <-]. rewrite indices_children. left. reflexivity.
  - destruct (child b n) as [c|] eqn:Hc; [|discriminate].
    intros H. eapply child_indices_in; eauto.
Qed.

Lemma update_ext n q f g : (forall m, f m = g m) -> update n q f = update n q g.
Proof.
  intros H. revert n. induction q as [|b q IH]; intros n; simpl; [apply H|].
  destruct (child b n); [rewrite IH|]; reflexivity.
Qed.

Lemma update_app n q q' f :
  update n (q ++ q') f = update n q (fun m => update m q' f).
Proof.
  revert n. induction q as [|b q IH]; intros n; simpl; [reflexivity|].
  destruct (child b n); [rewrite IH|]; reflexivity.
Qed.

Lemma update_update n q f g :
  update (update n q f) q g = update n q (fun m => g (f m)).
Proof.
  revert n. induction q as [|b q IH]; intros n; simpl; [reflexivity|].
  destruct (child b n) as [c|] eqn:Hc; simpl.
  - rewrite child_set_same, set_child_twice, IH. reflexivity.
  - rewrite Hc. reflexivity.
Qed.

Lemma deref_update n q f m :
  deref n q = Some m -> deref (update n q f) q = Some (f m).
Proof.
  revert n. induction q as [|b q IH]; intros n; simpl.
  - intros [= <-]. reflexivity.
  - destruct (child b n) as [c|] eqn:Hc; [|discriminate].
    intros H. rewrite child_set_same. apply IH, H.
Qed.

Lemma deref_app n q q' m :
  deref n q = Some m -> deref n (q ++ q') = deref m q'.
Proof.
  revert n. induction q as [|b q IH]; intros n; simpl.
  - intros [= <-]. reflexivity.
  - destruct (child b n) as [c|]; [apply IH | discriminate].
Qed.

(** Growing the child that was just attached. *)
Lemma update_below n q b x g :
  update (update n q (set_child b (Some x))) (q ++ [b]) g
  = update n q (set_child b (Some (g x))).
Proof.
  rewrite update_app, update_update. apply update_ext. intros m. simpl.
  rewrite child_set_same, set_child_twice. reflexivity.
Qed.

(** The indices after a child is replaced. *)
Lemma indices_set_child b s n :
  indices (set_child b (Some s) n)
  = idx n :: (if b then child_indices false n ++ indices s
              else indices s ++ child_indices true n).
Proof. destruct b, n; reflexivity. Qed.

Lemma in_indices_set_child b s n x :
  In x (indices (set_child b (Some s) n)) -> In x (indices n) \/ In x (indices s).
Proof.
  rewrite indices_set_child, (indices_children n). simpl.
  destruct b; rewrite !in_app_iff; tauto.
Qed.

Lemma nodup_set_child b s n :
  NoDup (indices n) -> NoDup (indices s) ->
  (forall x, In x (indices s) -> In x (child_indices b n) \/ ~ In x (indices n)) ->
  NoDup (indices (set_child b (Some s) n)).
Proof.
  rewrite indices_set_child, (indices_children n).
  intros Hn Hs Hx. apply NoDup_cons_iff in Hn. destruct Hn as [Hi Hn].
  apply nodup_app_iff in Hn. destruct Hn as (Hl & Hr & Hlr).
  assert (Hin : forall x, In x (indices s) ->
                  In x (child_indices b n) \/
                  (x <> idx n /\ ~ In x (child_indices false n)
                   /\ ~ In x (child_indices true n))).
  { intros x H. destruct (Hx x H) as [H'|H']; [left; exact H'|right].
    simpl in H'. rewrite in_app_iff in H'. repeat split; intro; apply H'; auto. }
  rewrite in_app_iff in Hi.
  apply NoDup_cons_iff. split.
  - destruct b; rewrite in_app_iff; intros [H|H]; try tauto;
      destruct (Hin _ H) as [H'|(H' & _)]; tauto.
  - destruct b; apply nodup_app_iff; repeat split; auto.
    + intros a Ha Hs'. destruct (Hin _ Hs') as [H'|(_ & H' & _)];
        [exact (Hlr a Ha H') | exact (H' Ha)].
    + intros a Hs' Ha. destruct (Hin _ Hs') as [H'|(_ & _ & H')];
        [exact (Hlr a H' Ha) | exact (H' Ha)].
Qed.

Lemma in_indices_update n q b s x :
  In x (indices (update n q (set_child b (Some s)))) ->
  In x (indices n) \/ In x (indices s).
Proof.
  revert n. induction q as [|b0 q IH]; intros n; simpl.
  - apply in_indices_set_child.
  - destruct (child b0 n) as [c|] eqn:Hc; [|auto].
    intros H. apply in_indices_set_child in H. destruct H as [H|H]; [auto|].
    apply IH in H. destruct H as [H|H]; [|auto].
    left. eapply child_indices_in; eauto.
Qed.

(** Attaching a subtree with new indices keeps the indices distinct. *)
Lemma nodup_update n q b s :
  NoDup (indices n) -> NoDup (indices s) ->
  (forall x, In x (indices s) -> ~ In x (indices n)) ->
  NoDup (indices (update n q (set_child b (Some s)))).
Proof.
  revert n. induction q as [|b0 q IH]; intros n Hn Hs Hx; simpl.
  - apply nodup_set_child; auto.
  - destruct (child b0 n) as [c|] eqn:Hc; [|exact Hn].
    assert (Hsub : forall x, In x (indices c) -> In x (indices n))
      by (intros x; eapply child_indices_in; eauto).
    assert (Hc' : NoDup (indices c)).
    { rewrite indices_children in Hn. apply NoDup_cons_iff in Hn.
      destruct Hn as [_ Hn]. apply nodup_app_iff in Hn.
      unfold child_indices in Hn.
      destruct b0; rewrite Hc in Hn; tauto. }
    apply nodup_set_child; auto.
    + apply IH; auto. intros x H1 H2. exact (Hx x H1 (Hsub x H2)).
    + intros x H. apply in_indices_update in H. destruct H as [H|H].
      * left. unfold child_indices. rewrite Hc. exact H.
      * right. apply Hx, H.
Qed.

(** With distinct indices, [_find_node] returns the reference of the node
    that carries the index. *)
Lemma find_from_unique n q m :
  NoDup (indices n) -> deref n q = Some m -> find_from n (idx m) = Some q.
Proof.
  revert n. induction q as [|b q IH]; intros n Hn; simpl.
  - intros [= <-]. rewrite find_from_eq, Z.eqb_refl. reflexivity.
  - destruct (child b n) as [c|] eqn:Hc; [|discriminate]. intros Hm.
    pose proof (deref_indices c q m Hm) as Hin.
    rewrite indices_children in Hn. apply NoDup_cons_iff in Hn.
    destruct Hn as [Hi Hn]. apply nodup_app_iff in Hn.
    destruct Hn as (Hl & Hr & Hlr). rewrite in_app_iff in Hi.
    unfold child_indices in *.
    rewrite find_from_eq.
    destruct b; unfold child in *; cbv beta iota in *; rewrite Hc in *.
    + destruct (Z.eqb_spec (idx n) (idx m)) as [E|E].
      { exfalso. apply Hi. rewrite E. auto. }
      assert (Hleft : match left n with
                      | Some l => find_from l (idx m)
                      | None => None
                      end = None).
      { destruct (left n) as [l|]; [|reflexivity].
        apply find_from_none. intros H. exact (Hlr _ H Hin). }
      rewrite Hleft, (IH c Hr Hm). reflexivity.
    + destruct (Z.eqb_spec (idx n) (idx m)) as [E|E].
      { exfalso. apply Hi. rewrite E. auto. }
      rewrite (IH c Hl Hm). reflexivity.
Qed.

(* ===================================================================== *)
(** ** What the builder builds *)
(* ===================================================================== *)

Lemma all_nodes_eq P n :
  all_nodes P n <->
  P n /\ on_child (all_nodes P) (left n) /\ on_child (all_nodes P) (right n).
Proof. destruct n as [v i z o [l|] [r|]]; simpl; tauto. Qed.

Lemma all_nodes_impl (P Q : Node -> Prop) n :
  (forall m, P m -> Q m) -> all_nodes P n -> all_nodes Q n.
Proof.
  intros H. induction n as [n IHl IHr] using Node_induction.
  rewrite !all_nodes_eq. intros (Hn & Hl & Hr). split; [auto|].
  destruct (left n), (right n); simpl in *; auto.
Qed.

Lemma grown_two_children attributes n : grown attributes n -> two_children n.
Proof. unfold grown, two_children. destruct (is_leaf n); [discriminate|tauto]. Qed.

Lemma grown_labelled_leaf attributes n : grown attributes n -> labelled_leaf n.
Proof.
  unfold grown, labelled_leaf. destruct (is_leaf n); [|discriminate].
  intros [H|H] _; rewrite H; discriminate.
Qed.

Lemma grown_more attributes attributes' n :
  (forall a, In a attributes -> In a attributes') ->
  grown attributes n -> grown attributes' n.
Proof.
  unfold grown. intros H. destruct (is_leaf n); [auto|].
  intros ((a & Ha & Hin) & Hc). split; [|exact Hc]. exists a. auto.
Qed.

(** A grown tree classifies every sample that has its attributes. *)
Lemma traverse_grown attributes sample n :
  (forall a, In a attributes -> exists v, sample a = Some v) ->
  all_nodes (grown attributes) n -> succeeds (traverse n sample).
Proof.
  intros Hs. induction n as [n IHl IHr] using Node_induction.
  rewrite all_nodes_eq. intros (Hn & Hl & Hr).
  rewrite traverse_eq. unfold grown in Hn.
  destruct (is_leaf n).
  - destruct Hn as [-> | ->]; eexists; reflexivity.
  - destruct Hn as ((a & Ha & Hin) & Hleft & Hright).
    rewrite Ha. simpl. destruct (Hs a Hin) as [v ->]. simpl.
    destruct (v =? 0).
    + destruct (left n) as [l|]; [|congruence]. apply IHl, Hl.
    + destruct (right n) as [r|]; [|congruence]. apply IHr, Hr.
Qed.

(** *** The two kinds of slot *)

Lemma root_slot t : root t = None -> slot t None None (fun n => n) [] (_counter t).
Proof.
  intros Hr. constructor; auto.
  intros label z o. unfold ID3._create_node, get_root, add_root. rewrite Hr.
  reflexivity.
Qed.

Lemma add_child_at b t rt q m v z o :
  root t = Some rt -> NoDup (indices rt) -> deref rt q = Some m ->
  add_child b t (idx m) v z o
  = Ok (_counter t + 1,
        mkBTree (Some (update rt q
                         (set_child b (Some (mkNode v (_counter t + 1) z o None None)))))
                (_counter t + 1)).
Proof.
  intros Hr Hn Hm. unfold add_child, _find_node, _find_node_recursive, update_root.
  rewrite Hr, (find_from_unique rt q m Hn Hm). reflexivity.
Qed.

Lemma child_slot t rt q m b :
  root t = Some rt -> NoDup (indices rt) ->
  (forall x, In x (indices rt) -> x <= _counter t) ->
  deref rt q = Some m ->
  slot t (Some (idx m)) (Some (branch_of b))
    (fun n => update rt q (set_child b (Some n))) (q ++ [b]) (_counter t + 1).
Proof.
  intros Hr Hn Hb Hm. constructor.
  - intros label z o. unfold ID3._create_node, add_left_child, add_right_child.
    destruct b; simpl; apply add_child_at; assumption.
  - intros n g. apply update_below.
  - intros n. rewrite (deref_app _ q [b] _ (deref_update rt q _ m Hm)).
    simpl. rewrite child_set_same. reflexivity.
  - intros n Hnn Hfresh. apply nodup_update; auto.
    intros x Hx Hx'. specialize (Hfresh x Hx). specialize (Hb x Hx'). lia.
  - intros n c Hc Hnc x Hx. apply in_indices_update in Hx.
    destruct Hx as [Hx|Hx]; [specialize (Hb x Hx); lia | auto].
Qed.

(** After a node is put into a slot, its own child slots. *)
Lemma slot_below t p bv plug here first n last b :
  slot t p bv plug here first ->
  idx n = first -> NoDup (indices n) ->
  (forall x, In x (indices n) -> first <= x <= last) ->
  slot (mkBTree (Some (plug n)) last) (Some first) (Some (branch_of b))
    (fun c => plug (set_child b (Some c) n)) (here ++ [b]) (last + 1).
Proof.
  intros S Hi Hn Hr.
  assert (Hlast : first <= last).
  { apply (Hr first). rewrite <- Hi, indices_children. left. reflexivity. }
  pose proof (child_slot (mkBTree (Some (plug n)) last) (plug n) here n b eq_refl
                (slot_nodup _ _ _ _ _ _ S n Hn (fun x Hx => proj1 (Hr x Hx)))
                (slot_bound _ _ _ _ _ _ S n last Hlast (fun x Hx => proj2 (Hr x Hx)))
                (slot_deref _ _ _ _ _ _ S n)) as C.
  rewrite Hi in C. simpl in C.
  destruct C as [Cc Cu Cd Cn Cb]. constructor.
  - intros label z o. rewrite Cc, (slot_update _ _ _ _ _ _ S). reflexivity.
  - intros c g. rewrite <- !(slot_update _ _ _ _ _ _ S). apply Cu.
  - intros c. rewrite <- (slot_update _ _ _ _ _ _ S). apply Cd.
  - intros c Hc1 Hc2. rewrite <- (slot_update _ _ _ _ _ _ S). apply Cn; assumption.
  - intros c k Hk Hc x. rewrite <- (slot_update _ _ _ _ _ _ S). apply Cb; assumption.
Qed.

Lemma built_leaf attributes label first z o :
  label = "0"%string \/ label = "1"%string ->
  built attributes first first (mkNode (Some label) first z o None None).
Proof.
  intros Hl. split; [reflexivity|]. split.
  { simpl. constructor; [simpl; tauto | constructor]. }
  split.
  { simpl. intros x [<-|[]]. lia. }
  simpl. unfold grown. simpl. destruct Hl as [-> | ->]; auto.
Qed.

Lemma majority_label z o :
  ID3.majority z o = "0"%string \/ ID3.majority z o = "1"%string.
Proof. unfold ID3.majority. destruct (o >=? z); auto. Qed.

Lemma built_more attributes attributes' first last sub :
  (forall a, In a attributes -> In a attributes') ->
  built attributes first last sub -> built attributes' first last sub.
Proof.
  intros H (Hi & Hn & Hr & Hg). repeat split; auto.
  - apply Hr; assumption.
  - apply Hr; assumption.
  - eapply all_nodes_impl; [|exact Hg]. intros m. apply grown_more, H.
Qed.

Lemma built_first_last attributes first last sub :
  built attributes first last sub -> first <= last.
Proof.
  intros (Hi & _ & Hr & _). apply (Hr first).
  rewrite <- Hi, indices_children. left. reflexivity.
Qed.

(** A split whose two subtrees are built, with indices that follow its
    own and then each other, is built. *)
Lemma built_inner attributes best first z o sub0 last0 sub1 last1 :
  In best attributes ->
  built attributes (first + 1) last0 sub0 ->
  built attributes (last0 + 1) last1 sub1 ->
  built attributes first last1 (mkNode (Some best) first z o (Some sub0) (Some sub1)).
Proof.
  intros Hb (Hi0 & Hn0 & Hr0 & Hg0) (Hi1 & Hn1 & Hr1 & Hg1).
  pose proof (built_first_last _ _ _ _ (conj Hi0 (conj Hn0 (conj Hr0 Hg0)))) as H0.
  pose proof (built_first_last _ _ _ _ (conj Hi1 (conj Hn1 (conj Hr1 Hg1)))) as H1.
  split; [reflexivity|]. split.
  { simpl. apply NoDup_cons_iff. split.
    - rewrite in_app_iff. intros [H|H]; [apply Hr0 in H | apply Hr1 in H]; lia.
    - apply NoDup_app; auto. intros x Hx Hx'. apply Hr0 in Hx. apply Hr1 in Hx'. lia. }
  split.
  { simpl. intros x [<-|H]; [lia|]. apply in_app_iff in H.
    destruct H as [H|H]; [apply Hr0 in H | apply Hr1 in H]; lia. }
  simpl. split; [|split; assumption].
  unfold grown. simpl. split; [eauto|split; discriminate].
Qed.

Section Builder.

Variable impurity : Z -> Z -> result float.
Hypothesis impurity_total : forall p n, succeeds (impurity p n).

Lemma leaf_in_slot attributes t p b plug here first label z o :
  slot t p b plug here first ->
  label = "0"%string \/ label = "1"%string ->
  exists sub last,
    Some (r <- ID3._create_node t p b label z o ;; Ok (snd r))
    = Some (Ok (mkBTree (Some (plug sub)) last)) /\
    built attributes first last sub.
Proof.
  intros S Hl. exists (mkNode (Some label) first z o None None), first.
  rewrite (slot_create _ _ _ _ _ _ S). split; [reflexivity|].
  apply built_leaf, Hl.
Qed.

Lemma grow_branch_in_slot (recur : recursion) d best rest z o cur t b plug here first :
  builds recur rest ->
  has_column d TARGET_COLUMN = true -> has_column d best = true ->
  (forall a, In a rest -> has_column d a = true) ->
  slot t (Some cur) (Some (branch_of b)) plug here first ->
  exists sub last,
    ID3.grow_branch recur d best rest z o cur t (branch_of b)
    = Some (Ok (mkBTree (Some (plug sub)) last)) /\
    built rest first last sub.
Proof.
  intros IH Ht Hb Hrest S. unfold ID3.grow_branch.
  destruct (where_eq d best (branch_of b)) as [s|e] eqn:Hs.
  2:{ unfold where_eq in Hs. rewrite Hb in Hs. discriminate. }
  destruct (empty s).
  - eapply leaf_in_slot; [exact S | apply majority_label].
  - eapply (IH s); [| |exact S].
    + rewrite (has_column_where _ _ _ _ _ Hs). exact Ht.
    + intros a Ha. rewrite (has_column_where _ _ _ _ _ Hs). auto.
Qed.

Lemma class_count_positive d v n :
  ID3.class_count d v = Ok n -> n <> 0 -> rows d <> [].
Proof.
  unfold ID3.class_count, where_eq.
  destruct (has_column d TARGET_COLUMN); [|discriminate]. simpl.
  intros [= <-] Hn Hr. apply Hn. unfold len. simpl. rewrite Hr. reflexivity.
Qed.

Lemma build_body_in_slot (recur : recursion) attributes :
  (forall best, In best attributes -> builds recur (ID3.remaining attributes best)) ->
  builds (ID3.build_body impurity recur) attributes.
Proof using impurity_total.
  intros IH d t p b plug here first Ht Ha S. unfold ID3.build_body.
  destruct (class_count_succeeds d 1 Ht) as [ones Hones].
  destruct (class_count_succeeds d 0 Ht) as [zeroes Hzeroes].
  rewrite Hones, Hzeroes. simpl.
  destruct (Z.eqb_spec ones 0) as [E1|E1];
    [eapply leaf_in_slot; [exact S | auto]|].
  destruct (zeroes =? 0); [eapply leaf_in_slot; [exact S | auto]|].
  destruct attributes as [|a0 rest0] eqn:Eattr;
    [eapply leaf_in_slot; [exact S | apply majority_label]|].
  rewrite <- Eattr in *.
  destruct (impurity_total ones zeroes) as [total ->]. simpl.
  assert (Hrows : rows d <> []) by exact (class_count_positive d 1 ones Hones E1).
  assert (Hne : attributes <> []) by (rewrite Eattr; discriminate).
  destruct (selects_first_max_member _ _ _
              (gain_selects_first_max impurity impurity_total total d attributes
                 Hrows Hne Ht Ha)) as (best & Hbest & Hin).
  rewrite Hbest. simpl.
  rewrite (slot_create _ _ _ _ _ _ S). simpl.
  set (n0 := mkNode (Some best) first zeroes ones None None).
  (* the left branch *)
  assert (S0 := slot_below t p b plug here first n0 first false S eq_refl
                  ltac:(simpl; constructor; [simpl; tauto | constructor])
                  ltac:(simpl; intros x [<-|[]]; lia)).
  assert (Hrest : forall a, In a (ID3.remaining attributes best) ->
                            has_column d a = true)
    by (intros a H; apply Ha; eapply remaining_subset; eauto).
  destruct (grow_branch_in_slot recur d best _ zeroes ones first _ false _ _ _
              (IH best Hin) Ht (Ha best Hin) Hrest S0)
    as (sub0 & last0 & G0 & B0).
  unfold branch_of in G0. rewrite G0.
  (* the right branch *)
  set (n1 := set_child false (Some sub0) n0).
  pose proof (built_first_last _ _ _ _ B0) as Hl0.
  destruct B0 as (Hi0 & Hn0 & Hr0 & Hg0).
  assert (S1 := slot_below t p b plug here first n1 last0 true S eq_refl
                  ltac:(simpl; apply NoDup_cons_iff; split;
                        [rewrite app_nil_r; intros H; apply Hr0 in H; lia
                        |rewrite app_nil_r; exact Hn0])
                  ltac:(simpl; intros x [<-|H]; [lia|];
                        rewrite app_nil_r in H; apply Hr0 in H; lia)).
  destruct (grow_branch_in_slot recur d best _ zeroes ones first _ true _ _ _
              (IH best Hin) Ht (Ha best Hin) Hrest S1)
    as (sub1 & last1 & G1 & B1).
  unfold branch_of in G1. rewrite G1.
  exists (mkNode (Some best) first zeroes ones (Some sub0) (Some sub1)), last1.
  split; [reflexivity|].
  apply (built_inner _ _ _ _ _ sub0 last0 sub1 last1); [exact Hin| |].
  - eapply built_more; [|exact (conj Hi0 (conj Hn0 (conj Hr0 Hg0)))].
    intros a. apply remaining_subset.
  - eapply built_more; [|exact B1]. intros a. apply remaining_subset.
Qed.

Lemma build_tree_in_slot fuel :
  forall attributes, (List.length attributes < fuel)%nat ->
    builds (ID3._build_tree impurity fuel) attributes.
Proof using impurity_total.
  induction fuel as [|fuel IH]; intros attributes Hlen; [lia|].
  change (ID3._build_tree impurity (S fuel))
    with (ID3.build_body impurity (ID3._build_tree impurity fuel)).
  apply build_body_in_slot. intros best Hin. apply IH.
  pose proof (remaining_shorter attributes best Hin). lia.
Qed.

(** [construct_tree] on a frame with the target column returns a tree
    whose root is built from the attribute columns. *)
Lemma construct_tree_built d :
  has_column d TARGET_COLUMN = true ->
  exists rt last,
    ID3.construct_tree impurity d = Some (Ok (mkBTree (Some rt) last)) /\
    built (attributes_of d) 0 last rt.
Proof using impurity_total.
  intros Ht. unfold ID3.construct_tree, drop_column. rewrite Ht. simpl.
  apply (build_tree_in_slot (S (List.length (attributes_of d))) (attributes_of d)
           ltac:(lia) d Tree.new None None (fun n => n) [] 0 Ht).
  - intros a Ha. unfold attributes_of in Ha. apply filter_In in Ha.
    destruct Ha as [Ha _]. unfold has_column. apply existsb_exists.
    exists a. split; [exact Ha | apply String.eqb_refl].
  - exact (root_slot Tree.new eq_refl).
Qed.

End Builder.

Lemma built_strict_classifier d rt last :
  built (attributes_of d) 0 last rt ->
  strict_classifier d (Some (Ok (mkBTree (Some rt) last))).
Proof.
  intros (_ & Hn & _ & Hg). exists (mkBTree (Some rt) last), rt.
  split; [reflexivity|]. split; [reflexivity|].
  split; [eapply all_nodes_impl; [|exact Hg]; apply grown_two_children|].
  split; [exact Hn|].
  split; [eapply all_nodes_impl; [|exact Hg]; apply grown_labelled_leaf|].
  intros sample Hs. eapply traverse_grown; eauto.
Qed.

(** C2. For a dataset that has the target column, [construct_tree] of
    either module returns a tree with a root in which every node that is
    not a leaf has both children, no two nodes share an index and every
    leaf has a label; [traverse] from its root succeeds for every sample
    that gives a value to each attribute of the dataset.  (The dataset
    need not have rows, nor its cells and the sample's values be 0 or 1.) *)
Theorem constructed_tree_is_strict
    (math_log : float -> float -> float) (dataset : DataFrame) :
  has_column dataset TARGET_COLUMN = true ->
  strict_classifier dataset (Entropy.construct_tree math_log dataset) /\
  strict_classifier dataset (Variance.construct_tree dataset).
Proof.
  intros Ht. split.
  - destruct (construct_tree_built (Entropy.entropy math_log)
                (entropy_total math_log) dataset Ht) as (rt & last & E & B).
    unfold Entropy.construct_tree. rewrite E.
    eapply built_strict_classifier; eauto.
  - destruct (construct_tree_built Variance.variance_impurity
                variance_impurity_total dataset Ht) as (rt & last & E & B).
    unfold Variance.construct_tree. rewrite E.
    eapply built_strict_classifier; eauto.
Qed.

Lemma constructed_tree_is_strict_witness :
  strict_classifier example_frame (Entropy.construct_tree (fun x _ => x) example_frame) /\
  strict_classifier example_frame (Variance.construct_tree example_frame).
Proof.
  apply (constructed_tree_is_strict (fun x _ => x) example_frame). reflexivity.
Defined.

(* ===================================================================== *)
(** ** Accuracy *)
(* ===================================================================== *)

Lemma count_matches_succeeds root predictors rs :
  (forall r, In r rs -> succeeds (traverse root (series predictors r))) ->
  forall m, exists m', ID3.count_matches root predictors rs m = Ok m' /\ m <= m'.
Proof.
  induction rs as [|r rs IH]; intros H m; simpl.
  - exists m. split; [reflexivity|lia].
  - destruct (H r (or_introl eq_refl)) as [p ->]. simpl.
    destruct (IH (fun r' Hr => H r' (or_intror Hr))
                (if p =? r TARGET_COLUMN then m + 1 else m)) as (m' & -> & Hm).
    exists m'. split; [reflexivity|]. destruct (p =? r TARGET_COLUMN); lia.
Qed.

Lemma count_matches_rows root predictors rs m m' :
  ID3.count_matches root predictors rs m = Ok m' ->
  forall r, In r rs -> succeeds (traverse root (series predictors r)).
Proof.
  revert m. induction rs as [|r rs IH]; intros m; simpl; [tauto|].
  destruct (traverse root (series predictors r)) as [p|e] eqn:T; [|discriminate].
  simpl. intros H r' [<-|Hr]; [rewrite T; eexists; reflexivity|].
  eapply IH; eauto.
Qed.

(** When the accuracy is defined. *)
Lemma accuracy_defined d t a :
  ID3.calculate_accuracy d t = Ok a ->
  exists rt, root t = Some rt /\ classifies d rt /\ rows d <> [] /\
             has_column d TARGET_COLUMN = true /\ number a.
Proof.
  unfold ID3.calculate_accuracy, get_root.
  destruct (drop_column d TARGET_COLUMN) as [predictors|e] eqn:D; [|discriminate].
  simpl. destruct (root t) as [rt|]; [|discriminate].
  destruct (ID3.count_matches rt predictors (rows d) 0) as [m|e] eqn:C;
    [|discriminate].
  simpl. destruct (int_truediv m (len d)) as [q|e] eqn:Q; [|discriminate].
  simpl. intros [= <-]. exists rt. split; [reflexivity|].
  assert (Hlen : len d <> 0).
  { unfold int_truediv in Q. destruct (Z.eqb_spec (len d) 0); [discriminate|auto]. }
  split; [|split; [|split]].
  - intros predictors' r D' Hr. rewrite D in D'. injection D' as <-.
    eapply count_matches_rows; eauto.
  - intros H. apply Hlen, len_zero, H.
  - unfold drop_column in D. destruct (has_column d TARGET_COLUMN);
      [reflexivity | discriminate].
  - apply mul_100_number. apply (int_truediv_number m (len d)); [| |exact Q].
    + destruct (count_matches_succeeds rt predictors (rows d)
                  (count_matches_rows _ _ _ _ _ C) 0) as (m' & C' & Hm).
      rewrite C in C'. injection C' as <-. exact Hm.
    + unfold len in *. lia.
Qed.

Lemma accuracy_succeeds d t rt :
  root t = Some rt -> classifies d rt -> rows d <> [] ->
  has_column d TARGET_COLUMN = true ->
  succeeds (ID3.calculate_accuracy d t).
Proof.
  intros Hr Hc Hrows Ht. unfold ID3.calculate_accuracy, get_root.
  destruct (drop_column d TARGET_COLUMN) as [predictors|e] eqn:D.
  2:{ unfold drop_column in D. rewrite Ht in D. discriminate. }
  simpl. rewrite Hr.
  destruct (count_matches_succeeds rt predictors (rows d)
              (fun r Hin => Hc predictors r D Hin) 0) as (m & -> & _).
  simpl. unfold int_truediv.
  destruct (Z.eqb_spec (len d) 0) as [E|E]; [apply len_zero in E; contradiction|].
  simpl. eexists. reflexivity.
Qed.

(* ===================================================================== *)
(** ** Collapsing a node *)
(* ===================================================================== *)

Lemma is_leaf_set_child b c n : is_leaf (set_child b (Some c) n) = false.
Proof. destruct b, n as [v i z o [l|] [r|]]; reflexivity. Qed.

Lemma is_leaf_child b n c : child b n = Some c -> is_leaf n = false.
Proof.
  destruct b, n as [v i z o [l|] [r|]]; simpl; intros H; try reflexivity;
    discriminate.
Qed.

Lemma traverse_collapse n sample : succeeds (traverse (Pruning.collapse n) sample).
Proof.
  rewrite traverse_eq. simpl. unfold ID3.majority.
  destruct (ones n >=? zeroes n); eexists; reflexivity.
Qed.

(** Collapsing any node keeps every successful classification
    successful. *)
Lemma traverse_update_collapse sample p :
  forall n, succeeds (traverse n sample) ->
            succeeds (traverse (update n p Pruning.collapse) sample).
Proof.
  induction p as [|b p IH]; intros n H; [exact (traverse_collapse n sample)|].
  simpl.
  destruct (child b n) as [c|] eqn:Hc; [|exact H].
  rewrite traverse_eq in H. rewrite traverse_eq, is_leaf_set_child.
  rewrite (is_leaf_child b n c Hc) in H.
  replace (value (set_child b (Some (update c p Pruning.collapse)) n))
    with (value n) by (destruct b; reflexivity).
  destruct (getitem sample (value n)) as [v|e]; [|exact H]. simpl in *.
  destruct b; simpl in *; rewrite Hc in H.
  - destruct (v =? 0); [exact H | apply IH, H].
  - destruct (v =? 0); [apply IH, H | exact H].
Qed.

Lemma classifies_update_collapse d rt p :
  classifies d rt -> classifies d (update rt p Pruning.collapse).
Proof.
  intros H predictors r D Hr. apply traverse_update_collapse. eapply H; eauto.
Qed.

(* ===================================================================== *)
(** ** The store during pruning *)
(* ===================================================================== *)

Lemma length_write h l t : List.length (Pruning.write h l t) = List.length h.
Proof.
  revert l. induction h as [|x h IH]; intros [|l]; simpl; auto.
Qed.

Lemma nth_error_write_same h l t :
  (l < List.length h)%nat -> nth_error (Pruning.write h l t) l = Some t.
Proof.
  revert l. induction h as [|x h IH]; intros [|l]; simpl; intros H;
    try lia; [reflexivity|]. apply IH. lia.
Qed.

Lemma nth_error_write_other h l l' t :
  l' <> l -> nth_error (Pruning.write h l t) l' = nth_error h l'.
Proof.
  revert l l'. induction h as [|x h IH]; intros [|l] [|l'] H; simpl; auto;
    try congruence.
Qed.

Lemma tree_at_live w l t : tree_at w l = Some t -> (l < List.length (Pruning.heap w))%nat.
Proof. unfold tree_at. intros H. apply nth_error_Some. congruence. Qed.

Lemma load_live w l t :
  tree_at w l = Some t -> Pruning.load l w = (Ok t, w).
Proof.
  unfold tree_at, Pruning.load. intros H.
  rewrite (nth_error_nth _ _ Tree.new H). reflexivity.
Qed.

Lemma deepcopy_live w l t :
  tree_at w l = Some t ->
  exists w', Pruning.deepcopy l w = (Ok (List.length (Pruning.heap w)), w') /\
             Pruning.heap w' = Pruning.heap w ++ [t] /\
             Pruning.tape w' = Pruning.tape w.
Proof.
  unfold tree_at, Pruning.deepcopy. intros H.
  rewrite (nth_error_nth _ _ Tree.new H). eexists. split; [reflexivity|].
  split; reflexivity.
Qed.

Lemma draw_heap w : exists x w',
  Pruning.draw w = (Ok x, w') /\ Pruning.heap w' = Pruning.heap w.
Proof.
  unfold Pruning.draw. destruct (Pruning.tape w); eexists; eexists; split;
    reflexivity.
Qed.

Section Pruned.

Variable validation : DataFrame.

(** The inner loop ends without an exception, leaves every other object
    as it was, and leaves a candidate that still classifies every row. *)
Lemma prune_rounds_spec n :
  forall candidate w t rt,
    tree_at w candidate = Some t -> root t = Some rt -> classifies validation rt ->
    exists w' t' rt',
      Pruning.prune_rounds n candidate w = (Ok tt, w') /\
      tree_at w' candidate = Some t' /\ root t' = Some rt' /\
      classifies validation rt' /\
      List.length (Pruning.heap w') = List.length (Pruning.heap w) /\
      (forall l, l <> candidate -> tree_at w' l = tree_at w l).
Proof.
  induction n as [|n IH]; intros candidate w t rt Ht Hr Hc.
  { exists w, t, rt. simpl. unfold Pruning.ret. auto 10. }
  simpl. unfold Pruning.mbind at 1. rewrite (load_live w candidate t Ht).
  destruct (get_non_leaves t) as [|p ps] eqn:Hnl.
  { exists w, t, rt. unfold Pruning.ret. auto 10. }
  unfold Pruning.mbind at 1. unfold Pruning.choice, Pruning.mbind at 1.
  destruct (draw_heap w) as (x & w1 & -> & Hw1).
  unfold Pruning.ret. unfold Pruning.mbind at 1. unfold Pruning.store at 1.
  set (node_to_prune := nth (x mod List.length (p :: ps)) (p :: ps) []).
  set (t1 := mkBTree (update_root t node_to_prune Pruning.collapse) (_counter t)).
  set (w2 := Pruning.mkWorld (Pruning.write (Pruning.heap w1) candidate t1)
               (Pruning.tape w1)).
  pose proof (tree_at_live w candidate t Ht) as Hlive.
  assert (Ht2 : tree_at w2 candidate = Some t1).
  { unfold tree_at, w2. simpl. apply nth_error_write_same. rewrite Hw1. exact Hlive. }
  assert (Hr2 : root t1 = Some (update rt node_to_prune Pruning.collapse)).
  { unfold t1, update_root. simpl. rewrite Hr. reflexivity. }
  destruct (IH candidate w2 t1 _ Ht2 Hr2
              (classifies_update_collapse validation rt node_to_prune Hc))
    as (w' & t' & rt' & Hrun & Ht' & Hr' & Hc' & Hlen & Hother).
  exists w', t', rt'. split; [exact Hrun|]. split; [exact Ht'|].
  split; [exact Hr'|]. split; [exact Hc'|]. split.
  - rewrite Hlen. unfold w2. simpl. rewrite length_write, Hw1. reflexivity.
  - intros l Hl. rewrite (Hother l Hl). unfold tree_at, w2. simpl.
    rewrite nth_error_write_other by exact Hl. rewrite Hw1. reflexivity.
Qed.

Variable base_tree : Pruning.loc.
Variable base : BTree.
Variable base_accuracy : float.
Hypothesis base_defined : ID3.calculate_accuracy validation base = Ok base_accuracy.

(** The outer loop returns a tree at least as accurate as the base tree
    and leaves every object of the store as it was. *)
Lemma trials_spec n k :
  forall w best_tree best current_best,
    tree_at w base_tree = Some base ->
    tree_at w best_tree = Some best ->
    ID3.calculate_accuracy validation best = Ok current_best ->
    ge current_best base_accuracy = true ->
    exists w' result pruned accuracy,
      Pruning.trials n k validation base_tree best_tree current_best w
        = (Ok result, w') /\
      tree_at w' result = Some pruned /\
      ID3.calculate_accuracy validation pruned = Ok accuracy /\
      ge accuracy base_accuracy = true /\
      untouched w w'.
Proof using base_defined.
  induction n as [|n IH]; intros w best_tree best current_best Hbase Hbest Hacc Hge.
  { exists w, best_tree, best, current_best. simpl. unfold Pruning.ret.
    repeat split; auto. intros l t H. exact H. }
  simpl. unfold Pruning.mbind at 1.
  destruct (deepcopy_live w base_tree base Hbase) as (w1 & -> & Hh1 & Htape1).
  set (candidate := List.length (Pruning.heap w)).
  assert (Hold1 : forall l t, tree_at w l = Some t -> tree_at w1 l = Some t).
  { intros l t H. unfold tree_at in *. rewrite Hh1.
    rewrite nth_error_app1; [exact H | apply nth_error_Some; congruence]. }
  assert (Hcand1 : tree_at w1 candidate = Some base).
  { unfold tree_at. rewrite Hh1. rewrite nth_error_app2 by (unfold candidate; lia).
    unfold candidate. rewrite Nat.sub_diag. reflexivity. }
  unfold Pruning.mbind at 1. unfold Pruning.randint, Pruning.mbind at 1.
  destruct (draw_heap w1) as (x & w2 & -> & Hh2).
  unfold Pruning.ret.
  assert (Hsame2 : forall l, tree_at w2 l = tree_at w1 l)
    by (intros l; unfold tree_at; rewrite Hh2; reflexivity).
  destruct (accuracy_defined validation base base_accuracy base_defined)
    as (rt & Hrt & Hcl & Hrows & Htarget & _).
  unfold Pruning.mbind at 1.
  destruct (prune_rounds_spec
              (Z.to_nat (Z.max (1 + Z.of_nat x mod (Z.max k 1 - 1 + 1)) 1))
              candidate w2 base rt
              ltac:(rewrite Hsame2; exact Hcand1) Hrt Hcl)
    as (w3 & c & rc & -> & Hc3 & Hrc & Hclc & Hlen3 & Hother3).
  unfold Pruning.mbind at 1. rewrite (load_live w3 candidate c Hc3).
  unfold Pruning.mbind at 1. unfold Pruning.lift at 1.
  destruct (accuracy_succeeds validation c rc Hrc Hclc Hrows Htarget)
    as [candidate_accuracy Hca].
  rewrite Hca.
  assert (Hold3 : forall l t, tree_at w l = Some t -> tree_at w3 l = Some t).
  { intros l t H. rewrite Hother3.
    - rewrite Hsame2. apply Hold1, H.
    - pose proof (tree_at_live w l t H). unfold candidate. lia. }
  destruct (gt candidate_accuracy current_best) eqn:G.
  - destruct (IH w3 candidate c candidate_accuracy (Hold3 _ _ Hbase) Hc3 Hca
                (gt_ge_trans _ _ _ G Hge))
      as (w' & result & pruned & accuracy & Hrun & Hres & Hacc' & Hge' & Hun).
    exists w', result, pruned, accuracy. repeat split; auto.
    intros l t H. apply Hun, Hold3, H.
  - destruct (IH w3 best_tree best current_best (Hold3 _ _ Hbase)
                (Hold3 _ _ Hbest) Hacc Hge)
      as (w' & result & pruned & accuracy & Hrun & Hres & Hacc' & Hge' & Hun).
    exists w', result, pruned, accuracy. repeat split; auto.
    intros l t H. apply Hun, Hold3, H.
Qed.

Lemma post_pruning_spec l k w :
  tree_at w base_tree = Some base ->
  exists w' result pruned accuracy,
    Pruning.post_pruning l k validation base_tree w = (Ok result, w') /\
    tree_at w' result = Some pruned /\
    ID3.calculate_accuracy validation pruned = Ok accuracy /\
    ge accuracy base_accuracy = true /\
    untouched w w'.
Proof using base_defined.
  intros Hbase. unfold Pruning.post_pruning. unfold Pruning.mbind at 1.
  destruct (deepcopy_live w base_tree base Hbase) as (w1 & -> & Hh1 & Htape1).
  set (best_tree := List.length (Pruning.heap w)).
  assert (Hold1 : forall l t, tree_at w l = Some t -> tree_at w1 l = Some t).
  { intros l0 t H. unfold tree_at in *. rewrite Hh1.
    rewrite nth_error_app1; [exact H | apply nth_error_Some; congruence]. }
  assert (Hbest1 : tree_at w1 best_tree = Some base).
  { unfold tree_at. rewrite Hh1. rewrite nth_error_app2 by (unfold best_tree; lia).
    unfold best_tree. rewrite Nat.sub_diag. reflexivity. }
  unfold Pruning.mbind at 1. rewrite (load_live w1 best_tree base Hbest1).
  unfold Pruning.mbind at 1. unfold Pruning.lift at 1. rewrite base_defined.
  destruct (accuracy_defined validation base base_accuracy base_defined)
    as (_ & _ & _ & _ & _ & Hnum).
  destruct (trials_spec (Z.to_nat (Z.max l 1)) k w1 best_tree base base_accuracy
              (Hold1 _ _ Hbase) Hbest1 base_defined (ge_refl _ Hnum))
    as (w' & result & pruned & accuracy & Hrun & Hres & Hacc & Hge & Hun).
  exists w', result, pruned, accuracy. repeat split; auto.
  intros l0 t H. apply Hun, Hold1, H.
Qed.

End Pruned.

(** C1. When the accuracy of the base tree on the validation set is
    defined, [post_pruning] returns, for every [l], [k] and every tape of
    random draws, a tree whose accuracy on the validation set is defined
    and is [>=] that of the base tree (which is the same object after the
    call as before). *)
Theorem pruning_never_decreases_validation_accuracy
    (l k : Z) (validation : DataFrame) (base_tree : Pruning.loc) (w : Pruning.world)
    (base : BTree) (base_accuracy : float) :
  tree_at w base_tree = Some base ->
  ID3.calculate_accuracy validation base = Ok base_accuracy ->
  exists w' result pruned accuracy,
    Pruning.post_pruning l k validation base_tree w = (Ok result, w') /\
    tree_at w' result = Some pruned /\
    ID3.calculate_accuracy validation pruned = Ok accuracy /\
    ge accuracy base_accuracy = true /\
    tree_at w' base_tree = Some base.
Proof.
  intros Hbase Hacc.
  destruct (post_pruning_spec validation base_tree base base_accuracy Hacc l k w Hbase)
    as (w' & result & pruned & accuracy & Hrun & Hres & Hacc' & Hge & Hun).
  exists w', result, pruned, accuracy. repeat split; auto.
Qed.

Lemma pruning_never_decreases_validation_accuracy_witness :
  exists w' result pruned accuracy,
    Pruning.post_pruning 3 2 example_frame 0%nat example_world = (Ok result, w') /\
    tree_at w' result = Some pruned /\
    ID3.calculate_accuracy example_frame pruned = Ok accuracy /\
    ge accuracy seventy_five = true /\
    tree_at w' 0%nat = Some stump_tree.
Proof.
  apply (pruning_never_decreases_validation_accuracy 3 2 example_frame 0%nat
           example_world stump_tree seventy_five); reflexivity.
Defined.

(* ===================================================================== *)
(** ** The base tree is not written to *)
(* ===================================================================== *)

Lemma untouched_refl w : untouched w w.
Proof. intros l t H. exact H. Qed.

Lemma untouched_trans w1 w2 w3 : untouched w1 w2 -> untouched w2 w3 -> untouched w1 w3.
Proof. intros H1 H2 l t H. apply H2, H1, H. Qed.

Lemma deepcopy_frame l w :
  fst (Pruning.deepcopy l w) = Ok (List.length (Pruning.heap w)) /\
  untouched w (snd (Pruning.deepcopy l w)) /\
  (List.length (Pruning.heap w) < List.length (Pruning.heap (snd (Pruning.deepcopy l w))))%nat.
Proof.
  unfold Pruning.deepcopy. simpl. split; [reflexivity|]. split.
  - intros a t H. unfold tree_at in *. simpl.
    rewrite nth_error_app1; [exact H | apply nth_error_Some; congruence].
  - rewrite length_app. simpl. lia.
Qed.

(** The inner loop writes to the candidate only. *)
Lemma prune_rounds_frame n :
  forall candidate w l,
    l <> candidate ->
    tree_at (snd (Pruning.prune_rounds n candidate w)) l = tree_at w l.
Proof.
  induction n as [|n IH]; intros candidate w l Hl; [reflexivity|].
  simpl. unfold Pruning.mbind at 1. unfold Pruning.load at 1.
  destruct (get_non_leaves _) as [|p ps]; [reflexivity|].
  unfold Pruning.mbind at 1. unfold Pruning.choice, Pruning.mbind at 1.
  destruct (draw_heap w) as (x & w1 & -> & Hw1).
  unfold Pruning.ret. unfold Pruning.mbind at 1. unfold Pruning.store at 1.
  rewrite IH by exact Hl. unfold tree_at. simpl.
  rewrite nth_error_write_other by exact Hl. rewrite Hw1. reflexivity.
Qed.

Lemma prune_rounds_length n :
  forall candidate w,
    List.length (Pruning.heap (snd (Pruning.prune_rounds n candidate w)))
    = List.length (Pruning.heap w).
Proof.
  induction n as [|n IH]; intros candidate w; [reflexivity|].
  simpl. unfold Pruning.mbind at 1. unfold Pruning.load at 1.
  destruct (get_non_leaves _) as [|p ps]; [reflexivity|].
  unfold Pruning.mbind at 1. unfold Pruning.choice, Pruning.mbind at 1.
  destruct (draw_heap w) as (x & w1 & -> & Hw1).
  unfold Pruning.ret. unfold Pruning.mbind at 1. unfold Pruning.store at 1.
  rewrite IH. simpl. rewrite length_write, Hw1. reflexivity.
Qed.

(** A trial works on a new object; the objects of the store stay. *)
Lemma trials_frame n k validation base_tree :
  forall best_tree current_best w,
    untouched w
      (snd (Pruning.trials n k validation base_tree best_tree current_best w)).
Proof.
  induction n as [|n IH]; intros best_tree current_best w; [apply untouched_refl|].
  simpl. unfold Pruning.mbind at 1.
  destruct (deepcopy_frame base_tree w) as (Hloc & Hun1 & Hlen1).
  destruct (Pruning.deepcopy base_tree w) as [r1 w1]. simpl in Hloc, Hun1, Hlen1.
  subst r1. set (candidate := List.length (Pruning.heap w)) in *.
  unfold Pruning.mbind at 1. unfold Pruning.randint, Pruning.mbind at 1.
  destruct (draw_heap w1) as (x & w2 & -> & Hh2).
  unfold Pruning.ret. unfold Pruning.mbind at 1.
  set (rounds := Z.to_nat _).
  pose proof (prune_rounds_frame rounds candidate w2) as Hfr.
  destruct (Pruning.prune_rounds rounds candidate w2) as [r3 w3]. simpl in Hfr.
  assert (Hun3 : untouched w w3).
  { intros l t H. rewrite Hfr.
    - unfold tree_at. rewrite Hh2. apply Hun1, H.
    - pose proof (tree_at_live w l t H). unfold candidate. lia. }
  destruct r3 as [[]|e]; [|exact Hun3].
  unfold Pruning.mbind at 1. unfold Pruning.load at 1.
  unfold Pruning.mbind at 1. unfold Pruning.lift at 1.
  destruct (ID3.calculate_accuracy validation _) as [a|e]; [|exact Hun3].
  destruct (gt a current_best); eapply untouched_trans; try exact Hun3; apply IH.
Qed.

Lemma post_pruning_frame l k validation base_tree w :
  untouched w (snd (Pruning.post_pruning l k validation base_tree w)).
Proof.
  unfold Pruning.post_pruning. unfold Pruning.mbind at 1.
  destruct (deepcopy_frame base_tree w) as (Hloc & Hun1 & _).
  destruct (Pruning.deepcopy base_tree w) as [r1 w1]. simpl in Hloc, Hun1.
  subst r1. unfold Pruning.mbind at 1. unfold Pruning.load at 1.
  unfold Pruning.mbind at 1. unfold Pruning.lift at 1.
  destruct (ID3.calculate_accuracy validation _) as [a|e]; [|exact Hun1].
  eapply untouched_trans; [exact Hun1 | apply trials_frame].
Qed.

(** C9. Whatever [l], [k], the validation set and the random draws, and
    whether the call returns or raises, after [post_pruning] the base tree
    object holds the tree it held before -- root, structure, labels,
    indices, counts and counter -- and so does every other tree object
    that existed before the call: the writes go to the copies. *)
Theorem post_pruning_leaves_base_tree
    (l k : Z) (validation : DataFrame) (base_tree : Pruning.loc) (w : Pruning.world)
    (base : BTree) :
  tree_at w base_tree = Some base ->
  let w' := snd (Pruning.post_pruning l k validation base_tree w) in
  tree_at w' base_tree = Some base /\ untouched w w'.
Proof.
  intros Hbase w'. pose proof (post_pruning_frame l k validation base_tree w) as H.
  split; [apply H, Hbase | exact H].
Qed.

Lemma post_pruning_leaves_base_tree_witness :
  let w' := snd (Pruning.post_pruning 3 2 example_frame 0%nat example_world) in
  tree_at w' 0%nat = Some stump_tree /\ untouched example_world w'.
Proof.
  apply (post_pruning_leaves_base_tree 3 2 example_frame 0%nat example_world
           stump_tree).
  reflexivity.
Defined.

(* ===================================================================== *)
(** ** The specification's example, run *)
(* ===================================================================== *)

(** A quotient of integers is rounded once, from the exact quotient. *)
Example quotient_is_rounded_once :
  int_truediv (2 ^ 53 + 1) (2 ^ 53 + 3)
  = Ok (S754_finite false 9007199254740990 (-53)).
Proof. vm_compute. reflexivity. Qed.

Example variance_impurity_of_example :
  Variance.variance_impurity 3 1 = Ok three_sixteenths.
Proof. vm_compute. reflexivity. Qed.

(** Both attributes have the same gain; the first is chosen. *)
Example variance_gain_tie :
  ID3.gains_of Variance.variance_impurity three_sixteenths example_frame
    ["A"; "B"]%string
  = Ok [S754_finite false 4503599627370496 (-56);
        S754_finite false 4503599627370496 (-56)] /\
  Variance._variance_gain three_sixteenths example_frame ["A"; "B"]%string
  = Ok "A"%string.
Proof. split; vm_compute; reflexivity. Qed.

Example variance_builds_example_tree :
  Variance.construct_tree example_frame = Some (Ok example_tree).
Proof. vm_compute. reflexivity. Qed.

Example example_tree_is_fully_accurate :
  ID3.calculate_accuracy example_frame example_tree = Ok (of_int 100).
Proof. vm_compute. reflexivity. Qed.

(** Three trials on the example tree: no candidate is more accurate than
    the tree itself, and the copy made first is returned. *)
Example pruning_example_tree :
  fst (Pruning.post_pruning 3 2 example_frame 0%nat
         (Pruning.mkWorld [example_tree] [0; 1; 5; 0; 3]%nat))
  = Ok 1%nat.
Proof. vm_compute. reflexivity. Qed.

(* ===================================================================== *)
(** * Further properties *)
(* ===================================================================== *)

(** ** The list of inner nodes *)

Lemma collect_from_eq n here nodes :
  collect_from n here nodes =
  _collect_non_leaves (right n) (here ++ [true])
    (_collect_non_leaves (left n) (here ++ [false])
       (if is_leaf n then nodes else nodes ++ [here])).
Proof. destruct n as [v i z o [l|] [r|]]; reflexivity. Qed.

Lemma collect_from_app n :
  forall here nodes, collect_from n here nodes = nodes ++ collect_from n here [].
Proof.
  induction n as [n IHl IHr] using Node_induction. intros here nodes.
  rewrite !(collect_from_eq n). unfold _collect_non_leaves.
  destruct (left n) as [l|], (right n) as [r|]; simpl in IHl, IHr.
  - rewrite (IHr _ (collect_from l _ _)), (IHl _ (if is_leaf n then nodes else _)).
    rewrite (IHr _ (collect_from l _ (if is_leaf n then [] else _))),
      (IHl _ (if is_leaf n then [] else _)).
    destruct (is_leaf n); simpl; rewrite <- ?app_assoc; reflexivity.
  - rewrite (IHl _ (if is_leaf n then nodes else _)),
      (IHl _ (if is_leaf n then [] else _)).
    destruct (is_leaf n); simpl; rewrite <- ?app_assoc; reflexivity.
  - rewrite (IHr _ (if is_leaf n then nodes else _)),
      (IHr _ (if is_leaf n then [] else _)).
    destruct (is_leaf n); simpl; rewrite <- ?app_assoc; reflexivity.
  - destruct (is_leaf n); simpl; rewrite ?app_nil_r; reflexivity.
Qed.

Lemma collect_from_parts n here :
  collect_from n here [] =
  (if is_leaf n then [] else [here])
  ++ match left n with Some l => collect_from l (here ++ [false]) [] | None => [] end
  ++ match right n with Some r => collect_from r (here ++ [true]) [] | None => [] end.
Proof.
  rewrite collect_from_eq. unfold _collect_non_leaves.
  destruct (left n) as [l|], (right n) as [r|].
  - rewrite collect_from_app, (collect_from_app l). rewrite <- app_assoc.
    destruct (is_leaf n); reflexivity.
  - rewrite collect_from_app, app_nil_r. destruct (is_leaf n); reflexivity.
  - rewrite collect_from_app. destruct (is_leaf n); reflexivity.
  - destruct (is_leaf n); reflexivity.
Qed.

(** A reference is collected exactly when it leads to an inner node. *)
Lemma in_collect_from n :
  forall here p,
    In p (collect_from n here []) <->
    exists q m, p = here ++ q /\ deref n q = Some m /\ is_leaf m = false.
Proof.
  induction n as [n IHl IHr] using Node_induction. intros here p.
  rewrite collect_from_parts, !in_app_iff. split.
  - intros [H|[H|H]].
    + destruct (is_leaf n) eqn:L; [destruct H|]. destruct H as [<-|[]].
      exists [], n. rewrite app_nil_r. auto.
    + destruct (left n) as [l|] eqn:Hl; [|destruct H]. simpl in IHl.
      apply IHl in H. destruct H as (q & m & -> & D & L).
      exists (false :: q), m. rewrite <- app_assoc. simpl. unfold child.
      rewrite Hl. auto.
    + destruct (right n) as [r|] eqn:Hr; [|destruct H]. simpl in IHr.
      apply IHr in H. destruct H as (q & m & -> & D & L).
      exists (true :: q), m. rewrite <- app_assoc. simpl. unfold child.
      rewrite Hr. auto.
  - intros (q & m & -> & D & L). destruct q as [|b q]; simpl in D.
    + injection D as <-. left. rewrite L, app_nil_r. left. reflexivity.
    + right. unfold child in D. destruct b.
      * right. destruct (right n) as [r|]; [|discriminate]. simpl in IHr.
        apply IHr. exists q, m. rewrite <- app_assoc. auto.
      * left. destruct (left n) as [l|]; [|discriminate]. simpl in IHl.
        apply IHl. exists q, m. rewrite <- app_assoc. auto.
Qed.

Lemma collect_from_nodup n : forall here, NoDup (collect_from n here []).
Proof.
  induction n as [n IHl IHr] using Node_induction. intros here.
  rewrite collect_from_parts.
  assert (Hl : forall p, In p match left n with
                              | Some l => collect_from l (here ++ [false]) []
                              | None => []
                              end -> exists q, p = here ++ false :: q).
  { intros p H. destruct (left n) as [l|]; [|destruct H].
    apply in_collect_from in H. destruct H as (q & _ & -> & _).
    exists q. rewrite <- app_assoc. reflexivity. }
  assert (Hr : forall p, In p match right n with
                              | Some r => collect_from r (here ++ [true]) []
                              | None => []
                              end -> exists q, p = here ++ true :: q).
  { intros p H. destruct (right n) as [r|]; [|destruct H].
    apply in_collect_from in H. destruct H as (q & _ & -> & _).
    exists q. rewrite <- app_assoc. reflexivity. }
  apply NoDup_app; [| apply NoDup_app |].
  - destruct (is_leaf n); constructor; [intros []|constructor].
  - destruct (left n) as [l|]; [apply IHl | constructor].
  - destruct (right n) as [r|]; [apply IHr | constructor].
  - intros p H1 H2. destruct (Hl p H1) as [q ->], (Hr _ H2) as [q' E].
    apply app_inv_head in E. discriminate.
  - intros p H1 H2. destruct (is_leaf n); [destruct H1|].
    destruct H1 as [<-|[]]. apply in_app_iff in H2.
    destruct H2 as [H2|H2]; [destruct (Hl _ H2) as [q E] | destruct (Hr _ H2) as [q E]];
      rewrite <- (app_nil_r here) in E at 1; apply app_inv_head in E; discriminate.
Qed.

Lemma collect_from_length n :
  forall here, Z.of_nat (List.length (collect_from n here [])) = non_leaves_from n.
Proof.
  induction n as [n IHl IHr] using Node_induction. intros here.
  rewrite collect_from_parts, !length_app.
  replace (non_leaves_from n)
    with (if is_leaf n then 0
          else 1 + match left n with Some l => non_leaves_from l | None => 0 end
                 + match right n with Some r => non_leaves_from r | None => 0 end)
    by (destruct n; reflexivity).
  destruct (is_leaf n) eqn:L.
  - unfold is_leaf in L. destruct (left n), (right n); try discriminate. reflexivity.
  - rewrite !Nat2Z.inj_add.
    destruct (left n) as [l|], (right n) as [r|]; simpl in IHl, IHr;
      rewrite ?IHl, ?IHr;
      change (List.length [here]) with 1%nat;
      change (List.length (@nil ref)) with 0%nat; lia.
Qed.

(** X1. [get_non_leaves] lists, each once, exactly the references that
    lead from the root to a node with a child. *)
Theorem get_non_leaves_are_the_inner_nodes (t : BTree) :
  NoDup (get_non_leaves t) /\
  forall p, In p (get_non_leaves t) <->
            exists m, node_at t p m /\ is_leaf m = false.
Proof.
  unfold get_non_leaves, _collect_non_leaves, node_at.
  destruct (root t) as [rt|].
  - split; [apply collect_from_nodup|]. intros p.
    rewrite in_collect_from. split.
    + intros (q & m & -> & D & L). exists m. split; [exists rt|]; auto.
    + intros (m & (rt' & [= <-] & D) & L). exists p, m. auto.
  - split; [constructor|]. intros p. split; [intros []|].
    intros (m & (rt' & [=] & _) & _).
Qed.

(** X2. [num_of_non_leaves] of the root is the length of the list that
    [get_non_leaves] returns. *)
Theorem num_of_non_leaves_counts_get_non_leaves (t : BTree) :
  num_of_non_leaves (root t) = Z.of_nat (List.length (get_non_leaves t)).
Proof.
  unfold num_of_non_leaves, get_non_leaves, _collect_non_leaves.
  destruct (root t) as [rt|]; [|reflexivity].
  symmetry. apply collect_from_length.
Qed.

(* ===================================================================== *)
(** ** Updates that keep the shape of the tree *)
(* ===================================================================== *)

Section KeepShape.

Variable f : Node -> Node.
Hypothesis f_idx : forall m, idx (f m) = idx m.
Hypothesis f_left : forall m, left (f m) = left m.
Hypothesis f_right : forall m, right (f m) = right m.

Lemma indices_keep_shape p : forall n, indices (update n p f) = indices n.
Proof using f_idx f_left f_right.
  induction p as [|b p IH]; intros n; simpl.
  - rewrite (indices_eq (f n)), (indices_eq n), f_idx, f_left, f_right. reflexivity.
  - destruct (child b n) as [c|] eqn:Hc; [|reflexivity].
    rewrite indices_set_child, IH, (indices_children n).
    unfold child_indices. destruct b; simpl in Hc |- *; unfold child;
      rewrite Hc; reflexivity.
Qed.

Lemma find_from_keep_shape i p : forall n, find_from (update n p f) i = find_from n i.
Proof using f_idx f_left f_right.
  induction p as [|b p IH]; intros n; simpl.
  - rewrite (find_from_eq (f n)), (find_from_eq n), f_idx, f_left, f_right.
    reflexivity.
  - destruct (child b n) as [c|] eqn:Hc; [|reflexivity].
    rewrite (find_from_eq (set_child b _ n)), (find_from_eq n), idx_set_child.
    destruct b; simpl in Hc |- *; rewrite Hc, IH; reflexivity.
Qed.

End KeepShape.

Lemma set_node_value_spec (t : BTree) (i : Z) (v : string) (z o : Z) :
  (In i (tree_indices t) ->
   exists p m t',
     _find_node t i = Ok p /\ node_at t p m /\
     set_node_value t i v z o = Ok t' /\
     node_at t' p (mkNode (Some v) (idx m) z o (left m) (right m)) /\
     _find_node t' i = Ok p /\
     tree_indices t' = tree_indices t /\ _counter t' = _counter t) /\
  (~ In i (tree_indices t) ->
   set_node_value t i v z o = Raise (NodeNotFound i)).
Proof.
  split.
  - intros Hin. unfold set_node_value, _find_node, tree_indices in *.
    destruct (root t) as [rt|] eqn:Hr; [|destruct Hin]. simpl.
    destruct (find_from rt i) as [p|] eqn:F.
    2:{ apply find_from_none in F. contradiction. }
    destruct (find_from_deref rt i p F) as (m & D & I).
    exists p, m. eexists. split; [reflexivity|].
    split; [exists rt; auto|]. simpl. split; [reflexivity|].
    unfold update_root, node_at. rewrite Hr. simpl.
    split; [eexists; split; [reflexivity|];
             exact (deref_update rt p
                      (fun n => mkNode (Some v) (idx n) z o (left n) (right n)) m D)|].
    rewrite find_from_keep_shape by reflexivity. rewrite F.
    split; [reflexivity|].
    rewrite indices_keep_shape by reflexivity. split; reflexivity.
  - intros Hout. unfold set_node_value.
    rewrite (proj2 (find_node_outcome t i) Hout). reflexivity.
Qed.

(** X3. [set_node_value] on an index that a node of the tree carries
    rewrites the label and the counts of the node that [_find_node] finds
    and leaves its index, its children, the indices of the tree and the
    counter as they were; the same index finds the rewritten node
    afterwards.  On an index that no node carries it fails with the error
    of [_find_node]. *)
Theorem set_node_value_outcome (t : BTree) (i : Z) (v : string) (z o : Z) :
  (In i (tree_indices t) ->
   exists p m t',
     _find_node t i = Ok p /\ node_at t p m /\
     set_node_value t i v z o = Ok t' /\
     node_at t' p (mkNode (Some v) (idx m) z o (left m) (right m)) /\
     _find_node t' i = Ok p /\
     tree_indices t' = tree_indices t /\ _counter t' = _counter t) /\
  (~ In i (tree_indices t) ->
   set_node_value t i v z o = Raise (NodeNotFound i)).
Proof. exact (set_node_value_spec t i v z o). Qed.

(* ===================================================================== *)
(** ** The indices that the methods hand out *)
(* ===================================================================== *)

Lemma add_root_well_indexed t v z o i t' :
  add_root t v z o = Ok (i, t') ->
  well_indexed t' /\ i = _counter t' /\ tree_indices t' = [i].
Proof.
  unfold add_root. destruct (root t); [discriminate|]. intros [= <- <-].
  unfold well_indexed, tree_indices. simpl. repeat split.
  - constructor; [intros []|constructor].
  - intros x [<-|[]]. lia.
Qed.

Lemma add_child_well_indexed b t parent v z o i t' :
  well_indexed t ->
  add_child b t parent v z o = Ok (i, t') ->
  well_indexed t' /\ i = _counter t' /\ i = _counter t + 1 /\
  ~ In i (tree_indices t) /\
  exists q, _find_node t parent = Ok q /\ _find_node t' i = Ok (q ++ [b]) /\
            node_at t' (q ++ [b]) (mkNode v i z o None None).
Proof.
  intros [Hn Hb] H. unfold tree_indices in *.
  unfold add_child in H.
  destruct (_find_node t parent) as [q|e] eqn:F; [|discriminate]. simpl in H.
  injection H as <- <-.
  unfold _find_node, _find_node_recursive in F.
  destruct (root t) as [rt|] eqn:Hr; [|discriminate].
  destruct (find_from rt parent) as [q'|] eqn:F'; [|discriminate].
  injection F as <-.
  destruct (find_from_deref rt parent q' F') as (m & D & I).
  pose proof (child_slot t rt q' m b Hr Hn Hb D) as S.
  set (leaf := mkNode v (_counter t + 1) z o None None).
  assert (Hleaf : NoDup (indices leaf))
    by (simpl; constructor; [intros []|constructor]).
  assert (Hfresh : forall x, In x (indices leaf) -> _counter t + 1 <= x)
    by (simpl; intros x [<-|[]]; lia).
  unfold update_root. rewrite Hr.
  assert (Hn' : NoDup (indices (update rt q' (set_child b (Some leaf)))))
    by exact (slot_nodup _ _ _ _ _ _ S leaf Hleaf Hfresh).
  split; [|split; [reflexivity|split; [reflexivity|split]]].
  - split; simpl; [exact Hn'|].
    apply (slot_bound _ _ _ _ _ _ S leaf (_counter t + 1)); [lia|].
    simpl. intros x [<-|[]]. lia.
  - intros Hin. specialize (Hb _ Hin). lia.
  - exists q'. split; [reflexivity|].
    pose proof (slot_deref _ _ _ _ _ _ S leaf) as Dl.
    split.
    + unfold _find_node, _find_node_recursive. simpl.
      change (_counter t + 1) with (idx leaf).
      rewrite (find_from_unique _ _ leaf Hn' Dl). reflexivity.
    + eexists. split; [reflexivity|exact Dl].
Qed.

Lemma set_node_value_well_indexed t i v z o t' :
  well_indexed t -> set_node_value t i v z o = Ok t' -> well_indexed t'.
Proof.
  intros W H.
  destruct (in_dec Z.eq_dec i (tree_indices t)) as [Hin|Hout].
  - destruct (proj1 (set_node_value_spec t i v z o) Hin)
      as (p & m & t'' & _ & _ & E & _ & _ & Hi & Hc).
    rewrite E in H. injection H as <-.
    unfold well_indexed. rewrite Hi, Hc. exact W.
  - rewrite (proj2 (set_node_value_spec t i v z o) Hout) in H. discriminate.
Qed.

(** X4. The methods keep the indices distinct and below the counter: on a
    tree with that property, every successful [add_root],
    [add_left_child], [add_right_child] and [set_node_value] returns a tree
    with it.  The index that [add_*_child] returns is the new counter, one
    above the old, carried by no node before; afterwards [_find_node]
    finds with it the new childless node, in the slot asked for under the
    parent. *)
Theorem methods_keep_indices_distinct (t : BTree) :
  well_indexed t ->
  (forall v z o i t',
     add_root t v z o = Ok (i, t') ->
     well_indexed t' /\ i = _counter t' /\ tree_indices t' = [i]) /\
  (forall b parent v z o i t',
     (if b : bool then add_right_child else add_left_child) t parent v z o
       = Ok (i, t') ->
     well_indexed t' /\ i = _counter t' /\ i = _counter t + 1 /\
     ~ In i (tree_indices t) /\
     exists q, _find_node t parent = Ok q /\ _find_node t' i = Ok (q ++ [b]) /\
               node_at t' (q ++ [b]) (mkNode v i z o None None)) /\
  (forall i v z o t',
     set_node_value t i v z o = Ok t' -> well_indexed t').
Proof.
  intros W. split; [|split].
  - intros v z o i t'. apply add_root_well_indexed.
  - intros b parent v z o i t' H. apply (add_child_well_indexed b t parent); auto.
    destruct b; exact H.
  - intros i v z o t'. apply set_node_value_well_indexed, W.
Qed.

Lemma methods_keep_indices_distinct_witness :
  (forall v z o i t',
     add_root stump_tree v z o = Ok (i, t') ->
     well_indexed t' /\ i = _counter t' /\ tree_indices t' = [i]) /\
  (forall b parent v z o i t',
     (if b : bool then add_right_child else add_left_child) stump_tree parent v z o
       = Ok (i, t') ->
     well_indexed t' /\ i = _counter t' /\ i = _counter stump_tree + 1 /\
     ~ In i (tree_indices stump_tree) /\
     exists q, _find_node stump_tree parent = Ok q /\
               _find_node t' i = Ok (q ++ [b]) /\
               node_at t' (q ++ [b]) (mkNode v i z o None None)) /\
  (forall i v z o t',
     set_node_value stump_tree i v z o = Ok t' -> well_indexed t').
Proof.
  apply (methods_keep_indices_distinct stump_tree). split.
  - unfold tree_indices. simpl.
    constructor; [simpl; intros [H|[H|[]]]; discriminate|].
    constructor; [simpl; intros [H|[]]; discriminate|].
    constructor; [intros []|constructor].
  - unfold tree_indices. simpl. intros x [<-|[<-|[<-|[]]]]; lia.
Defined.

(* ===================================================================== *)
(** ** Printing *)
(* ===================================================================== *)

Lemma size_eq n :
  size n = S (match left n with Some l => size l | None => 0 end
              + match right n with Some r => size r | None => 0 end)%nat.
Proof. destruct n; reflexivity. Qed.

Lemma print_subtree_eq node depth :
  _print_subtree node depth =
  (match left node with
   | None => []
   | Some l =>
       if is_leaf l then
         [(times "| " depth ++ str_of_value (value node) ++ " = 0 : "
             ++ str_of_value (value l))%string]
       else
         (times "| " depth ++ str_of_value (value node) ++ " = 0 :")%string
           :: _print_subtree l (S depth)
   end
   ++
   match right node with
   | None => []
   | Some r =>
       if is_leaf r then
         [(times "| " depth ++ str_of_value (value node) ++ " = 1 : "
             ++ str_of_value (value r))%string]
       else
         (times "| " depth ++ str_of_value (value node) ++ " = 1 :")%string
           :: _print_subtree r (S depth)
   end)%list.
Proof. destruct node; reflexivity. Qed.

Lemma size_leaf n : is_leaf n = true -> size n = 1%nat.
Proof.
  rewrite size_eq. unfold is_leaf.
  destruct (left n), (right n); try discriminate. reflexivity.
Qed.

Lemma print_subtree_length n :
  forall depth, S (List.length (_print_subtree n depth)) = size n.
Proof.
  induction n as [n IHl IHr] using Node_induction. intros depth.
  rewrite print_subtree_eq, size_eq, length_app. f_equal.
  f_equal.
  - destruct (left n) as [l|]; [|reflexivity]. simpl in IHl.
    destruct (is_leaf l) eqn:L; [rewrite (size_leaf l L); reflexivity|].
    simpl. apply IHl.
  - destruct (right n) as [r|]; [|reflexivity]. simpl in IHr.
    destruct (is_leaf r) eqn:L; [rewrite (size_leaf r L); reflexivity|].
    simpl. apply IHr.
Qed.

(** X5. [print_btree] writes one line for a tree without a root or with
    a root only, and otherwise one line for every node but the root. *)
Theorem print_btree_line_count (t : BTree) :
  List.length (print_btree t)
  = match root t with
    | None => 1%nat
    | Some rt => Nat.max 1 (size rt - 1)
    end.
Proof.
  unfold print_btree. destruct (root t) as [rt|]; [|reflexivity].
  destruct (is_leaf rt) eqn:L.
  - rewrite (size_leaf rt L). reflexivity.
  - pose proof (print_subtree_length rt 0) as H.
    assert (2 <= size rt)%nat.
    { rewrite size_eq. unfold is_leaf in L.
      destruct (left rt) as [l|], (right rt) as [r|]; try discriminate;
        try rewrite (size_eq l); try rewrite (size_eq r); lia. }
    lia.
Qed.

(* ===================================================================== *)
(** ** Exact quotients *)
(* ===================================================================== *)

Lemma div_eucl_exact (a b k : Z) :
  0 < b -> a = k * b -> Z.div_eucl a b = (k, 0).
Proof.
  intros Hb ->.
  pose proof (Z.div_mul k b ltac:(lia)) as Hq.
  pose proof (Z_mod_mult k b) as Hr.
  unfold Z.div, Z.modulo in Hq, Hr.
  destruct (Z.div_eucl (k * b) b) as [q r]. congruence.
Qed.

Lemma new_location_zero m : new_location m 0 = loc_Exact.
Proof. unfold new_location. destruct (Z.even m); reflexivity. Qed.


Lemma div_core_double p :
  SFdiv_core_binary prec emax (Zpos p) 0 (Zpos p~0) 0 = (2 ^ 53, -54, loc_Exact).
Proof.
  unfold SFdiv_core_binary. cbv zeta.
  replace (Zdigits2 (Zpos p) + 0 - (Zdigits2 (Zpos p~0) + 0)) with (-1)
    by (cbn [Zdigits2 digits2_pos]; rewrite Pos2Z.inj_succ; lia).
  change (Z.min (fexp prec emax (-1)) (0 - 0)) with (-54).
  change (0 - 0 - -54) with 54. cbv iota beta.
  change (IntDef.Z.div_eucl (IntDef.Z.shiftl (Zpos p) 54) (Zpos p~0))
    with (Z.div_eucl (Z.shiftl (Zpos p) 54) (Zpos p~0)).
  rewrite (div_eucl_exact (Z.shiftl (Zpos p) 54) (Zpos p~0) (2 ^ 53)).
  - rewrite new_location_zero. reflexivity.
  - lia.
  - rewrite Z.shiftl_mul_pow2 by lia.
    change (2 ^ 54) with (2 ^ 53 * 2). lia.
Qed.


Lemma int_truediv_double n : 0 < n -> int_truediv n (n + n) = Ok one_half.
Proof.
  intros H. unfold int_truediv. destruct (Z.eqb_spec (n + n) 0); [lia|].
  destruct n as [|p|p]; try lia.
  replace (Zpos p + Zpos p) with (Zpos p~0) by lia.
  unfold exact, SFdiv. rewrite div_core_double. reflexivity.
Qed.


Lemma mul_comm x y : mul x y = mul y x.
Proof.
  unfold mul, SFmul.
  destruct x as [[|]|[|]| |[|] mx ex], y as [[|]|[|]| |[|] my ey];
    try reflexivity; simpl; rewrite (Pos.mul_comm mx my), (Z.add_comm ex ey);
    reflexivity.
Qed.

(* ===================================================================== *)
(** ** The two impurity measures *)
(* ===================================================================== *)


(** X7. [variance_impurity] does not depend on the order of its two
    counts. *)
Theorem variance_impurity_symmetric (p n : Z) :
  Variance.variance_impurity p n = Variance.variance_impurity n p.
Proof.
  unfold Variance.variance_impurity.
  rewrite (Z.add_comm n p), (orb_comm (n =? 0) (p =? 0)).
  destruct (p + n =? 0) eqn:T; [reflexivity|].
  destruct ((p =? 0) || (n =? 0)); [reflexivity|].
  unfold int_truediv. rewrite T. simpl. rewrite mul_comm. reflexivity.
Qed.

(** X8. The variance impurity of two equal positive counts is exactly
    0.25. *)
Theorem variance_impurity_balanced (n : Z) :
  0 < n -> Variance.variance_impurity n n = Ok one_quarter.
Proof.
  intros H. unfold Variance.variance_impurity.
  destruct (Z.eqb_spec (n + n) 0); [lia|].
  destruct (Z.eqb_spec n 0); [lia|]. simpl.
  rewrite (int_truediv_double n H). reflexivity.
Qed.

Lemma variance_impurity_balanced_witness :
  Variance.variance_impurity 7 7 = Ok one_quarter.
Proof. apply (variance_impurity_balanced 7). lia. Defined.

(** X9. When [math.log(0.5, 2)] is [-1.0], the entropy of two equal
    positive counts is exactly 1.0. *)
Theorem entropy_balanced (math_log : float -> float -> float) (n : Z) :
  math_log one_half (of_int 2) = minus_one ->
  0 < n -> Entropy.entropy math_log n n = Ok one.
Proof.
  intros Hlog H. unfold Entropy.entropy.
  destruct (Z.eqb_spec (n + n) 0); [lia|].
  rewrite (int_truediv_double n H). cbn [bind].
  destruct (Z.eqb_spec n 0); [lia|]. cbn [orb].
  rewrite Hlog. reflexivity.
Qed.

Lemma entropy_balanced_witness :
  Entropy.entropy (fun _ _ => minus_one) 7 7 = Ok one.
Proof.
  apply (entropy_balanced (fun _ _ => minus_one) 7); [reflexivity | lia].
Defined.

(* ===================================================================== *)
(** ** Errors of the gain computation *)
(* ===================================================================== *)

Section GainErrors.

Variable impurity : Z -> Z -> result float.
Hypothesis impurity_total : forall p n, succeeds (impurity p n).

Lemma gain_key_error total d before a after :
  rows d <> [] -> has_column d TARGET_COLUMN = true ->
  (forall b, In b before -> has_column d b = true) ->
  has_column d a = false ->
  ID3._gain impurity total d (before ++ a :: after) = Raise (KeyError (Some a)).
Proof using impurity_total.
  intros Hr Ht Hb Ha. unfold ID3._gain.
  replace (ID3.gains_of impurity total d (before ++ a :: after))
    with (@Raise (list float) (KeyError (Some a))); [reflexivity|].
  induction before as [|b before IH]; simpl.
  - unfold ID3.gain_of, ID3.partition_term, where_eq. rewrite Ha. reflexivity.
  - destruct (gain_of_succeeds impurity impurity_total total d b Hr Ht
                (Hb b (or_introl eq_refl))) as [g ->]. simpl.
    rewrite <- IH; [reflexivity|]. intros c Hc. apply Hb. right. exact Hc.
Qed.

Lemma gain_zero_division total d a rest :
  rows d = [] -> has_column d TARGET_COLUMN = true -> has_column d a = true ->
  ID3._gain impurity total d (a :: rest) = Raise ZeroDivisionError.
Proof using impurity_total.
  intros Hr Ht Ha. unfold ID3._gain.
  replace (ID3.gains_of impurity total d (a :: rest))
    with (@Raise (list float) ZeroDivisionError); [reflexivity|].
  cbn [ID3.gains_of]. unfold ID3.gain_of, ID3.partition_term.
  destruct (where_eq d a 0) as [s|e] eqn:Hs.
  2:{ unfold where_eq in Hs. rewrite Ha in Hs. discriminate. }
  cbn [bind].
  assert (Hst : has_column s TARGET_COLUMN = true)
    by (rewrite (has_column_where d a 0 s _ Hs); exact Ht).
  destruct (class_count_succeeds s 0 Hst) as [negative ->].
  destruct (class_count_succeeds s 1 Hst) as [positive ->]. cbn [bind].
  destruct (impurity_total positive negative) as [i ->]. cbn [bind].
  unfold int_truediv.
  replace (len d) with 0 by (unfold len; rewrite Hr; reflexivity).
  reflexivity.
Qed.

End GainErrors.

(** X10. On a dataset with the target column and at least one row,
    [_information_gain] and [_variance_gain] raise the [KeyError] of the
    first candidate that is not a column of the dataset. *)
Theorem best_attribute_unknown_candidate
    (math_log : float -> float -> float) (total : float) (dataset : DataFrame)
    (before : list string) (a : string) (after : list string) :
  rows dataset <> [] -> has_column dataset TARGET_COLUMN = true ->
  (forall b, In b before -> has_column dataset b = true) ->
  has_column dataset a = false ->
  Entropy._information_gain math_log total dataset (before ++ a :: after)
    = Raise (KeyError (Some a)) /\
  Variance._variance_gain total dataset (before ++ a :: after)
    = Raise (KeyError (Some a)).
Proof.
  intros Hr Ht Hb Ha. split; apply gain_key_error; auto.
  - apply entropy_total.
  - apply variance_impurity_total.
Qed.

Lemma best_attribute_unknown_candidate_witness :
  Entropy._information_gain (fun x _ => x) zero example_frame
    (["A"%string] ++ "C"%string :: ["B"%string])%list
    = Raise (KeyError (Some "C"%string)) /\
  Variance._variance_gain zero example_frame
    (["A"%string] ++ "C"%string :: ["B"%string])%list
    = Raise (KeyError (Some "C"%string)).
Proof.
  apply (best_attribute_unknown_candidate (fun x _ => x) zero example_frame
           ["A"%string] "C"%string ["B"%string]).
  - discriminate.
  - reflexivity.
  - intros b [<-|[]]. reflexivity.
  - reflexivity.
Defined.

(** X11. On a dataset with the target column and no rows,
    [_information_gain] and [_variance_gain] raise [ZeroDivisionError] as
    soon as the first candidate is a column. *)
Theorem best_attribute_of_no_rows
    (math_log : float -> float -> float) (total : float) (dataset : DataFrame)
    (a : string) (rest : list string) :
  rows dataset = [] -> has_column dataset TARGET_COLUMN = true ->
  has_column dataset a = true ->
  Entropy._information_gain math_log total dataset (a :: rest)
    = Raise ZeroDivisionError /\
  Variance._variance_gain total dataset (a :: rest) = Raise ZeroDivisionError.
Proof.
  intros Hr Ht Ha. split; apply gain_zero_division; auto.
  - apply entropy_total.
  - apply variance_impurity_total.
Qed.

Lemma best_attribute_of_no_rows_witness :
  Entropy._information_gain (fun x _ => x) zero
    (mkFrame ["A"; "Class"]%string []) ["A"%string]
    = Raise ZeroDivisionError /\
  Variance._variance_gain zero (mkFrame ["A"; "Class"]%string []) ["A"%string]
    = Raise ZeroDivisionError.
Proof.
  apply (best_attribute_of_no_rows (fun x _ => x) zero
           (mkFrame ["A"; "Class"]%string []) "A"%string []); reflexivity.
Defined.

(* ===================================================================== *)
(** ** The builder as a function of the data *)
(* ===================================================================== *)

Lemma count_up_app a n m :
  count_up a (n + m) = (count_up a n ++ count_up (a + Z.of_nat n) m)%list.
Proof.
  revert a. induction n as [|n IH]; intros a.
  - simpl. rewrite Z.add_0_r. reflexivity.
  - cbn [Nat.add count_up app]. rewrite IH. do 3 f_equal. lia.
Qed.

Lemma in_count_up a n x : In x (count_up a n) <-> a <= x < a + Z.of_nat n.
Proof.
  revert a. induction n as [|n IH]; intros a.
  - simpl. lia.
  - cbn [count_up In]. rewrite IH. lia.
Qed.

Lemma nodup_count_up a n : NoDup (count_up a n).
Proof.
  revert a. induction n as [|n IH]; intros a; simpl; constructor; [|apply IH].
  rewrite in_count_up. lia.
Qed.

Lemma size_positive n : (1 <= size n)%nat.
Proof. rewrite size_eq. lia. Qed.

Lemma numbered_leaf label first z o :
  numbered first first (leaf_node label first z o).
Proof. repeat split; simpl; lia. Qed.

Lemma numbered_inner best first z o l last0 r last1 :
  numbered (first + 1) last0 l -> numbered (last0 + 1) last1 r ->
  numbered first last1 (mkNode (Some best) first z o (Some l) (Some r)).
Proof.
  intros (Il & El & Ll) (Ir & Er & Lr). split; [reflexivity|]. split.
  - cbn [indices left right idx size count_up]. rewrite El, Er, count_up_app.
    do 3 f_equal. lia.
  - cbn [size left right]. lia.
Qed.

Lemma numbered_nodup first last sub : numbered first last sub -> NoDup (indices sub).
Proof. intros (_ & E & _). rewrite E. apply nodup_count_up. Qed.

Lemma numbered_range first last sub x :
  numbered first last sub -> In x (indices sub) -> first <= x <= last.
Proof. intros (_ & E & L). rewrite E, in_count_up. lia. Qed.

Section Grow.

Variable impurity : Z -> Z -> result float.

Lemma grow_side_numbers (pure : growth) d best rest z o v start sub last :
  numbers pure ->
  grow_side pure d best rest z o v start = Some (sub, last) ->
  numbered start last sub.
Proof.
  intros N. unfold grow_side.
  destruct (where_eq d best v) as [s|e]; [|discriminate].
  destruct (empty s); [|apply N].
  intros [= <- <-]. apply numbered_leaf.
Qed.

Lemma grow_body_numbers (pure : growth) :
  numbers pure -> numbers (grow_body impurity pure).
Proof.
  intros N d attributes first sub last. unfold grow_body.
  destruct (ID3.class_count d 1) as [ones|]; [|discriminate].
  destruct (ID3.class_count d 0) as [zeroes|]; [|discriminate].
  destruct (ones =? 0); [intros [= <- <-]; apply numbered_leaf|].
  destruct (zeroes =? 0); [intros [= <- <-]; apply numbered_leaf|].
  destruct attributes as [|a0 rest0]; [intros [= <- <-]; apply numbered_leaf|].
  destruct (total <- impurity ones zeroes ;; ID3._gain impurity total d (a0 :: rest0))
    as [best|]; [|discriminate].
  cbv zeta.
  destruct (grow_side pure d best _ zeroes ones 0 (first + 1)) as [[l last0]|] eqn:G0;
    [|discriminate].
  destruct (grow_side pure d best _ zeroes ones 1 (last0 + 1)) as [[r last1]|] eqn:G1;
    [|discriminate].
  intros [= <- <-].
  eapply numbered_inner; eapply grow_side_numbers; eauto.
Qed.

Lemma grow_numbers fuel : numbers (grow impurity fuel).
Proof.
  induction fuel as [|fuel IH]; [intros d a f s l [=]|].
  exact (grow_body_numbers _ IH).
Qed.

Lemma grow_branch_refines (recur : recursion) (pure : growth)
    d best rest z o cur t b plug here first sub last :
  refines recur pure ->
  slot t (Some cur) (Some (branch_of b)) plug here first ->
  grow_side pure d best rest z o (branch_of b) first = Some (sub, last) ->
  ID3.grow_branch recur d best rest z o cur t (branch_of b)
  = Some (Ok (mkBTree (Some (plug sub)) last)).
Proof.
  intros R S. unfold grow_side, ID3.grow_branch.
  destruct (where_eq d best (branch_of b)) as [s|e]; [|discriminate].
  destruct (empty s).
  - intros [= <- <-]. rewrite (slot_create _ _ _ _ _ _ S). reflexivity.
  - intros G. eapply R; eauto.
Qed.

Lemma build_body_refines (recur : recursion) (pure : growth) :
  refines recur pure -> numbers pure ->
  refines (ID3.build_body impurity recur) (grow_body impurity pure).
Proof.
  intros R N d attributes t p b plug here first sub last S.
  unfold grow_body, ID3.build_body.
  destruct (ID3.class_count d 1) as [ones|]; [|discriminate].
  destruct (ID3.class_count d 0) as [zeroes|]; [|discriminate].
  cbn [bind].
  destruct (ones =? 0).
  { intros [= <- <-]. rewrite (slot_create _ _ _ _ _ _ S). reflexivity. }
  destruct (zeroes =? 0).
  { intros [= <- <-]. rewrite (slot_create _ _ _ _ _ _ S). reflexivity. }
  destruct attributes as [|a0 rest0] eqn:Eattr.
  { intros [= <- <-]. rewrite (slot_create _ _ _ _ _ _ S). reflexivity. }
  rewrite <- Eattr in *.
  destruct (impurity ones zeroes) as [total|]; cbn [bind]; [|discriminate].
  destruct (ID3._gain impurity total d attributes) as [best|]; cbn [bind];
    [|discriminate].
  rewrite (slot_create _ _ _ _ _ _ S). cbn [bind]. cbv zeta.
  set (n0 := mkNode (Some best) first zeroes ones None None).
  destruct (grow_side pure d best _ zeroes ones 0 (first + 1)) as [[l last0]|] eqn:G0;
    [|discriminate].
  destruct (grow_side pure d best _ zeroes ones 1 (last0 + 1)) as [[r last1]|] eqn:G1;
    [|discriminate].
  intros [= <- <-].
  pose proof (grow_side_numbers pure _ _ _ _ _ _ _ _ _ N G0) as N0.
  assert (S0 := slot_below t p b plug here first n0 first false S eq_refl
                  ltac:(simpl; constructor; [simpl; tauto | constructor])
                  ltac:(simpl; intros x [<-|[]]; lia)).
  pose proof (grow_branch_refines recur pure d best _ zeroes ones first _ false
                _ _ _ l last0 R S0 G0) as B0.
  unfold branch_of in B0. rewrite B0.
  set (n1 := set_child false (Some l) n0).
  assert (S1 := slot_below t p b plug here first n1 last0 true S eq_refl
                  ltac:(simpl; rewrite app_nil_r; apply NoDup_cons_iff; split;
                        [intros H; apply (numbered_range _ _ _ _ N0) in H; lia
                        |exact (numbered_nodup _ _ _ N0)])
                  ltac:(simpl; rewrite app_nil_r; intros x [<-|H];
                        [destruct N0 as (_ & _ & L); pose proof (size_positive l); lia
                        |apply (numbered_range _ _ _ _ N0) in H; lia])).
  pose proof (grow_branch_refines recur pure d best _ zeroes ones first _ true
                _ _ _ r last1 R S1 G1) as B1.
  unfold branch_of in B1. rewrite B1.
  reflexivity.
Qed.

(** [_build_tree] puts into its slot the subtree that [grow] computes. *)
Lemma build_tree_refines fuel :
  refines (ID3._build_tree impurity fuel) (grow impurity fuel).
Proof.
  induction fuel as [|fuel IH]; [intros d a t p b plug here f s l _ [=]|].
  exact (build_body_refines _ _ IH (grow_numbers fuel)).
Qed.

Hypothesis impurity_total : forall p n, succeeds (impurity p n).

Lemma grow_side_defined (pure : growth) d best rest z o v start :
  has_column d TARGET_COLUMN = true -> has_column d best = true ->
  (forall a, In a rest -> has_column d a = true) ->
  (forall d' first, has_column d' TARGET_COLUMN = true ->
     (forall a, In a rest -> has_column d' a = true) ->
     exists sub last, pure d' rest first = Some (sub, last)) ->
  exists sub last, grow_side pure d best rest z o v start = Some (sub, last).
Proof.
  intros Ht Hb Hrest H. unfold grow_side.
  destruct (where_eq d best v) as [s|e] eqn:Hs.
  2:{ unfold where_eq in Hs. rewrite Hb in Hs. discriminate. }
  destruct (empty s); [eauto|].
  apply H.
  - rewrite (has_column_where _ _ _ _ _ Hs). exact Ht.
  - intros a Ha. rewrite (has_column_where _ _ _ _ _ Hs). auto.
Qed.

Lemma grow_defined fuel :
  forall d attributes first,
    (List.length attributes < fuel)%nat ->
    has_column d TARGET_COLUMN = true ->
    (forall a, In a attributes -> has_column d a = true) ->
    exists sub last, grow impurity fuel d attributes first = Some (sub, last).
Proof using impurity_total.
  induction fuel as [|fuel IH]; intros d attributes first Hlen Ht Ha; [lia|].
  cbn [grow]. unfold grow_body.
  destruct (class_count_succeeds d 1 Ht) as [ones Hones].
  destruct (class_count_succeeds d 0 Ht) as [zeroes Hzeroes].
  rewrite Hones, Hzeroes.
  destruct (Z.eqb_spec ones 0) as [E1|E1]; [eauto|].
  destruct (zeroes =? 0); [eauto|].
  destruct attributes as [|a0 rest0] eqn:Eattr; [eauto|].
  rewrite <- Eattr in *.
  destruct (impurity_total ones zeroes) as [total ->]. cbn [bind].
  assert (Hrows : rows d <> []) by exact (class_count_positive d 1 ones Hones E1).
  assert (Hne : attributes <> []) by (rewrite Eattr; discriminate).
  destruct (selects_first_max_member _ _ _
              (gain_selects_first_max impurity impurity_total total d attributes
                 Hrows Hne Ht Ha)) as (best & -> & Hin).
  cbv zeta.
  assert (Hrest : forall a, In a (ID3.remaining attributes best) ->
                            has_column d a = true)
    by (intros a H; apply Ha; eapply remaining_subset; eauto).
  assert (Hrec : forall d' first', has_column d' TARGET_COLUMN = true ->
             (forall a, In a (ID3.remaining attributes best) ->
                        has_column d' a = true) ->
             exists sub last,
               grow impurity fuel d' (ID3.remaining attributes best) first'
               = Some (sub, last)).
  { intros d' first' Ht' Ha'. apply IH; auto.
    pose proof (remaining_shorter attributes best Hin). lia. }
  destruct (grow_side_defined (grow impurity fuel) d best _ zeroes ones 0 (first + 1)
              Ht (Ha best Hin) Hrest Hrec) as (l & last0 & ->).
  destruct (grow_side_defined (grow impurity fuel) d best _ zeroes ones 1 (last0 + 1)
              Ht (Ha best Hin) Hrest Hrec) as (r & last1 & ->).
  eauto.
Qed.

(** [construct_tree] returns the tree that [grow] computes from the
    attribute columns, numbered from 0. *)
Lemma construct_tree_grows d :
  has_column d TARGET_COLUMN = true ->
  exists rt last,
    grow impurity (S (List.length (attributes_of d))) d (attributes_of d) 0
      = Some (rt, last) /\
    ID3.construct_tree impurity d = Some (Ok (mkBTree (Some rt) last)).
Proof using impurity_total.
  intros Ht.
  assert (Ha : forall a, In a (attributes_of d) -> has_column d a = true).
  { intros a Ha. unfold attributes_of in Ha. apply filter_In in Ha.
    destruct Ha as [Ha _]. unfold has_column. apply existsb_exists.
    exists a. split; [exact Ha | apply String.eqb_refl]. }
  destruct (grow_defined (S (List.length (attributes_of d))) d (attributes_of d) 0
              ltac:(lia) Ht Ha) as (rt & last & G).
  exists rt, last. split; [exact G|].
  unfold ID3.construct_tree, drop_column. rewrite Ht. cbn [columns].
  exact (build_tree_refines _ d (attributes_of d) Tree.new None None
           (fun n => n) [] 0 rt last (root_slot Tree.new eq_refl) G).
Qed.

End Grow.

(* ===================================================================== *)
(** ** The constructed tree *)
(* ===================================================================== *)

Lemma height_leaf_node label i z o : height (leaf_node label i z o) = O.
Proof. reflexivity. Qed.

Section Constructed.

Variable impurity : Z -> Z -> result float.

Lemma grow_height fuel :
  forall d attributes first sub last,
    grow impurity fuel d attributes first = Some (sub, last) ->
    (height sub <= List.length attributes)%nat.
Proof.
  induction fuel as [|fuel IH]; intros d attributes first sub last; [discriminate|].
  cbn [grow]. unfold grow_body.
  destruct (ID3.class_count d 1) as [ones|]; [|discriminate].
  destruct (ID3.class_count d 0) as [zeroes|]; [|discriminate].
  destruct (ones =? 0); [intros [= <- <-]; simpl; lia|].
  destruct (zeroes =? 0); [intros [= <- <-]; simpl; lia|].
  destruct attributes as [|a0 rest0] eqn:Eattr; [intros [= <- <-]; simpl; lia|].
  rewrite <- Eattr.
  destruct (impurity ones zeroes) as [total|]; cbn [bind]; [|discriminate].
  destruct (ID3._gain impurity total d attributes) as [best|] eqn:G; [|discriminate].
  cbv zeta.
  pose proof (remaining_shorter attributes best (gain_member _ _ _ _ _ G)) as Hshort.
  assert (Hside : forall v start s l,
             grow_side (grow impurity fuel) d best (ID3.remaining attributes best)
               zeroes ones v start = Some (s, l) ->
             (height s < List.length attributes)%nat).
  { intros v start s l. unfold grow_side.
    destruct (where_eq d best v) as [sd|]; [|discriminate].
    destruct (empty sd).
    - intros [= <- <-]. rewrite height_leaf_node. lia.
    - intros H. apply IH in H. lia. }
  destruct (grow_side _ d best _ zeroes ones 0 (first + 1)) as [[l last0]|] eqn:G0;
    [|discriminate].
  destruct (grow_side _ d best _ zeroes ones 1 (last0 + 1)) as [[r last1]|] eqn:G1;
    [|discriminate].
  intros [= <- <-]. apply Hside in G0, G1.
  change (height (mkNode (Some best) first zeroes ones (Some l) (Some r)))
    with (S (Nat.max (height l) (height r))).
  lia.
Qed.

Lemma grow_counts fuel d attributes first sub last :
  grow impurity fuel d attributes first = Some (sub, last) ->
  ID3.class_count d 1 = Ok (ones sub) /\ ID3.class_count d 0 = Ok (zeroes sub).
Proof.
  destruct fuel as [|fuel]; [discriminate|].
  cbn [grow]. unfold grow_body.
  destruct (ID3.class_count d 1) as [o|]; [|discriminate].
  destruct (ID3.class_count d 0) as [z|]; [|discriminate].
  destruct (o =? 0); [intros [= <- <-]; auto|].
  destruct (z =? 0); [intros [= <- <-]; auto|].
  destruct attributes as [|a0 rest0]; [intros [= <- <-]; auto|].
  destruct (total <- impurity o z ;; ID3._gain impurity total d (a0 :: rest0))
    as [best|]; [|discriminate].
  cbv zeta.
  destruct (grow_side _ d best _ z o 0 (first + 1)) as [[l last0]|]; [|discriminate].
  destruct (grow_side _ d best _ z o 1 (last0 + 1)) as [[r last1]|]; [|discriminate].
  intros [= <- <-]. auto.
Qed.

Hypothesis impurity_total : forall p n, succeeds (impurity p n).

Lemma construct_tree_shape d :
  has_column d TARGET_COLUMN = true ->
  constructed (ID3.construct_tree impurity d)
    (fun rt last =>
       indices rt = count_up 0 (size rt) /\ last = Z.of_nat (size rt) - 1 /\
       (height rt <= List.length (attributes_of d))%nat /\
       ID3.class_count d 1 = Ok (ones rt) /\ ID3.class_count d 0 = Ok (zeroes rt)).
Proof using impurity_total.
  intros Ht.
  destruct (construct_tree_grows impurity impurity_total d Ht) as (rt & last & G & C).
  exists rt, last. split; [exact C|].
  destruct (grow_numbers impurity _ _ _ _ _ _ G) as (_ & E & L).
  split; [exact E|]. split; [lia|].
  split; [eapply grow_height; eauto | eapply grow_counts; eauto].
Qed.

End Constructed.

(** X12. [construct_tree] numbers the nodes in preorder: read node first,
    then left subtree, then right subtree, the indices are 0, 1, 2, ...
    without a gap, and the counter of the tree is the last of them. *)
Theorem constructed_tree_is_numbered_in_preorder
    (math_log : float -> float -> float) (dataset : DataFrame) :
  has_column dataset TARGET_COLUMN = true ->
  let numbered_from_zero rt last :=
    indices rt = count_up 0 (size rt) /\ last = Z.of_nat (size rt) - 1 in
  constructed (Entropy.construct_tree math_log dataset) numbered_from_zero /\
  constructed (Variance.construct_tree dataset) numbered_from_zero.
Proof.
  intros Ht P. split.
  - destruct (construct_tree_shape _ (entropy_total math_log) dataset Ht)
      as (rt & last & C & H). exists rt, last. split; [exact C|]. split; apply H.
  - destruct (construct_tree_shape _ variance_impurity_total dataset Ht)
      as (rt & last & C & H). exists rt, last. split; [exact C|]. split; apply H.
Qed.

Lemma constructed_tree_is_numbered_in_preorder_witness :
  let numbered_from_zero rt last :=
    indices rt = count_up 0 (size rt) /\ last = Z.of_nat (size rt) - 1 in
  constructed (Entropy.construct_tree (fun x _ => x) example_frame) numbered_from_zero /\
  constructed (Variance.construct_tree example_frame) numbered_from_zero.
Proof.
  apply (constructed_tree_is_numbered_in_preorder (fun x _ => x) example_frame).
  reflexivity.
Defined.

(** X13. The constructed tree is at most as deep as the dataset has
    attribute columns: no way from the root to a leaf passes more splits. *)
Theorem constructed_tree_depth
    (math_log : float -> float -> float) (dataset : DataFrame) :
  has_column dataset TARGET_COLUMN = true ->
  let shallow rt (_ : Z) :=
    (height rt <= List.length (attributes_of dataset))%nat in
  constructed (Entropy.construct_tree math_log dataset) shallow /\
  constructed (Variance.construct_tree dataset) shallow.
Proof.
  intros Ht P. split.
  - destruct (construct_tree_shape _ (entropy_total math_log) dataset Ht)
      as (rt & last & C & H). exists rt, last. split; [exact C|]. apply H.
  - destruct (construct_tree_shape _ variance_impurity_total dataset Ht)
      as (rt & last & C & H). exists rt, last. split; [exact C|]. apply H.
Qed.

Lemma constructed_tree_depth_witness :
  let shallow rt (_ : Z) :=
    (height rt <= List.length (attributes_of example_frame))%nat in
  constructed (Entropy.construct_tree (fun x _ => x) example_frame) shallow /\
  constructed (Variance.construct_tree example_frame) shallow.
Proof.
  apply (constructed_tree_depth (fun x _ => x) example_frame). reflexivity.
Defined.

(** X14. The root of the constructed tree stores the class counts of the
    training set: [ones] is the number of rows whose target is 1 and
    [zeroes] the number of rows whose target is 0. *)
Theorem constructed_root_counts
    (math_log : float -> float -> float) (dataset : DataFrame) :
  has_column dataset TARGET_COLUMN = true ->
  let counted rt (_ : Z) :=
    ID3.class_count dataset 1 = Ok (ones rt) /\
    ID3.class_count dataset 0 = Ok (zeroes rt) in
  constructed (Entropy.construct_tree math_log dataset) counted /\
  constructed (Variance.construct_tree dataset) counted.
Proof.
  intros Ht P. split.
  - destruct (construct_tree_shape _ (entropy_total math_log) dataset Ht)
      as (rt & last & C & H). exists rt, last. split; [exact C|]. split; apply H.
  - destruct (construct_tree_shape _ variance_impurity_total dataset Ht)
      as (rt & last & C & H). exists rt, last. split; [exact C|]. split; apply H.
Qed.

Lemma constructed_root_counts_witness :
  let counted rt (_ : Z) :=
    ID3.class_count example_frame 1 = Ok (ones rt) /\
    ID3.class_count example_frame 0 = Ok (zeroes rt) in
  constructed (Entropy.construct_tree (fun x _ => x) example_frame) counted /\
  constructed (Variance.construct_tree example_frame) counted.
Proof.
  apply (constructed_root_counts (fun x _ => x) example_frame). reflexivity.
Defined.

(* ===================================================================== *)
(** ** The constructed tree and the order of the rows *)
(* ===================================================================== *)

Lemma reordered_empty d d' : reordered d d' -> empty d' = empty d.
Proof.
  intros [Hc Hp]. unfold empty. rewrite Hc.
  destruct (rows d) as [|r rs], (rows d') as [|r' rs']; try reflexivity.
  - apply Permutation_nil in Hp. discriminate.
  - apply Permutation_sym, Permutation_nil in Hp. discriminate.
Qed.

Section BuildOrder.

Variable impurity : Z -> Z -> result float.

Lemma grow_branch_reordered (recur : recursion) d d' best rest z o cur t v :
  (forall s s' a t' p b, reordered s s' -> recur s' a t' p b = recur s a t' p b) ->
  reordered d d' ->
  ID3.grow_branch recur d' best rest z o cur t v
  = ID3.grow_branch recur d best rest z o cur t v.
Proof.
  intros H R. unfold ID3.grow_branch.
  pose proof (reordered_where_eq d d' best v R) as W.
  destruct (where_eq d best v) as [s|e], (where_eq d' best v) as [s'|e'];
    try contradiction; [|congruence].
  rewrite (reordered_empty s s' W). destruct (empty s); [reflexivity|].
  apply H, W.
Qed.

Lemma build_body_reordered (recur : recursion) d d' attributes t p b :
  (forall s s' a t' p' b', reordered s s' -> recur s' a t' p' b' = recur s a t' p' b') ->
  reordered d d' ->
  ID3.build_body impurity recur d' attributes t p b
  = ID3.build_body impurity recur d attributes t p b.
Proof.
  intros H R. unfold ID3.build_body.
  rewrite !(reordered_class_count d d' _ R).
  destruct (ones <- ID3.class_count d 1 ;; zeroes <- ID3.class_count d 0 ;;
            Ok (ones, zeroes)) as [[ones zeroes]|e]; [|reflexivity].
  destruct (ones =? 0); [reflexivity|].
  destruct (zeroes =? 0); [reflexivity|].
  destruct attributes as [|a0 rest0] eqn:Eattr; [reflexivity|].
  rewrite <- Eattr.
  destruct (impurity ones zeroes) as [total|e]; cbn [bind]; [|reflexivity].
  rewrite (reordered_gain impurity total d d' attributes R).
  destruct (ID3._gain impurity total d attributes) as [best|e]; cbn [bind];
    [|reflexivity].
  destruct (ID3._create_node t p b best zeroes ones) as [[cur t1]|e]; cbn [bind];
    [|reflexivity].
  cbv zeta.
  rewrite (grow_branch_reordered recur d d' best _ zeroes ones cur t1 0 H R).
  destruct (ID3.grow_branch recur d best _ zeroes ones cur t1 0) as [[t2|e]|];
    try reflexivity.
  apply grow_branch_reordered; assumption.
Qed.

Lemma build_tree_reordered fuel :
  forall d d' attributes t p b,
    reordered d d' ->
    ID3._build_tree impurity fuel d' attributes t p b
    = ID3._build_tree impurity fuel d attributes t p b.
Proof.
  induction fuel as [|fuel IH]; intros d d' attributes t p b R; [reflexivity|].
  cbn [ID3._build_tree]. apply build_body_reordered; [|exact R].
  intros s s' a t' p' b' R'. apply IH, R'.
Qed.

Lemma construct_tree_reordered d d' :
  reordered d d' ->
  ID3.construct_tree impurity d' = ID3.construct_tree impurity d.
Proof.
  intros R. unfold ID3.construct_tree, drop_column.
  rewrite (reordered_has_column d d' _ R).
  destruct (has_column d TARGET_COLUMN); [|reflexivity].
  cbn [columns]. destruct R as [Hc Hp]. rewrite Hc.
  apply build_tree_reordered. split; assumption.
Qed.

End BuildOrder.

(** X15. [construct_tree] returns the same tree -- structure, labels,
    indices and counts -- for a dataset and for the dataset with its rows
    in another order (and raises the same exception if it raises). *)
Theorem construct_tree_ignores_row_order
    (math_log : float -> float -> float) (dataset permuted : DataFrame) :
  columns permuted = columns dataset ->
  Permutation (rows dataset) (rows permuted) ->
  Entropy.construct_tree math_log permuted = Entropy.construct_tree math_log dataset /\
  Variance.construct_tree permuted = Variance.construct_tree dataset.
Proof.
  intros Hc Hp. split; apply construct_tree_reordered; split; assumption.
Qed.

Lemma construct_tree_ignores_row_order_witness :
  Entropy.construct_tree (fun x _ => x)
    (mkFrame ["A"; "B"; "Class"]%string (rev example_rows))
  = Entropy.construct_tree (fun x _ => x) example_frame /\
  Variance.construct_tree (mkFrame ["A"; "B"; "Class"]%string (rev example_rows))
  = Variance.construct_tree example_frame.
Proof.
  apply (construct_tree_ignores_row_order (fun x _ => x) example_frame
           (mkFrame ["A"; "B"; "Class"]%string (rev example_rows))).
  - reflexivity.
  - apply Permutation_rev.
Defined.

(* ===================================================================== *)
(** ** Accuracy on the training set *)
(* ===================================================================== *)








Section Training.

Variable impurity : Z -> Z -> result float.



Lemma count_matches_none root predictors rs :
  (forall r, In r rs -> exists v, traverse root (series predictors r) = Ok v
                                  /\ v <> r TARGET_COLUMN) ->
  forall m, ID3.count_matches root predictors rs m = Ok m.
Proof.
  induction rs as [|r rs IH]; intros H m; [reflexivity|].
  cbn [ID3.count_matches]. destruct (H r (or_introl eq_refl)) as (v & -> & Hv).
  cbn [bind]. destruct (Z.eqb_spec v (r TARGET_COLUMN)); [contradiction|].
  apply IH. intros x Hx. apply H. right. exact Hx.
Qed.

Hypothesis impurity_total : forall p n, succeeds (impurity p n).



End Training.





(* ===================================================================== *)
(** ** What [calculate_accuracy] returns *)
(* ===================================================================== *)

Lemma drop_target d :
  has_column d TARGET_COLUMN = true ->
  drop_column d TARGET_COLUMN = Ok (predictors_of d).
Proof. intros H. unfold drop_column. rewrite H. reflexivity. Qed.

Lemma classifies_spec d rt :
  has_column d TARGET_COLUMN = true ->
  (classifies d rt <->
   forall r, In r (rows d) -> succeeds (traverse rt (series (predictors_of d) r))).
Proof.
  intros H. unfold classifies. rewrite (drop_target d H). split.
  - intros C r Hr. exact (C _ r eq_refl Hr).
  - intros C p r [= <-] Hr. exact (C r Hr).
Qed.

(** The loop counts the hits. *)
Lemma count_matches_hits rt d rs :
  (forall r, In r rs -> succeeds (traverse rt (series (predictors_of d) r))) ->
  forall m, ID3.count_matches rt (predictors_of d) rs m
            = Ok (m + Z.of_nat (List.length (filter (hit rt d) rs))).
Proof.
  induction rs as [|r rs IH]; intros H m.
  - simpl. f_equal. lia.
  - cbn [ID3.count_matches filter]. unfold hit at 1.
    destruct (H r (or_introl eq_refl)) as [v ->]. cbn [bind].
    rewrite IH by (intros x Hx; apply H; right; exact Hx).
    destruct (v =? r TARGET_COLUMN); cbn [List.length]; f_equal; lia.
Qed.


Lemma accuracy_value d t rt :
  has_column d TARGET_COLUMN = true -> root t = Some rt -> rows d <> [] ->
  classifies d rt ->
  ID3.calculate_accuracy d t
  = (q <- int_truediv (hits rt d) (len d) ;; Ok (mul q hundred)).
Proof.
  intros Ht Hr Hrows Hc. unfold ID3.calculate_accuracy, get_root.
  rewrite (drop_target d Ht), Hr. cbn [bind].
  rewrite (count_matches_hits rt d (rows d) (proj1 (classifies_spec d rt Ht) Hc)).
  reflexivity.
Qed.






Lemma len_positive d : rows d <> [] -> 0 < len d.
Proof. unfold len. destruct (rows d); [congruence|]. intros _. simpl. lia. Qed.



Lemma binary_round_aux_not_negative m e l :
  0 <= m -> not_negative (binary_round_aux prec emax false m e l).
Proof.
  intros H. unfold binary_round_aux.
  pose proof (shr_fexp_nonneg m e l H) as H1.
  destruct (shr_fexp prec emax m e l) as [mrs' e']. simpl in H1.
  pose proof (shr_fexp_nonneg _ e' loc_Exact
                (round_nearest_even_nonneg _ (loc_of_shr_record mrs') H1)) as H2.
  destruct (shr_fexp prec emax _ e' loc_Exact) as [mrs'' e'']. simpl in H2.
  destruct (shr_m mrs'') as [|p|p]; try exact I.
  - destruct (e'' <=? emax - prec); exact I.
  - lia.
Qed.

Lemma int_truediv_not_negative a b q :
  0 <= a -> 0 < b -> int_truediv a b = Ok q -> not_negative q.
Proof.
  intros Ha Hb. unfold int_truediv.
  destruct (b =? 0) eqn:E; [discriminate|]. intros [= <-].
  destruct b as [|pb|pb]; try lia.
  destruct a as [|pa|pa]; try lia; simpl; [exact I|].
  pose proof (div_core_nonneg pa pb) as H.
  destruct (SFdiv_core_binary prec emax (Zpos pa) 0 (Zpos pb) 0) as [[mz ez] lz].
  simpl in H. apply binary_round_aux_not_negative, H.
Qed.

Lemma mul_100_not_negative q : not_negative q -> not_negative (mul q (of_int 100)).
Proof.
  intros H.
  change (of_int 100) with (S754_finite false 7036874417766400 (-46)).
  destruct q as [[|]|[|]| |[|] m e]; try exact I; try contradiction.
  unfold mul, SFmul. apply binary_round_aux_not_negative. lia.
Qed.

Lemma not_negative_ge x : not_negative x -> ge x zero = true /\ number x.
Proof.
  destruct x as [[|]|[|]| |[|] m e]; simpl; intros H; try contradiction;
    split; reflexivity.
Qed.

Lemma hits_bounds rt d : 0 <= hits rt d <= len d.
Proof.
  unfold hits, len. pose proof (filter_length_le (hit rt d) (rows d)). lia.
Qed.

(** X20. An accuracy that [calculate_accuracy] returns is never a NaN and
    never below 0.0: [accuracy >= 0.0] holds of it. *)
Theorem accuracy_is_not_negative (dataset : DataFrame) (t : BTree) (a : float) :
  ID3.calculate_accuracy dataset t = Ok a ->
  ge a zero = true /\ is_nan a = false.
Proof.
  intros Ha.
  destruct (accuracy_defined dataset t a Ha) as (rt & Hr & Hcl & Hrows & Ht & _).
  rewrite (accuracy_value dataset t rt Ht Hr Hrows Hcl) in Ha.
  destruct (int_truediv (hits rt dataset) (len dataset)) as [q|e] eqn:Q;
    [|discriminate].
  injection Ha as <-.
  apply not_negative_ge, mul_100_not_negative.
  apply (int_truediv_not_negative _ _ q (proj1 (hits_bounds rt dataset))
           (len_positive dataset Hrows) Q).
Qed.

Lemma accuracy_is_not_negative_witness :
  ge seventy_five zero = true /\ is_nan seventy_five = false.
Proof.
  apply (accuracy_is_not_negative example_frame stump_tree seventy_five).
  reflexivity.
Defined.

(* ===================================================================== *)
(** ** What a collapse does to a tree *)
(* ===================================================================== *)

Lemma non_leaves_eq n :
  non_leaves_from n =
  if is_leaf n then 0
  else 1 + num_of_non_leaves (left n) + num_of_non_leaves (right n).
Proof. destruct n as [v i z o [l|] [r|]]; reflexivity. Qed.

Lemma non_leaves_nonneg n : 0 <= non_leaves_from n.
Proof.
  induction n as [n IHl IHr] using Node_induction. rewrite non_leaves_eq.
  destruct (is_leaf n); [lia|].
  destruct (left n), (right n); unfold num_of_non_leaves, on_child in *; lia.
Qed.

Lemma non_leaves_set_child b c n :
  non_leaves_from (set_child b (Some c) n)
  = 1 + non_leaves_from c + num_of_non_leaves (child (negb b) n).
Proof.
  rewrite non_leaves_eq, is_leaf_set_child.
  destruct b; cbn [set_child left right child negb num_of_non_leaves]; lia.
Qed.

Lemma non_leaves_child b n c :
  child b n = Some c ->
  non_leaves_from n = 1 + non_leaves_from c + num_of_non_leaves (child (negb b) n).
Proof.
  intros H. rewrite non_leaves_eq, (is_leaf_child b n c H).
  destruct b; cbn [child negb] in *; rewrite H; cbn [num_of_non_leaves]; lia.
Qed.

(** A collapse takes the collapsed node and the inner nodes below it out
    of the count. *)
Lemma non_leaves_collapse p :
  forall n m, deref n p = Some m ->
    non_leaves_from (update n p Pruning.collapse)
    = non_leaves_from n - non_leaves_from m.
Proof.
  induction p as [|b p IH]; intros n m; cbn [update deref].
  - intros [= <-]. rewrite (non_leaves_eq (Pruning.collapse n)).
    change (is_leaf (Pruning.collapse n)) with true. cbv iota. lia.
  - destruct (child b n) as [c|] eqn:Hc; [|discriminate]. intros D.
    rewrite non_leaves_set_child, (non_leaves_child b n c Hc), (IH c m D). lia.
Qed.

Lemma non_leaves_inner m : is_leaf m = false -> 1 <= non_leaves_from m.
Proof.
  intros L. rewrite non_leaves_eq, L.
  destruct (left m) as [l|], (right m) as [r|]; cbn [num_of_non_leaves];
    try pose proof (non_leaves_nonneg l); try pose proof (non_leaves_nonneg r); lia.
Qed.

Lemma indices_collapse p :
  forall n m, deref n p = Some m ->
    (forall x, In x (indices (update n p Pruning.collapse)) -> In x (indices n)) /\
    (NoDup (indices n) -> NoDup (indices (update n p Pruning.collapse))).
Proof.
  induction p as [|b p IH]; intros n m; simpl.
  - intros _. split.
    + intros x [<-|[]]. rewrite indices_eq. left. reflexivity.
    + intros _. constructor; [intros []|constructor].
  - destruct (child b n) as [c|] eqn:Hc; [|discriminate]. intros D.
    destruct (IH c m D) as [Hin Hnd]. split.
    + intros x H. apply in_indices_set_child in H. destruct H as [H|H]; [exact H|].
      eapply child_indices_in; [exact Hc | apply Hin, H].
    + intros N. apply nodup_set_child; [exact N | |].
      * apply Hnd. rewrite indices_children in N.
        apply NoDup_cons_iff in N. destruct N as [_ N].
        apply nodup_app_iff in N. destruct N as (Nl & Nr & _).
        destruct b; unfold child_indices in *; rewrite Hc in *; assumption.
      * intros x H. left. unfold child_indices. rewrite Hc. apply Hin, H.
Qed.

Lemma grown_collapse attributes n : all_nodes (grown attributes) (Pruning.collapse n).
Proof.
  simpl. split; [|split; exact I]. unfold grown, ID3.majority. simpl.
  destruct (ones n >=? zeroes n); auto.
Qed.

Lemma grown_update_collapse attributes p :
  forall n, all_nodes (grown attributes) n ->
            all_nodes (grown attributes) (update n p Pruning.collapse).
Proof.
  induction p as [|b p IH]; intros n H; simpl; [apply grown_collapse|].
  destruct (child b n) as [c|] eqn:Hc; [|exact H].
  apply all_nodes_eq in H. destruct H as (Hn & Hl & Hr).
  apply all_nodes_eq. unfold grown in Hn |- *.
  rewrite is_leaf_set_child. rewrite (is_leaf_child b n c Hc) in Hn.
  destruct Hn as (Ha & Hleft & Hright).
  destruct b; simpl in Hc |- *; rewrite Hc in *; simpl in *.
  - split; [split; [exact Ha | split; [exact Hleft | discriminate]]|].
    split; [exact Hl | apply IH, Hr].
  - split; [split; [exact Ha | split; [discriminate | exact Hright]]|].
    split; [apply IH, Hl | exact Hr].
Qed.

Lemma size_set_child b c n :
  size (set_child b (Some c) n)
  = S (size c + match child (negb b) n with Some o => size o | None => 0 end).
Proof. rewrite size_eq. destruct b; simpl; lia. Qed.

(** *** Trees pruned from a base *)

Lemma pruned_from_trans a b c : pruned_from a b -> pruned_from b c -> pruned_from a c.
Proof.
  intros Hab Hbc. induction Hbc as [|n p m _ IH D L]; [exact Hab|].
  exact (pruned_step a n p m IH D L).
Qed.

Lemma pruning_of_refl t : pruning_of t t.
Proof.
  split; [reflexivity|]. destruct (root t); [apply pruned_none | exact I].
Qed.

Lemma pruning_of_trans a b c : pruning_of a b -> pruning_of b c -> pruning_of a c.
Proof.
  intros [Cab Hab] [Cbc Hbc]. split; [congruence|].
  destruct (root a), (root b), (root c); try contradiction; auto.
  eapply pruned_from_trans; eauto.
Qed.

Lemma pruned_from_facts base n :
  pruned_from base n ->
  idx n = idx base /\
  (forall x, In x (indices n) -> In x (indices base)) /\
  (NoDup (indices base) -> NoDup (indices n)) /\
  non_leaves_from n <= non_leaves_from base /\
  (forall attributes, all_nodes (grown attributes) base ->
                      all_nodes (grown attributes) n) /\
  (forall d, classifies d base -> classifies d n).
Proof.
  induction 1 as [|n p m _ IH D L].
  { repeat split; auto. lia. }
  destruct IH as (Hi & Hin & Hnd & Hnl & Hg & Hc).
  destruct (indices_collapse p n m D) as [Uin Und].
  split; [|split; [|split; [|split; [|split]]]].
  - rewrite <- Hi. destruct p as [|b p]; simpl; [reflexivity|].
    destruct (child b n); [apply idx_set_child | reflexivity].
  - intros x Hx. apply Hin, Uin, Hx.
  - intros N. apply Und, Hnd, N.
  - rewrite (non_leaves_collapse p n m D). pose proof (non_leaves_nonneg m). lia.
  - intros attributes G. apply grown_update_collapse, Hg, G.
  - intros d C. apply classifies_update_collapse, Hc, C.
Qed.

(* ===================================================================== *)
(** ** The rounds and the trials of [post_pruning] *)
(* ===================================================================== *)

(** The node that [random.choice] picks has a child. *)
Lemma chosen_is_inner t x :
  get_non_leaves t <> [] ->
  exists rt m,
    root t = Some rt /\
    deref rt (nth (x mod List.length (get_non_leaves t)) (get_non_leaves t) [])
    = Some m /\
    is_leaf m = false.
Proof.
  intros Hne.
  assert (Hin : In (nth (x mod List.length (get_non_leaves t)) (get_non_leaves t) [])
                   (get_non_leaves t)).
  { apply nth_In. apply Nat.mod_upper_bound.
    destruct (get_non_leaves t); [congruence | simpl; lia]. }
  revert Hin. generalize (nth (x mod List.length (get_non_leaves t))
                            (get_non_leaves t) []). intros p Hin.
  unfold get_non_leaves, _collect_non_leaves in Hin.
  destruct (root t) as [rt|]; [|destruct Hin].
  apply in_collect_from in Hin. destruct Hin as (q & m & -> & D & L).
  exists rt, m. auto.
Qed.

Lemma no_non_leaves t : get_non_leaves t = [] -> num_of_non_leaves (root t) = 0.
Proof.
  unfold get_non_leaves, _collect_non_leaves, num_of_non_leaves.
  destruct (root t) as [rt|]; [|reflexivity]. intros H.
  rewrite <- (collect_from_length rt []), H. reflexivity.
Qed.

(** The inner loop never raises; each round that finds a node with a
    child takes at least one such node away. *)
Lemma prune_rounds_shape n :
  forall candidate w t,
    tree_at w candidate = Some t ->
    exists w' t',
      Pruning.prune_rounds n candidate w = (Ok tt, w') /\
      tree_at w' candidate = Some t' /\
      pruning_of t t' /\
      num_of_non_leaves (root t')
      <= Z.max 0 (num_of_non_leaves (root t) - Z.of_nat n) /\
      List.length (Pruning.heap w') = List.length (Pruning.heap w) /\
      (forall l, l <> candidate -> tree_at w' l = tree_at w l).
Proof.
  induction n as [|n IH]; intros candidate w t Ht.
  { exists w, t. cbn [Pruning.prune_rounds]. unfold Pruning.ret.
    split; [reflexivity|]. split; [exact Ht|]. split; [apply pruning_of_refl|].
    split; [lia|]. split; reflexivity. }
  cbn [Pruning.prune_rounds]. unfold Pruning.mbind at 1.
  rewrite (load_live w candidate t Ht).
  destruct (get_non_leaves t) as [|p ps] eqn:Hnl.
  { exists w, t. unfold Pruning.ret.
    split; [reflexivity|]. split; [exact Ht|]. split; [apply pruning_of_refl|].
    split; [rewrite (no_non_leaves t Hnl); lia|]. split; reflexivity. }
  unfold Pruning.mbind at 1. unfold Pruning.choice, Pruning.mbind at 1.
  destruct (draw_heap w) as (x & w1 & -> & Hw1).
  unfold Pruning.ret. unfold Pruning.mbind at 1. unfold Pruning.store at 1.
  destruct (chosen_is_inner t x ltac:(rewrite Hnl; discriminate))
    as (rt & m & Hr & D & L).
  rewrite Hnl in D.
  set (node_to_prune := nth (x mod List.length (p :: ps)) (p :: ps) []) in *.
  set (t1 := mkBTree (update_root t node_to_prune Pruning.collapse) (_counter t)).
  set (w2 := Pruning.mkWorld (Pruning.write (Pruning.heap w1) candidate t1)
               (Pruning.tape w1)).
  pose proof (tree_at_live w candidate t Ht) as Hlive.
  assert (Ht2 : tree_at w2 candidate = Some t1).
  { unfold tree_at, w2. simpl. apply nth_error_write_same. rewrite Hw1. exact Hlive. }
  assert (Hr1 : root t1 = Some (update rt node_to_prune Pruning.collapse)).
  { unfold t1, update_root. simpl. rewrite Hr. reflexivity. }
  assert (P1 : pruning_of t t1).
  { split; [reflexivity|]. rewrite Hr, Hr1.
    exact (pruned_step rt rt node_to_prune m (pruned_none rt) D L). }
  destruct (IH candidate w2 t1 Ht2) as (w' & t' & Hrun & Ht' & P & Hnum & Hlen & Hother).
  exists w', t'. split; [exact Hrun|]. split; [exact Ht'|].
  split; [exact (pruning_of_trans t t1 t' P1 P)|]. split; [|split].
  - rewrite Hr1 in Hnum. rewrite Hr. cbn [num_of_non_leaves] in Hnum |- *.
    rewrite (non_leaves_collapse node_to_prune rt m D) in Hnum.
    pose proof (non_leaves_inner m L). lia.
  - rewrite Hlen. unfold w2. simpl. rewrite length_write, Hw1. reflexivity.
  - intros l Hl. rewrite (Hother l Hl). unfold tree_at, w2. simpl.
    rewrite nth_error_write_other by exact Hl. rewrite Hw1. reflexivity.
Qed.

Lemma pruning_of_classifies d base t rt :
  pruning_of base t -> root base = Some rt -> classifies d rt ->
  exists rt', root t = Some rt' /\ pruned_from rt rt' /\ classifies d rt'.
Proof.
  intros [_ H] Hr Hc. rewrite Hr in H. destruct (root t) as [rt'|]; [|contradiction].
  exists rt'. split; [reflexivity|]. split; [exact H|].
  apply (pruned_from_facts rt rt' H), Hc.
Qed.

Section Trials.

Variable validation : DataFrame.
Variable base_tree : Pruning.loc.
Variable base : BTree.
Variable base_accuracy : float.
Hypothesis base_defined : ID3.calculate_accuracy validation base = Ok base_accuracy.

(** The outer loop returns one of the trees made since [first]: the best
    so far or a later candidate; each is the base tree with nodes
    collapsed, and each trial makes one tree object. *)
Lemma trials_shape n k first :
  forall w best_tree best current_best,
    tree_at w base_tree = Some base ->
    tree_at w best_tree = Some best ->
    pruning_of base best ->
    ID3.calculate_accuracy validation best = Ok current_best ->
    ge current_best base_accuracy = true ->
    (first <= best_tree)%nat -> (first <= List.length (Pruning.heap w))%nat ->
    exists w' result pruned accuracy,
      Pruning.trials n k validation base_tree best_tree current_best w
        = (Ok result, w') /\
      tree_at w' result = Some pruned /\
      pruning_of base pruned /\
      ID3.calculate_accuracy validation pruned = Ok accuracy /\
      ge accuracy base_accuracy = true /\
      (first <= result)%nat /\
      List.length (Pruning.heap w') = (List.length (Pruning.heap w) + n)%nat /\
      untouched w w'.
Proof using base_defined.
  induction n as [|n IH];
    intros w best_tree best current_best Hbase Hbest Pbest Hacc Hge Hlo Hlen.
  { exists w, best_tree, best, current_best. cbn [Pruning.trials]. unfold Pruning.ret.
    split; [reflexivity|]. split; [exact Hbest|]. split; [exact Pbest|].
    split; [exact Hacc|]. split; [exact Hge|]. split; [exact Hlo|].
    split; [lia|]. intros l t H. exact H. }
  cbn [Pruning.trials]. unfold Pruning.mbind at 1.
  destruct (deepcopy_live w base_tree base Hbase) as (w1 & -> & Hh1 & Htape1).
  set (candidate := List.length (Pruning.heap w)) in *.
  assert (Hold1 : forall l t, tree_at w l = Some t -> tree_at w1 l = Some t).
  { intros l t H. unfold tree_at in *. rewrite Hh1.
    rewrite nth_error_app1; [exact H | apply nth_error_Some; congruence]. }
  assert (Hcand1 : tree_at w1 candidate = Some base).
  { unfold tree_at. rewrite Hh1. rewrite nth_error_app2 by (unfold candidate; lia).
    unfold candidate. rewrite Nat.sub_diag. reflexivity. }
  unfold Pruning.mbind at 1. unfold Pruning.randint, Pruning.mbind at 1.
  destruct (draw_heap w1) as (x & w2 & -> & Hh2).
  unfold Pruning.ret.
  assert (Hsame2 : forall l, tree_at w2 l = tree_at w1 l)
    by (intros l; unfold tree_at; rewrite Hh2; reflexivity).
  destruct (accuracy_defined validation base base_accuracy base_defined)
    as (rt & Hrt & Hcl & Hrows & Htarget & _).
  unfold Pruning.mbind at 1.
  destruct (prune_rounds_shape
              (Z.to_nat (Z.max (1 + Z.of_nat x mod (Z.max k 1 - 1 + 1)) 1))
              candidate w2 base ltac:(rewrite Hsame2; exact Hcand1))
    as (w3 & c & -> & Hc3 & Pc & _ & Hlen3 & Hother3).
  destruct (pruning_of_classifies validation base c rt Pc Hrt Hcl)
    as (rc & Hrc & _ & Hclc).
  unfold Pruning.mbind at 1. rewrite (load_live w3 candidate c Hc3).
  unfold Pruning.mbind at 1. unfold Pruning.lift at 1.
  destruct (accuracy_succeeds validation c rc Hrc Hclc Hrows Htarget)
    as [candidate_accuracy Hca].
  rewrite Hca.
  assert (Hold3 : forall l t, tree_at w l = Some t -> tree_at w3 l = Some t).
  { intros l t H. rewrite Hother3.
    - rewrite Hsame2. apply Hold1, H.
    - pose proof (tree_at_live w l t H). unfold candidate. lia. }
  assert (Hlen3' : List.length (Pruning.heap w3) = S (List.length (Pruning.heap w))).
  { rewrite Hlen3, Hh2, Hh1, length_app. simpl. lia. }
  destruct (gt candidate_accuracy current_best) eqn:G.
  - destruct (IH w3 candidate c candidate_accuracy (Hold3 _ _ Hbase) Hc3 Pc Hca
                (gt_ge_trans _ _ _ G Hge) Hlen ltac:(lia))
      as (w' & result & pruned & accuracy & Hrun & Hres & P & Hacc' & Hge' & Hlo'
          & Hlen' & Hun).
    exists w', result, pruned, accuracy.
    split; [exact Hrun|]. split; [exact Hres|]. split; [exact P|].
    split; [exact Hacc'|]. split; [exact Hge'|]. split; [exact Hlo'|].
    split; [lia|]. intros l t H. apply Hun, Hold3, H.
  - destruct (IH w3 best_tree best current_best (Hold3 _ _ Hbase)
                (Hold3 _ _ Hbest) Pbest Hacc Hge Hlo ltac:(lia))
      as (w' & result & pruned & accuracy & Hrun & Hres & P & Hacc' & Hge' & Hlo'
          & Hlen' & Hun).
    exists w', result, pruned, accuracy.
    split; [exact Hrun|]. split; [exact Hres|]. split; [exact P|].
    split; [exact Hacc'|]. split; [exact Hge'|]. split; [exact Hlo'|].
    split; [lia|]. intros l t H. apply Hun, Hold3, H.
Qed.

Lemma post_pruning_shape l k w :
  tree_at w base_tree = Some base ->
  exists w' result pruned accuracy,
    Pruning.post_pruning l k validation base_tree w = (Ok result, w') /\
    tree_at w' result = Some pruned /\
    pruning_of base pruned /\
    ID3.calculate_accuracy validation pruned = Ok accuracy /\
    ge accuracy base_accuracy = true /\
    (List.length (Pruning.heap w) <= result)%nat /\
    List.length (Pruning.heap w')
    = (List.length (Pruning.heap w) + 1 + Z.to_nat (Z.max l 1))%nat /\
    untouched w w'.
Proof using base_defined.
  intros Hbase. unfold Pruning.post_pruning. unfold Pruning.mbind at 1.
  destruct (deepcopy_live w base_tree base Hbase) as (w1 & -> & Hh1 & Htape1).
  set (best_tree := List.length (Pruning.heap w)).
  assert (Hold1 : forall l t, tree_at w l = Some t -> tree_at w1 l = Some t).
  { intros l0 t H. unfold tree_at in *. rewrite Hh1.
    rewrite nth_error_app1; [exact H | apply nth_error_Some; congruence]. }
  assert (Hbest1 : tree_at w1 best_tree = Some base).
  { unfold tree_at. rewrite Hh1. rewrite nth_error_app2 by (unfold best_tree; lia).
    unfold best_tree. rewrite Nat.sub_diag. reflexivity. }
  unfold Pruning.mbind at 1. rewrite (load_live w1 best_tree base Hbest1).
  unfold Pruning.mbind at 1. unfold Pruning.lift at 1. rewrite base_defined.
  destruct (accuracy_defined validation base base_accuracy base_defined)
    as (_ & _ & _ & _ & _ & Hnum).
  assert (Hlen1 : List.length (Pruning.heap w1) = S (List.length (Pruning.heap w)))
    by (rewrite Hh1, length_app; simpl; lia).
  destruct (trials_shape (Z.to_nat (Z.max l 1)) k best_tree w1 best_tree base
              base_accuracy (Hold1 _ _ Hbase) Hbest1 (pruning_of_refl base)
              base_defined (ge_refl _ Hnum) (le_n _)
              ltac:(unfold best_tree; lia))
    as (w' & result & pruned & accuracy & Hrun & Hres & P & Hacc & Hge & Hlo
        & Hlen & Hun).
  exists w', result, pruned, accuracy.
  split; [exact Hrun|]. split; [exact Hres|]. split; [exact P|].
  split; [exact Hacc|]. split; [exact Hge|]. split; [exact Hlo|]. split.
  - rewrite Hlen, Hlen1. lia.
  - intros l0 t H. apply Hun, Hold1, H.
Qed.

End Trials.

Lemma pruning_of_facts base t :
  pruning_of base t ->
  _counter t = _counter base /\
  (forall i, In i (tree_indices t) -> In i (tree_indices base)) /\
  (NoDup (tree_indices base) -> NoDup (tree_indices t)) /\
  num_of_non_leaves (root t) <= num_of_non_leaves (root base).
Proof.
  intros [Hc H]. split; [exact Hc|]. unfold tree_indices, num_of_non_leaves.
  destruct (root base) as [b|], (root t) as [n|]; try contradiction.
  - destruct (pruned_from_facts b n H) as (_ & Hin & Hnd & Hnl & _).
    split; [exact Hin|]. split; [exact Hnd | exact Hnl].
  - split; [tauto|]. split; [tauto | lia].
Qed.

(** X21. [post_pruning] returns an object that did not exist before the
    call - so never the base tree object itself, not even when no trial
    improves on it - and the call makes exactly [1 + max(l, 1)] tree
    objects: the first copy and one candidate for each trial. *)
Theorem post_pruning_returns_a_new_object
    (l k : Z) (validation : DataFrame) (base_tree : Pruning.loc) (w : Pruning.world)
    (base : BTree) (base_accuracy : float) :
  tree_at w base_tree = Some base ->
  ID3.calculate_accuracy validation base = Ok base_accuracy ->
  exists w' result pruned,
    Pruning.post_pruning l k validation base_tree w = (Ok result, w') /\
    tree_at w' result = Some pruned /\
    tree_at w result = None /\ result <> base_tree /\
    List.length (Pruning.heap w')
    = (List.length (Pruning.heap w) + 1 + Z.to_nat (Z.max l 1))%nat.
Proof.
  intros Hbase Hacc.
  destruct (post_pruning_shape validation base_tree base base_accuracy Hacc l k w Hbase)
    as (w' & result & pruned & accuracy & Hrun & Hres & _ & _ & _ & Hlo & Hlen & _).
  exists w', result, pruned. split; [exact Hrun|]. split; [exact Hres|].
  split; [apply nth_error_None; exact Hlo|]. split; [|exact Hlen].
  pose proof (tree_at_live w base_tree base Hbase). lia.
Qed.

Lemma post_pruning_returns_a_new_object_witness :
  exists w' result pruned,
    Pruning.post_pruning 3 2 example_frame 0%nat example_world = (Ok result, w') /\
    tree_at w' result = Some pruned /\
    tree_at example_world result = None /\ result <> 0%nat /\
    List.length (Pruning.heap w')
    = (List.length (Pruning.heap example_world) + 1 + Z.to_nat (Z.max 3 1))%nat.
Proof.
  apply (post_pruning_returns_a_new_object 3 2 example_frame 0%nat example_world
           stump_tree seventy_five); reflexivity.
Defined.

(** X22. The tree that [post_pruning] returns is the base tree with zero
    or more of its nodes collapsed into leaves: it has the counter of the
    base tree, every index of one of its nodes is the index of a node of
    the base tree, its indices are distinct when those of the base tree
    are, and it has at most as many nodes with a child. *)
Theorem pruned_tree_is_base_tree_collapsed
    (l k : Z) (validation : DataFrame) (base_tree : Pruning.loc) (w : Pruning.world)
    (base : BTree) (base_accuracy : float) :
  tree_at w base_tree = Some base ->
  ID3.calculate_accuracy validation base = Ok base_accuracy ->
  exists w' result pruned,
    Pruning.post_pruning l k validation base_tree w = (Ok result, w') /\
    tree_at w' result = Some pruned /\
    pruning_of base pruned /\
    _counter pruned = _counter base /\
    (forall i, In i (tree_indices pruned) -> In i (tree_indices base)) /\
    (NoDup (tree_indices base) -> NoDup (tree_indices pruned)) /\
    num_of_non_leaves (root pruned) <= num_of_non_leaves (root base).
Proof.
  intros Hbase Hacc.
  destruct (post_pruning_shape validation base_tree base base_accuracy Hacc l k w Hbase)
    as (w' & result & pruned & accuracy & Hrun & Hres & P & _).
  exists w', result, pruned. split; [exact Hrun|]. split; [exact Hres|].
  split; [exact P|]. apply pruning_of_facts, P.
Qed.

Lemma pruned_tree_is_base_tree_collapsed_witness :
  exists w' result pruned,
    Pruning.post_pruning 3 2 example_frame 0%nat example_world = (Ok result, w') /\
    tree_at w' result = Some pruned /\
    pruning_of stump_tree pruned /\
    _counter pruned = _counter stump_tree /\
    (forall i, In i (tree_indices pruned) -> In i (tree_indices stump_tree)) /\
    (NoDup (tree_indices stump_tree) -> NoDup (tree_indices pruned)) /\
    num_of_non_leaves (root pruned) <= num_of_non_leaves (root stump_tree).
Proof.
  apply (pruned_tree_is_base_tree_collapsed 3 2 example_frame 0%nat example_world
           stump_tree seventy_five); reflexivity.
Defined.

(** X23. The inner loop of [post_pruning] never raises, on any tree and
    any draws, and writes to the candidate only.  Each of its rounds that
    finds a node with a child collapses one and so takes at least one
    such node away: after [n] rounds on a tree with [c] of them at most
    [max(0, c - n)] are left, and none when [n >= c]. *)
Theorem prune_rounds_collapse_a_node_each
    (n : nat) (candidate : Pruning.loc) (w : Pruning.world) (t : BTree) :
  tree_at w candidate = Some t ->
  exists w' t',
    Pruning.prune_rounds n candidate w = (Ok tt, w') /\
    tree_at w' candidate = Some t' /\
    pruning_of t t' /\
    num_of_non_leaves (root t')
    <= Z.max 0 (num_of_non_leaves (root t) - Z.of_nat n) /\
    (num_of_non_leaves (root t) <= Z.of_nat n -> get_non_leaves t' = []) /\
    (forall l, l <> candidate -> tree_at w' l = tree_at w l).
Proof.
  intros Ht.
  destruct (prune_rounds_shape n candidate w t Ht)
    as (w' & t' & Hrun & Ht' & P & Hnum & _ & Hother).
  exists w', t'. split; [exact Hrun|]. split; [exact Ht'|]. split; [exact P|].
  split; [exact Hnum|]. split; [|exact Hother].
  intros Hle. apply length_zero_iff_nil.
  assert (E : num_of_non_leaves (root t') = Z.of_nat (List.length (get_non_leaves t'))).
  { unfold num_of_non_leaves, get_non_leaves, _collect_non_leaves.
    destruct (root t') as [rt|]; [|reflexivity]. symmetry. apply collect_from_length. }
  lia.
Qed.

Lemma prune_rounds_collapse_a_node_each_witness :
  exists w' t',
    Pruning.prune_rounds 2 0%nat example_store = (Ok tt, w') /\
    tree_at w' 0%nat = Some t' /\
    pruning_of example_tree t' /\
    num_of_non_leaves (root t')
    <= Z.max 0 (num_of_non_leaves (root example_tree) - Z.of_nat 2) /\
    (num_of_non_leaves (root example_tree) <= Z.of_nat 2 -> get_non_leaves t' = []) /\
    (forall l, l <> 0%nat -> tree_at w' l = tree_at example_store l).
Proof.
  apply (prune_rounds_collapse_a_node_each 2 0%nat example_store example_tree).
  reflexivity.
Defined.

(** X24. When the accuracy of the base tree on the validation set is not
    defined, [post_pruning] raises the exception of [calculate_accuracy]
    right after its first copy: one tree object is made, no random number
    is drawn and no trial runs. *)
Theorem post_pruning_raises_what_accuracy_raises
    (l k : Z) (validation : DataFrame) (base_tree : Pruning.loc) (w : Pruning.world)
    (base : BTree) (e : exn) :
  tree_at w base_tree = Some base ->
  ID3.calculate_accuracy validation base = Raise e ->
  Pruning.post_pruning l k validation base_tree w
  = (Raise e, Pruning.mkWorld (Pruning.heap w ++ [base]) (Pruning.tape w)).
Proof.
  intros Hbase Hacc. unfold Pruning.post_pruning. unfold Pruning.mbind at 1.
  unfold Pruning.deepcopy. unfold tree_at in Hbase.
  rewrite (nth_error_nth _ _ Tree.new Hbase).
  unfold Pruning.mbind at 1. unfold Pruning.load. cbn [Pruning.heap].
  rewrite app_nth2 by lia. rewrite Nat.sub_diag. cbn [nth].
  unfold Pruning.mbind at 1. unfold Pruning.lift. rewrite Hacc. reflexivity.
Qed.

Lemma post_pruning_raises_what_accuracy_raises_witness :
  Pruning.post_pruning 3 2 (mkFrame ["A"; "Class"]%string []) 0%nat example_world
  = (Raise ZeroDivisionError,
     Pruning.mkWorld (Pruning.heap example_world ++ [stump_tree])
       (Pruning.tape example_world)).
Proof.
  apply (post_pruning_raises_what_accuracy_raises 3 2
           (mkFrame ["A"; "Class"]%string []) 0%nat example_world stump_tree
           ZeroDivisionError); reflexivity.
Defined.

(* ===================================================================== *)
(** ** Pruning a constructed tree, and a whole run *)
(* ===================================================================== *)

Lemma has_column_in d a : has_column d a = true <-> In a (columns d).
Proof.
  unfold has_column. rewrite existsb_exists. split.
  - intros (c & Hc & E). apply String.eqb_eq in E. subst c. exact Hc.
  - intros H. exists a. split; [exact H | apply String.eqb_refl].
Qed.

(** A tree grown from the attributes of [training] classifies every row
    of a frame that has those columns. *)
Lemma grown_classifies training d rt :
  scorable training d ->
  all_nodes (grown (attributes_of training)) rt -> classifies d rt.
Proof.
  intros (Ht & _ & Hcols) G. apply classifies_spec; [exact Ht|]. intros r _.
  apply (traverse_grown (attributes_of training)); [|exact G].
  intros a Ha. exists (r a). unfold series.
  replace (has_column (predictors_of d) a) with true; [reflexivity|].
  symmetry. apply has_column_in. unfold predictors_of, attributes_of. cbn [columns].
  apply filter_In. split; [apply has_column_in, Hcols, Ha|].
  unfold attributes_of in Ha. apply filter_In in Ha. exact (proj2 Ha).
Qed.

Lemma pruned_strict_classifier d rt last pruned :
  built (attributes_of d) 0 last rt ->
  pruning_of (mkBTree (Some rt) last) pruned ->
  strict_classifier d (Some (Ok pruned)).
Proof.
  intros (_ & Hn & _ & Hg) [_ P]. cbn [root] in P.
  destruct (root pruned) as [rt'|] eqn:Hr; [|contradiction].
  destruct (pruned_from_facts rt rt' P) as (_ & _ & Hnd & _ & Hgr & _).
  specialize (Hgr _ Hg).
  exists pruned, rt'. split; [reflexivity|]. split; [exact Hr|].
  split; [eapply all_nodes_impl; [|exact Hgr]; apply grown_two_children|].
  split; [apply Hnd, Hn|].
  split; [eapply all_nodes_impl; [|exact Hgr]; apply grown_labelled_leaf|].
  intros sample Hs. eapply traverse_grown; eauto.
Qed.

Section Pipeline.

Variable impurity : Z -> Z -> result float.
Hypothesis impurity_total : forall p n, succeeds (impurity p n).

Lemma construct_tree_target d base :
  ID3.construct_tree impurity d = Some (Ok base) ->
  has_column d TARGET_COLUMN = true.
Proof.
  unfold ID3.construct_tree, drop_column.
  destruct (has_column d TARGET_COLUMN); [reflexivity | discriminate].
Qed.

Lemma pruned_constructed l k training validation base_tree w base accuracy :
  ID3.construct_tree impurity training = Some (Ok base) ->
  tree_at w base_tree = Some base ->
  ID3.calculate_accuracy validation base = Ok accuracy ->
  exists w' result pruned,
    Pruning.post_pruning l k validation base_tree w = (Ok result, w') /\
    tree_at w' result = Some pruned /\
    strict_classifier training (Some (Ok pruned)).
Proof using impurity_total.
  intros Hc Hbase Hacc.
  destruct (construct_tree_built impurity impurity_total training
              (construct_tree_target training base Hc)) as (rt & last & E & B).
  rewrite E in Hc. injection Hc as <-.
  destruct (post_pruning_shape validation base_tree _ accuracy Hacc l k w Hbase)
    as (w' & result & pruned & _ & Hrun & Hres & P & _).
  exists w', result, pruned. split; [exact Hrun|]. split; [exact Hres|].
  exact (pruned_strict_classifier training rt last pruned B P).
Qed.

Lemma run_is_good training validation test l k w :
  has_column training TARGET_COLUMN = true ->
  scorable training validation -> scorable training test ->
  good_run (ID3.construct_tree impurity) training validation test w
    (Run.run (ID3.construct_tree impurity) training validation test l k w).
Proof using impurity_total.
  intros Ht Sv St.
  destruct (construct_tree_built impurity impurity_total training Ht)
    as (rt & last & E & B).
  pose proof B as (_ & _ & _ & G).
  set (base := mkBTree (Some rt) last) in *.
  assert (Cv : classifies validation rt) by (apply (grown_classifies training); auto).
  assert (Ct : classifies test rt) by (apply (grown_classifies training); auto).
  destruct Sv as (Tv & Rv & Av). destruct St as (Tt & Rt & At).
  destruct (accuracy_succeeds validation base rt eq_refl Cv Rv Tv) as [vb Hvb].
  destruct (accuracy_succeeds test base rt eq_refl Ct Rt Tt) as [tb Htb].
  set (w1 := Pruning.mkWorld (Pruning.heap w ++ [base]) (Pruning.tape w)).
  set (decision_tree := List.length (Pruning.heap w)).
  assert (Hold1 : untouched w w1).
  { intros l0 t H. unfold tree_at in *. unfold w1. cbn [Pruning.heap].
    rewrite nth_error_app1; [exact H | apply nth_error_Some; congruence]. }
  assert (H1 : tree_at w1 decision_tree = Some base).
  { unfold tree_at, w1, decision_tree. cbn [Pruning.heap].
    rewrite nth_error_app2 by lia. rewrite Nat.sub_diag. reflexivity. }
  destruct (post_pruning_shape validation decision_tree base vb Hvb l k w1 H1)
    as (w' & result & pruned & va & Hrun & Hres & P & Hva & Hge & Hlo & _ & Hun).
  destruct (pruning_of_classifies test base pruned rt P eq_refl Ct)
    as (rp & Hrp & _ & Cp).
  destruct (accuracy_succeeds test pruned rp Hrp Cp Rt Tt) as [ta Hta].
  assert (Hlen1 : List.length (Pruning.heap w1) = S decision_tree).
  { unfold w1, decision_tree. cbn [Pruning.heap]. rewrite length_app. simpl. lia. }
  exists base, (Run.mkRunResult decision_tree result tb ta), w', pruned.
  cbn [Run.tree Run.pruned_tree Run.accuracy_before_pruning Run.accuracy_after_pruning].
  split; [exact E|]. split.
  { unfold Run.run. rewrite E. f_equal.
    unfold Pruning.mbind at 1. unfold Pruning.lift at 1.
    unfold Pruning.mbind at 1. unfold Run.alloc at 1. fold w1. fold decision_tree.
    unfold Pruning.mbind at 1. rewrite (load_live w1 decision_tree base H1).
    unfold Pruning.mbind at 1. unfold Pruning.lift at 1. rewrite Htb.
    unfold Pruning.mbind at 1. rewrite Hrun.
    unfold Pruning.mbind at 1. rewrite (load_live w' result pruned Hres).
    unfold Pruning.mbind at 1. unfold Pruning.lift at 1. rewrite Hta.
    reflexivity. }
  split; [apply nth_error_None; unfold decision_tree; lia|].
  split; [apply nth_error_None; fold decision_tree; lia|].
  split; [lia|].
  split; [apply Hun, H1|]. split; [exact Hres|]. split; [exact P|].
  split; [exact Htb|]. split; [exact Hta|].
  split; [exists vb, va; auto|].
  intros l0 t H. apply Hun, Hold1, H.
Qed.

End Pipeline.

(** X25. Pruning keeps a constructed tree a strict classifier: when
    [post_pruning] is given a tree that [construct_tree] returned for a
    training set and whose accuracy on the validation set is defined, the
    tree it returns has a root; each of its nodes that is not a leaf has
    both children, no two nodes share an index, every leaf has a label, and
    [traverse] classifies every sample that gives a value to each
    attribute column of the training set. *)
Theorem pruned_constructed_tree_is_strict
    (math_log : float -> float -> float) (l k : Z)
    (training validation : DataFrame)
    (base_tree : Pruning.loc) (w : Pruning.world) (base : BTree) (accuracy : float) :
  Entropy.construct_tree math_log training = Some (Ok base) \/
  Variance.construct_tree training = Some (Ok base) ->
  tree_at w base_tree = Some base ->
  ID3.calculate_accuracy validation base = Ok accuracy ->
  exists w' result pruned,
    Pruning.post_pruning l k validation base_tree w = (Ok result, w') /\
    tree_at w' result = Some pruned /\
    strict_classifier training (Some (Ok pruned)).
Proof.
  intros [Hc|Hc] Hbase Hacc.
  - exact (pruned_constructed (Entropy.entropy math_log) (entropy_total math_log)
             l k training validation base_tree w base accuracy Hc Hbase Hacc).
  - exact (pruned_constructed Variance.variance_impurity variance_impurity_total
             l k training validation base_tree w base accuracy Hc Hbase Hacc).
Qed.

Lemma pruned_constructed_tree_is_strict_witness :
  exists w' result pruned,
    Pruning.post_pruning 2 3 example_frame 0%nat example_store = (Ok result, w') /\
    tree_at w' result = Some pruned /\
    strict_classifier example_frame (Some (Ok pruned)).
Proof.
  apply (pruned_constructed_tree_is_strict (fun _ _ => zero) 2 3
           example_frame example_frame 0%nat example_store example_tree hundred).
  - right. reflexivity.
  - reflexivity.
  - reflexivity.
Defined.

(** X26. A run on three frames never raises when the training set has
    the target column and the validation and test sets have it too, with
    at least one row and every attribute column of the training set.  It
    returns two distinct new tree objects, the constructed tree and that
    tree with nodes collapsed; the two accuracies are those of the two
    trees on the test set; on the validation set the pruned tree is at
    least as accurate as the constructed one; the objects that existed
    before the run are unchanged. *)
Theorem run_never_raises_on_matching_frames
    (math_log : float -> float -> float)
    (training validation test : DataFrame) (l k : Z) (w : Pruning.world) :
  has_column training TARGET_COLUMN = true ->
  scorable training validation -> scorable training test ->
  good_run (Entropy.construct_tree math_log) training validation test w
    (Run.run_entropy math_log training validation test l k w) /\
  good_run Variance.construct_tree training validation test w
    (Run.run_variance training validation test l k w).
Proof.
  intros Ht Sv St. split.
  - exact (run_is_good (Entropy.entropy math_log) (entropy_total math_log)
             training validation test l k w Ht Sv St).
  - exact (run_is_good Variance.variance_impurity variance_impurity_total
             training validation test l k w Ht Sv St).
Qed.

Lemma example_frame_scorable : scorable example_frame example_frame.
Proof.
  split; [reflexivity|]. split; [discriminate|].
  intros a [<-|[<-|[]]]; reflexivity.
Defined.

Lemma run_never_raises_on_matching_frames_witness :
  good_run (Entropy.construct_tree (fun _ _ => zero))
    example_frame example_frame example_frame example_world
    (Run.run_entropy (fun _ _ => zero) example_frame example_frame example_frame
       2 3 example_world) /\
  good_run Variance.construct_tree
    example_frame example_frame example_frame example_world
    (Run.run_variance example_frame example_frame example_frame 2 3 example_world).
Proof.
  apply (run_never_raises_on_matching_frames (fun _ _ => zero)
           example_frame example_frame example_frame 2 3 example_world).
  - reflexivity.
  - exact example_frame_scorable.
  - exact example_frame_scorable.
Defined.
